(** * A shallow embedding of the redaction library

    The development follows the Python sources of [redaction_library]:
    the pattern matchers under [redaction/redactors], [BaseRedactor] in
    [redaction/base.py], the [TextChunker] in [redaction/utils/chunking.py],
    the [RedactionService] in [redaction/service.py] and the Azure detector
    under [redaction/cloud_detectors].

    Modelling conventions.
    - A Python [str] is a [list ascii]; every [ascii] stands for the code
      point of the same number, so the strings covered are those over the
      code points 0..255.  The character predicates below are the Unicode
      ones restricted to that range.
    - Python integers are [Z]; indices, lengths and offsets that the code
      keeps non-negative are [nat].
    - The token store is an association list in insertion order, as a
      Python [dict] is. *)

From Stdlib Require Import Ascii String List ZArith NArith Arith Bool Lia.
From Stdlib Require Import Permutation Sorted DecimalString.
Import ListNotations.

Set Implicit Arguments.
Unset Strict Implicit.

Definition str := list ascii.

(** Literal helper: [s2l "abc"] is the Python string ['abc']. *)
Definition s2l (s : string) : str := list_ascii_of_string s.

(* ===================================================================== *)
(** ** Python string primitives *)
(* ===================================================================== *)

Module Py.

Definition ord (c : ascii) : nat := nat_of_ascii c.
Definition chr (n : nat) : ascii := ascii_of_nat n.

Definition in_range (lo hi : nat) (c : ascii) : bool :=
  (lo <=? ord c) && (ord c <=? hi).

Definition ch_eqb (a b : ascii) : bool := Ascii.eqb a b.

Fixpoint str_eqb (a b : str) : bool :=
  match a, b with
  | [], [] => true
  | x :: a', y :: b' => ch_eqb x y && str_eqb a' b'
  | _, _ => false
  end.

(** [c.isdecimal()]: Unicode category Nd; below 256 only ['0'..'9']. *)
Definition isdecimal_c (c : ascii) : bool := in_range 48 57 c.

(** [c.isdigit()]: decimals and the superscripts 2, 3 (178, 179) and 1 (185). *)
Definition isdigit_c (c : ascii) : bool :=
  isdecimal_c c || in_range 178 179 c || (ord c =? 185).

(** [c.isnumeric()]: digits and the vulgar fractions 188..190. *)
Definition isnumeric_c (c : ascii) : bool :=
  isdigit_c c || in_range 188 190 c.

(** [c.isalpha()]: Unicode letters below 256. *)
Definition isalpha_c (c : ascii) : bool :=
  in_range 65 90 c || in_range 97 122 c
  || (ord c =? 170) || (ord c =? 181) || (ord c =? 186)
  || in_range 192 214 c || in_range 216 246 c || in_range 248 255 c.

(** [c.isalnum()] is [isalpha or isdecimal or isdigit or isnumeric]. *)
Definition isalnum_c (c : ascii) : bool :=
  isalpha_c c || isdecimal_c c || isdigit_c c || isnumeric_c c.

(** [c.isspace()]: Unicode white space below 256. *)
Definition isspace_c (c : ascii) : bool :=
  in_range 9 13 c || in_range 28 32 c || (ord c =? 133) || (ord c =? 160).

(** [s.isdigit()], [s.isalnum()]: all characters, and at least one. *)
Definition isdigit (s : str) : bool :=
  negb (Nat.eqb (length s) 0) && forallb isdigit_c s.
Definition isalnum (s : str) : bool :=
  negb (Nat.eqb (length s) 0) && forallb isalnum_c s.

(** ASCII upper-casing, as [str.upper] acts on the enum values used here. *)
Definition upper_c (c : ascii) : ascii :=
  if in_range 97 122 c then chr (ord c - 32) else c.
Definition upper (s : str) : str := map upper_c s.

(** [s.startswith(p)] *)
Fixpoint startswith (p s : str) : bool :=
  match p, s with
  | [], _ => true
  | x :: p', y :: s' => ch_eqb x y && startswith p' s'
  | _ :: _, [] => false
  end.

(** [s.find(sub)] as an option: [None] is Python's [-1]. *)
Fixpoint find (sub s : str) : option nat :=
  if startswith sub s then Some 0
  else match s with
       | [] => None
       | _ :: s' => option_map S (find sub s')
       end.

(** [sub in s] *)
Definition contains (sub s : str) : bool :=
  match find sub s with Some _ => true | None => false end.

(** Slices [s[a:b]], [s[:b]], [s[a:]] for non-negative indices. *)
Definition slice (s : str) (a b : nat) : str := firstn (b - a) (skipn a s).
Definition slice_to (s : str) (b : nat) : str := firstn b s.
Definition slice_from (s : str) (a : nat) : str := skipn a s.

(** [s.replace(old, new, 1)]: the first occurrence only. *)
Definition replace_first (old new s : str) : str :=
  match find old s with
  | Some i => firstn i s ++ new ++ skipn (i + length old) s
  | None => s
  end.

(** [s.split(sep)] for a non-empty separator: cut at each occurrence found
    scanning left to right, skipping over the separator. [skip] counts the
    separator characters still to be passed over, [cur] is the piece being
    collected, reversed. *)
Fixpoint split_aux (sep s : str) (skip : nat) (cur : str) : list str :=
  match s with
  | [] => [rev cur]
  | c :: s' =>
      match skip with
      | S k => split_aux sep s' k cur
      | O =>
          if startswith sep s
          then rev cur :: split_aux sep s' (length sep - 1) []
          else split_aux sep s' 0 (c :: cur)
      end
  end.
Definition split (sep s : str) : list str := split_aux sep s 0 [].

(** [s.replace(old, new)] for a non-empty [old]: every occurrence. *)
Fixpoint replace_aux (old new s : str) (skip : nat) : str :=
  match s with
  | [] => []
  | c :: s' =>
      match skip with
      | S k => replace_aux old new s' k
      | O =>
          if startswith old s
          then new ++ replace_aux old new s' (length old - 1)
          else c :: replace_aux old new s' 0
      end
  end.
Definition replace (old new s : str) : str := replace_aux old new s 0.

(** [s.rfind(' ', a, b)] for [0 <= a], [b <= len(s)]: the highest index in
    [a, b) holding the character, or [-1]. *)
Fixpoint rfind_from (c : ascii) (s : str) (i : nat) : Z :=
  match s with
  | [] => (-1)%Z
  | x :: s' =>
      let r := rfind_from c s' (S i) in
      if (0 <=? r)%Z then r
      else if ch_eqb x c then Z.of_nat i else (-1)%Z
  end.
Definition rfind (c : ascii) (s : str) (a b : nat) : Z :=
  rfind_from c (slice s a b) a.

(** [re.sub(r'\D', '', s)]: keep the characters that [\d] matches. *)
Definition strip_non_digits (s : str) : str := filter isdecimal_c s.

End Py.

(* ===================================================================== *)
(** ** [int(s)] and [int(s, 16)] *)
(* ===================================================================== *)

Module PyInt.
Import Py.

(** Value of a character as a digit in bases up to 36. *)
Definition digit_value (c : ascii) : option nat :=
  if in_range 48 57 c then Some (ord c - 48)
  else if in_range 97 122 c then Some (ord c - 87)
  else if in_range 65 90 c then Some (ord c - 55)
  else None.

(** The C-level [isspace] used while scanning the literal. *)
Definition c_isspace (c : ascii) : bool := in_range 9 13 c || (ord c =? 32).

(** Before scanning, non-ASCII white space (133 and 160 in this range) is
    turned into a blank; every other character is scanned as it is. *)
Definition to_ascii_space (c : ascii) : ascii :=
  if (ord c =? 133) || (ord c =? 160) then " "%char else c.

Fixpoint lstrip (s : str) : str :=
  match s with
  | c :: s' => if c_isspace c then lstrip s' else s
  | [] => []
  end.

(** Scan digits and single underscores between them. [prev_us] tells that
    the previous character was an underscore, [acc] is the value so far and
    [n] the number of digits read. [None]: two underscores in a row or a
    trailing underscore. *)
Fixpoint scan_digits (base : nat) (s : str) (prev_us : bool) (acc : Z) (n : nat)
  : option (Z * nat * str) :=
  let stop := if prev_us then None else Some (acc, n, s) in
  match s with
  | [] => stop
  | c :: s' =>
      if ch_eqb c "_"%char then
        if prev_us then None else scan_digits base s' true acc n
      else
        match digit_value c with
        | Some v =>
            if v <? base
            then scan_digits base s' false (acc * Z.of_nat base + Z.of_nat v)%Z (S n)
            else stop
        | None => stop
        end
  end.

(** [int(s, base)] for base 10 or 16: [None] stands for [ValueError]. *)
Definition int (base : nat) (s : str) : option Z :=
  let s1 := lstrip (map to_ascii_space s) in
  let '(neg, s2) :=
    match s1 with
    | c :: r => if ch_eqb c "+"%char then (false, r)
                else if ch_eqb c "-"%char then (true, r)
                else (false, s1)
    | [] => (false, s1)
    end in
  let s3 :=
    if base =? 16 then
      match s2 with
      | z :: x :: r =>
          if ch_eqb z "0"%char && (ch_eqb x "x"%char || ch_eqb x "X"%char)
          then match r with
               | u :: r' => if ch_eqb u "_"%char then r' else r
               | [] => r
               end
          else s2
      | _ => s2
      end
    else s2 in
  match s3 with
  | u :: _ =>
      if ch_eqb u "_"%char then None
      else
        match scan_digits base s3 false 0%Z 0 with
        | Some (v, n, rest) =>
            if n =? 0 then None
            else match lstrip rest with
                 | [] => Some (if neg then (- v)%Z else v)
                 | _ :: _ => None
                 end
        | None => None
        end
  | [] => None
  end.

End PyInt.

(* ===================================================================== *)
(** ** The validators of the built-in pattern matchers *)
(* ===================================================================== *)

(** [redactors/email.py] *)
Module EmailRedactor.
Import Py.

Definition validate (text : str) : bool :=
  if negb (contains (s2l "@") text) then false
  else
    match split (s2l "@") text with
    | [local_part; domain] =>
        if (length local_part =? 0) || (64 <? length local_part) then false
        else if (length domain =? 0) || negb (contains (s2l ".") domain) then false
        else true
    | _ => false
    end.

End EmailRedactor.

(** [redactors/phone.py] *)
Module PhoneRedactor.
Import Py.

Definition validate (text : str) : bool :=
  let digits := strip_non_digits text in
  (length digits =? 10) || (length digits =? 11).

End PhoneRedactor.

(** [redactors/ssn.py] *)
Module SSNRedactor.
Import Py.

(** The three [int] calls read slices of a string of decimal digits, on
    which [int] never raises (lemma [int_decimal_total] below); the last
    branch stands for that [ValueError]. *)
Definition validate (text : str) : bool :=
  let digits := strip_non_digits text in
  if negb (length digits =? 9) then false
  else
    match PyInt.int 10 (slice_to digits 3),
          PyInt.int 10 (slice digits 3 5),
          PyInt.int 10 (slice digits 5 9) with
    | Some area, Some group, Some serial =>
        if (area =? 0)%Z || (area =? 666)%Z || (900 <=? area)%Z then false
        else if (group =? 0)%Z then false
        else if (serial =? 0)%Z then false
        else true
    | _, _, _ => false
    end.

End SSNRedactor.

(** [redactors/credit_card.py] *)
Module CreditCardRedactor.
Import Py.

(** [digits_of(n)] on a string: [[int(d) for d in str(n)]]. A character
    on which [int] raises makes the whole comprehension raise. *)
Fixpoint digits_of (n : str) : option (list Z) :=
  match n with
  | [] => Some []
  | d :: n' =>
      match PyInt.int 10 [d], digits_of n' with
      | Some v, Some vs => Some (v :: vs)
      | _, _ => None
      end
  end.

(** [digits_of(d * 2)] on an integer below 100: the digits of its decimal
    representation. *)
Definition digits_of_int (n : Z) : list Z :=
  if (n <? 10)%Z then [n] else [(n / 10)%Z; (n mod 10)%Z].

Definition sum (l : list Z) : Z := fold_left Z.add l 0%Z.

(** Every other element, from the first: [l[0::2]]. *)
Fixpoint every_other (l : list Z) : list Z :=
  match l with
  | x :: _ :: r => x :: every_other r
  | [x] => [x]
  | [] => []
  end.

(** [digits[-1::-2]] and [digits[-2::-2]]. *)
Definition odd_digits (digits : list Z) : list Z := every_other (rev digits).
Definition even_digits (digits : list Z) : list Z := every_other (tl (rev digits)).

Definition luhn_checksum (card_number : str) : option Z :=
  match digits_of card_number with
  | Some digits =>
      let checksum := sum (odd_digits digits) in
      let checksum :=
        fold_left (fun acc d => (acc + sum (digits_of_int (d * 2)))%Z)
                  (even_digits digits) checksum in
      Some (checksum mod 10)%Z
  | None => None
  end.

Definition validate (text : str) : bool :=
  let digits := strip_non_digits text in
  if (length digits <? 13) || (19 <? length digits) then false
  else
    match luhn_checksum digits with
    | Some c => (c =? 0)%Z
    | None => false
    end.

End CreditCardRedactor.

(** [redactors/bank_account.py] *)
Module BankAccountRedactor.
Import Py.

(** [len(set(digits))] *)
Definition len_set (s : str) : nat := length (nodup ascii_dec s).

Definition validate (text : str) : bool :=
  let digits := strip_non_digits text in
  if (length digits <? 8) || (17 <? length digits) then false
  else if len_set digits =? 1 then false
  else true.

End BankAccountRedactor.

(** [redactors/ip_address.py] *)
Module IPAddressRedactor.
Import Py.

(** The loop over the parts: [false] as soon as a part is out of range or
    [int] raises. *)
Fixpoint ipv4_parts_ok (parts : list str) : bool :=
  match parts with
  | [] => true
  | part :: rest =>
      match PyInt.int 10 part with
      | Some num =>
          if (num <? 0)%Z || (255 <? num)%Z then false else ipv4_parts_ok rest
      | None => false
      end
  end.

Definition _validate_ipv4 (text : str) : bool :=
  let parts := split (s2l ".") text in
  if negb (length parts =? 4) then false
  else ipv4_parts_ok parts.

Fixpoint ipv6_groups_ok (parts : list str) : bool :=
  match parts with
  | [] => true
  | part :: rest =>
      if length part =? 0 then ipv6_groups_ok rest
      else
        match PyInt.int 16 part with
        | Some _ => if 4 <? length part then false else ipv6_groups_ok rest
        | None => false
        end
  end.

Definition _validate_ipv6 (text : str) : bool :=
  let shape_ok :=
    if contains (s2l "::") text
    then negb (2 <? length (split (s2l "::") text))
    else length (split (s2l ":") text) =? 8 in
  if negb shape_ok then false
  else ipv6_groups_ok (split (s2l ":") (replace (s2l "::") (s2l ":") text)).

Definition validate (text : str) : bool :=
  if _validate_ipv4 text then true
  else if _validate_ipv6 text then true
  else false.

End IPAddressRedactor.

(** [redactors/passport.py] *)
Module PassportRedactor.
Import Py.

Definition validate (text : str) : bool :=
  let clean_text := replace (s2l " ") [] text in
  if (length clean_text <? 6) || (9 <? length clean_text) then false
  else
    let has_letter := existsb isalpha_c clean_text in
    let all_digits := isdigit clean_text in
    if negb (has_letter || all_digits) then false
    else if negb (isalnum clean_text) then false
    else true.

End PassportRedactor.

(* ===================================================================== *)
(** ** Regular expressions: [re.compile(p).finditer(text)] *)
(* ===================================================================== *)

(** The patterns of the built-in matchers use character classes, greedy
    bounded repetition, greedy [+] and [{2,}] over a character class,
    optional groups, alternation and [\b].  The matcher below is a
    backtracking matcher with the priorities of Python's [re]: the first
    alternative first, the longest repetition first. *)
Module Regex.
Import Py.

Inductive regex : Type :=
| Cls (p : ascii -> bool)          (* one character of a class *)
| Eps                              (* the empty pattern *)
| Seq (r1 r2 : regex)
| Alt (r1 r2 : regex)              (* r1|r2, r1 tried first *)
| StarCls (p : ascii -> bool)      (* [class]*, greedy *)
| WordB.                           (* \b *)

(** [\w] on [str] patterns: alphanumeric or underscore. *)
Definition is_word (c : ascii) : bool := isalnum_c c || ch_eqb c "_"%char.

Definition is_word_opt (c : option ascii) : bool :=
  match c with Some x => is_word x | None => false end.

(** [\b]: exactly one of the two neighbours is a word character. *)
Definition at_boundary (prev : option ascii) (s : str) : bool :=
  xorb (is_word_opt prev) (is_word_opt (hd_error s)).

(** The continuation of a match: previous character, rest of the input and
    position reached; it answers the end position of the whole match. *)
Definition cont := option ascii -> str -> nat -> option nat.

(** Greedy run over a class: take one more character if possible and fall
    back to stopping here when the continuation fails further on. *)
Fixpoint star_run (p : ascii -> bool) (k : cont)
  (prev : option ascii) (s : str) (pos : nat) : option nat :=
  match s with
  | c :: s' =>
      if p c then
        match star_run p k (Some c) s' (S pos) with
        | Some e => Some e
        | None => k prev s pos
        end
      else k prev s pos
  | [] => k prev s pos
  end.

Fixpoint rmatch (r : regex) (k : cont)
  (prev : option ascii) (s : str) (pos : nat) : option nat :=
  match r with
  | Cls p =>
      match s with
      | c :: s' => if p c then k (Some c) s' (S pos) else None
      | [] => None
      end
  | Eps => k prev s pos
  | Seq r1 r2 => rmatch r1 (rmatch r2 k) prev s pos
  | Alt r1 r2 =>
      match rmatch r1 k prev s pos with
      | Some e => Some e
      | None => rmatch r2 k prev s pos
      end
  | StarCls p => star_run p k prev s pos
  | WordB => if at_boundary prev s then k prev s pos else None
  end.

(** The end of a search: a match is refused when it ends where the search
    began and the previous match was empty there ([must_advance]). *)
Definition accept (must_advance : bool) (start0 : nat) : cont :=
  fun _ _ e => if must_advance && (e =? start0) then None else Some e.

(** [search]: the first start position, from [pos] on, with a match. *)
Fixpoint search_at (r : regex) (k : cont)
  (prev : option ascii) (s : str) (pos : nat) : option (nat * nat) :=
  match rmatch r k prev s pos with
  | Some e => Some (pos, e)
  | None =>
      match s with
      | [] => None
      | c :: s' => search_at r k (Some c) s' (S pos)
      end
  end.

Definition prev_at (text : str) (pos : nat) : option ascii :=
  match pos with
  | O => None
  | S p => nth_error text p
  end.

Definition search (r : regex) (text : str) (pos : nat) (must_advance : bool)
  : option (nat * nat) :=
  search_at r (accept must_advance pos) (prev_at text pos) (skipn pos text) pos.

(** [finditer]: the spans [(start, end)] of the successive matches. Every
    round either moves the search position forward or turns [must_advance]
    on, so [2 * len(text) + 3] rounds are enough. *)
Fixpoint finditer_aux (fuel : nat) (r : regex) (text : str)
  (pos : nat) (must_advance : bool) : list (nat * nat) :=
  match fuel with
  | O => []
  | S fuel' =>
      if length text <? pos then []
      else
        match search r text pos must_advance with
        | None => []
        | Some (b, e) => (b, e) :: finditer_aux fuel' r text e (e =? b)
        end
  end.

Definition finditer (r : regex) (text : str) : list (nat * nat) :=
  finditer_aux (2 * length text + 3) r text 0 false.

(** *** Derived forms *)

Definition Opt (r : regex) : regex := Alt r Eps.            (* r? *)
Definition Plus (p : ascii -> bool) : regex := Seq (Cls p) (StarCls p).

Fixpoint seqs (rs : list regex) : regex :=
  match rs with
  | [] => Eps
  | [r] => r
  | r :: rs' => Seq r (seqs rs')
  end.

Fixpoint alts (rs : list regex) : regex :=
  match rs with
  | [] => Eps
  | [r] => r
  | r :: rs' => Alt r (alts rs')
  end.

(** [r{0,n}], greedy. *)
Fixpoint upto (n : nat) (r : regex) : regex :=
  match n with
  | O => Eps
  | S n' => Opt (Seq r (upto n' r))
  end.

(** [r{m}] followed by [tail]. *)
Fixpoint times_then (m : nat) (r tail : regex) : regex :=
  match m with
  | O => tail
  | S m' => Seq r (times_then m' r tail)
  end.

(** [r{m,n}] and [r{m}]. *)
Definition range (m n : nat) (r : regex) : regex := times_then m r (upto (n - m) r).
Definition times (m : nat) (r : regex) : regex := times_then m r Eps.

(** *** Character classes of the built-in patterns *)

Definition lit (c : ascii) : regex := Cls (ch_eqb c).
Definition one_of (cs : str) (c : ascii) : bool := existsb (ch_eqb c) cs.
Definition az_upper (c : ascii) : bool := in_range 65 90 c.
Definition az_lower (c : ascii) : bool := in_range 97 122 c.
Definition d (c : ascii) : bool := isdecimal_c c.                    (* \d *)
Definition s_ (c : ascii) : bool := isspace_c c.                     (* \s *)
Definition dash_space (c : ascii) : bool := ch_eqb c "-"%char || s_ c.      (* [-\s] *)
Definition dash_dot_space (c : ascii) : bool :=                        (* [-.\s] *)
  ch_eqb c "-"%char || ch_eqb c "."%char || s_ c.
Definition hex (c : ascii) : bool :=                                   (* [0-9a-fA-F] *)
  d c || in_range 97 102 c || in_range 65 70 c.
Definition email_local (c : ascii) : bool :=                           (* [A-Za-z0-9._%+-] *)
  az_upper c || az_lower c || d c || one_of (s2l "._%+-") c.
Definition email_domain (c : ascii) : bool :=                          (* [A-Za-z0-9.-] *)
  az_upper c || az_lower c || d c || one_of (s2l ".-") c.
Definition email_tld (c : ascii) : bool :=                             (* [A-Z|a-z] *)
  az_upper c || ch_eqb c "|"%char || az_lower c.
Definition upper_digit (c : ascii) : bool := az_upper c || d c.        (* [A-Z0-9] *)

End Regex.

(** The patterns returned by [get_pattern] of each built-in matcher. *)
Module Patterns.
Import Py Regex.

(** [\b[A-Za-z0-9._%+-]+@[A-Za-z0-9.-]+\.[A-Z|a-z]{2,}\b] *)
Definition email : regex :=
  seqs [WordB; Plus email_local; lit "@"; Plus email_domain; lit ".";
        Cls email_tld; Cls email_tld; StarCls email_tld; WordB].

(** [(?:\+?1[-.\s]?)?\(?\d{3}\)?[-.\s]?\d{3}[-.\s]?\d{4}\b] *)
Definition phone : regex :=
  seqs [Opt (seqs [Opt (lit "+"); lit "1"; Opt (Cls dash_dot_space)]);
        Opt (lit "("); times 3 (Cls d); Opt (lit ")"); Opt (Cls dash_dot_space);
        times 3 (Cls d); Opt (Cls dash_dot_space); times 4 (Cls d); WordB].

(** [\b\d{3}[-\s]?\d{2}[-\s]?\d{4}\b] *)
Definition ssn : regex :=
  seqs [WordB; times 3 (Cls d); Opt (Cls dash_space); times 2 (Cls d);
        Opt (Cls dash_space); times 4 (Cls d); WordB].

(** [\b\d{4}[-\s]?\d{4}[-\s]?\d{4}[-\s]?\d{4}\b] *)
Definition credit_card : regex :=
  seqs [WordB; times 4 (Cls d); Opt (Cls dash_space); times 4 (Cls d);
        Opt (Cls dash_space); times 4 (Cls d); Opt (Cls dash_space);
        times 4 (Cls d); WordB].

(** [\b\d{4}[-\s]?\d{4}[-\s]?\d{2,9}\b|\b\d{8,17}\b] *)
Definition bank_account : regex :=
  Alt (seqs [WordB; times 4 (Cls d); Opt (Cls dash_space); times 4 (Cls d);
             Opt (Cls dash_space); range 2 9 (Cls d); WordB])
      (seqs [WordB; range 8 17 (Cls d); WordB]).

(** [\b(?:\d{1,3}\.){3}\d{1,3}\b] *)
Definition ipv4_pattern : regex :=
  seqs [WordB; times 3 (Seq (range 1 3 (Cls d)) (lit ".")); range 1 3 (Cls d); WordB].

Definition hex_group : regex := Seq (range 1 4 (Cls hex)) (lit ":").

(** [\b(?:[0-9a-fA-F]{1,4}:){7}[0-9a-fA-F]{1,4}\b
     |\b(?:[0-9a-fA-F]{1,4}:){1,7}:\b
     |\b(?:[0-9a-fA-F]{1,4}:){1,6}:[0-9a-fA-F]{1,4}\b] *)
Definition ipv6_pattern : regex :=
  alts [seqs [WordB; times 7 hex_group; range 1 4 (Cls hex); WordB];
        seqs [WordB; range 1 7 hex_group; lit ":"; WordB];
        seqs [WordB; range 1 6 hex_group; lit ":"; range 1 4 (Cls hex); WordB]].

(** [(ipv4)|(ipv6)] *)
Definition ip_address : regex := Alt ipv4_pattern ipv6_pattern.

(** [\b[A-Z]{1,2}\d{6,9}\b|\b\d{9}\b|\b[A-Z0-9]{6,9}\b] *)
Definition passport : regex :=
  alts [seqs [WordB; range 1 2 (Cls az_upper); range 6 9 (Cls d); WordB];
        seqs [WordB; times 9 (Cls d); WordB];
        seqs [WordB; range 6 9 (Cls upper_digit); WordB]].

End Patterns.

(* ===================================================================== *)
(** ** [hashlib.sha256(s.encode()).hexdigest()] *)
(* ===================================================================== *)

(** SHA-256 as in FIPS 180-4, on 32-bit words kept in [Z] with the
    wrap-around written out. *)
Module Sha256.
Import Py.
Local Open Scope Z_scope.

Definition w32 (x : Z) : Z := x mod 2 ^ 32.
Definition add32 (x y : Z) : Z := w32 (x + y).
Definition rotr (n x : Z) : Z := Z.lor (Z.shiftr x n) (w32 (Z.shiftl x (32 - n))).
Definition not32 (x : Z) : Z := 2 ^ 32 - 1 - x.

Definition Ch (x y z : Z) : Z := Z.lxor (Z.land x y) (Z.land (not32 x) z).
Definition Maj (x y z : Z) : Z :=
  Z.lxor (Z.lxor (Z.land x y) (Z.land x z)) (Z.land y z).
Definition Sigma0 (x : Z) : Z := Z.lxor (Z.lxor (rotr 2 x) (rotr 13 x)) (rotr 22 x).
Definition Sigma1 (x : Z) : Z := Z.lxor (Z.lxor (rotr 6 x) (rotr 11 x)) (rotr 25 x).
Definition sigma0 (x : Z) : Z := Z.lxor (Z.lxor (rotr 7 x) (rotr 18 x)) (Z.shiftr x 3).
Definition sigma1 (x : Z) : Z := Z.lxor (Z.lxor (rotr 17 x) (rotr 19 x)) (Z.shiftr x 10).

Definition primes64 : list Z :=
  [2; 3; 5; 7; 11; 13; 17; 19; 23; 29; 31; 37; 41; 43; 47; 53;
   59; 61; 67; 71; 73; 79; 83; 89; 97; 101; 103; 107; 109; 113; 127; 131;
   137; 139; 149; 151; 157; 163; 167; 173; 179; 181; 191; 193; 197; 199; 211; 223;
   227; 229; 233; 239; 241; 251; 257; 263; 269; 271; 277; 281; 283; 293; 307; 311].

(** Integer cube root, one bit at a time from bit [bits - 1] down. *)
Fixpoint icbrt_bits (bits : nat) (n r : Z) : Z :=
  match bits with
  | O => r
  | S b =>
      let c := r + 2 ^ Z.of_nat b in
      icbrt_bits b n (if c * c * c <=? n then c else r)
  end.

(** The round constants: the first 32 bits of the fractional parts of the
    cube roots of the first 64 primes; the initial hash value: the same of
    the square roots of the first 8 primes. *)
Definition K : list Z :=
  Eval vm_compute in map (fun p => w32 (icbrt_bits 40 (p * 2 ^ 96) 0)) primes64.
Definition H0 : list Z :=
  Eval vm_compute in map (fun p => w32 (Z.sqrt (p * 2 ^ 64))) (firstn 8 primes64).

(** [str.encode()]: UTF-8, one byte below 128 and two bytes from 128 to 255. *)
Definition encode_c (c : ascii) : list Z :=
  let n := Z.of_nat (ord c) in
  if n <? 128 then [n] else [Z.lor 192 (Z.shiftr n 6); Z.lor 128 (Z.land n 63)].
Definition encode (s : str) : list Z := flat_map encode_c s.

(** Padding: a [0x80] byte, zeros up to 56 modulo 64, the bit length on 8 bytes. *)
Definition be_bytes (k : nat) (x : Z) : list Z :=
  map (fun i => Z.land (Z.shiftr x (8 * Z.of_nat i)) 255) (rev (seq 0 k)).
Definition pad (msg : list Z) : list Z :=
  let l := length msg in
  let zeros := ((64 + 55 - l mod 64) mod 64)%nat in
  msg ++ [128] ++ repeat 0 zeros ++ be_bytes 8 (8 * Z.of_nat l).

Fixpoint words_of (fuel : nat) (bytes : list Z) : list Z :=
  match fuel, bytes with
  | S f, a :: b :: c :: e :: rest =>
      (Z.shiftl a 24 + Z.shiftl b 16 + Z.shiftl c 8 + e) :: words_of f rest
  | _, _ => []
  end.

(** The message schedule, extended word by word from 16 to 64 entries. *)
Fixpoint schedule (n : nat) (w : list Z) : list Z :=
  match n with
  | O => w
  | S n' =>
      let t := length w in
      let g i := nth (t - i) w 0 in
      schedule n' (w ++ [add32 (add32 (sigma1 (g 2%nat)) (g 7%nat))
                               (add32 (sigma0 (g 15%nat)) (g 16%nat))])
  end.

Record regs := { ra : Z; rb : Z; rc : Z; rd : Z; re : Z; rf : Z; rg : Z; rh : Z }.

Definition round (s : regs) (kw : Z * Z) : regs :=
  let t1 := add32 (add32 (add32 (rh s) (Sigma1 (re s)))
                         (add32 (Ch (re s) (rf s) (rg s)) (fst kw))) (snd kw) in
  let t2 := add32 (Sigma0 (ra s)) (Maj (ra s) (rb s) (rc s)) in
  {| ra := add32 t1 t2; rb := ra s; rc := rb s; rd := rc s;
     re := add32 (rd s) t1; rf := re s; rg := rf s; rh := rg s |}.

Definition regs_of (h : list Z) : regs :=
  let g i := nth i h 0 in
  {| ra := g 0%nat; rb := g 1%nat; rc := g 2%nat; rd := g 3%nat;
     re := g 4%nat; rf := g 5%nat; rg := g 6%nat; rh := g 7%nat |}.
Definition list_of (s : regs) : list Z :=
  [ra s; rb s; rc s; rd s; re s; rf s; rg s; rh s].

Definition compress (h : list Z) (block : list Z) : list Z :=
  let w := schedule 48 (words_of 16 block) in
  let s := fold_left round (combine K w) (regs_of h) in
  map (fun p => add32 (fst p) (snd p)) (combine h (list_of s)).

Fixpoint blocks (fuel : nat) (h : list Z) (bytes : list Z) : list Z :=
  match fuel with
  | O => h
  | S f =>
      match bytes with
      | [] => h
      | _ => blocks f (compress h (firstn 64 bytes)) (skipn 64 bytes)
      end
  end.

Definition digest_words (msg : list Z) : list Z :=
  let p := pad msg in blocks (length p) H0 p.

Definition hex_digit (n : Z) : ascii :=
  if n <? 10 then chr (Z.to_nat (48 + n)) else chr (Z.to_nat (87 + n)).
Definition hex_word (x : Z) : str :=
  map (fun i => hex_digit (Z.land (Z.shiftr x (4 * Z.of_nat i)) 15)) (rev (seq 0 8)).

(** [hashlib.sha256(s.encode()).hexdigest()] *)
Definition hexdigest (s : str) : str := flat_map hex_word (digest_words (encode s)).

End Sha256.

(* ===================================================================== *)
(** ** [base.py]: types, tokens, results and [BaseRedactor] *)
(* ===================================================================== *)

Inductive RedactionType : Type :=
| EMAIL | PHONE | SSN | CREDIT_CARD | BANK_ACCOUNT | IP_ADDRESS | PASSPORT | CUSTOM.

Definition type_value (t : RedactionType) : str :=
  match t with
  | EMAIL => s2l "email"
  | PHONE => s2l "phone"
  | SSN => s2l "ssn"
  | CREDIT_CARD => s2l "credit_card"
  | BANK_ACCOUNT => s2l "bank_account"
  | IP_ADDRESS => s2l "ip_address"
  | PASSPORT => s2l "passport"
  | CUSTOM => s2l "custom"
  end.

Record RedactionToken : Type := {
  token_id : str;
  original_value : str;
  redaction_type : RedactionType;
  start_pos : nat;
  end_pos : nat
}.

Record RedactionResult : Type := {
  redacted_text : str;
  tokens : list RedactionToken
}.

(** Exceptions and results of calls that may raise. *)
Inductive exn : Type :=
| ValueError | ImportError | AttributeError | DetectorError (code : nat).

Inductive res (A : Type) : Type :=
| Ok (a : A)
| Raise (e : exn).
Arguments Ok {A} a.
Arguments Raise {A} e.

Definition bind {A B : Type} (m : res A) (f : A -> res B) : res B :=
  match m with
  | Ok a => f a
  | Raise e => Raise e
  end.

(** [str(n)] for a non-negative integer. *)
Definition str_of_nat (n : nat) : str :=
  s2l (DecimalString.NilZero.string_of_uint (Nat.to_uint n)).

Module BaseRedactor.
Import Py.

(** A matcher: its type, its compiled pattern and its [validate]. *)
Record t : Type := {
  rtype : RedactionType;
  pattern : Regex.regex;
  validate : str -> bool
}.

(** [f"[{type_value.upper()}_{sha256(f"{value}_{position}_{type_value}")[:8]}]"] *)
Definition generate_token_id (ty : RedactionType) (original : str) (position : nat) : str :=
  let unique_str :=
    original ++ s2l "_" ++ str_of_nat position ++ s2l "_" ++ type_value ty in
  s2l "[" ++ upper (type_value ty) ++ s2l "_"
    ++ slice_to (Sha256.hexdigest unique_str) 8 ++ s2l "]".

(** The token built for a validated match. *)
Definition make_token (r : t) (original : str) (offset match_start match_end : nat)
  : RedactionToken :=
  {| token_id := generate_token_id (rtype r) original (offset + match_start);
     original_value := original;
     redaction_type := rtype r;
     start_pos := offset + match_start;
     end_pos := offset + match_end |}.

(** One round of the loop over the reversed matches. *)
Definition redact_step (r : t) (text : str) (offset : nat)
  (st : str * list RedactionToken) (m : nat * nat) : str * list RedactionToken :=
  let '(result, toks) := st in
  let '(match_start, match_end) := m in
  let original := slice text match_start match_end in
  if validate r original then
    let token := make_token r original offset match_start match_end in
    (slice_to result match_start ++ token_id token ++ slice_from result match_end,
     token :: toks)
  else st.

Definition redact (r : t) (text : str) (offset : nat) : str * list RedactionToken :=
  let matches := Regex.finditer (pattern r) text in
  match matches with
  | [] => (text, [])
  | _ => fold_left (redact_step r text offset) (rev matches) (text, [])
  end.

End BaseRedactor.

(** The seven built-in matchers, in the order the service installs them. *)
Module Builtin.

Definition EmailRedactor : BaseRedactor.t :=
  {| BaseRedactor.rtype := EMAIL; BaseRedactor.pattern := Patterns.email;
     BaseRedactor.validate := EmailRedactor.validate |}.
Definition PhoneRedactor : BaseRedactor.t :=
  {| BaseRedactor.rtype := PHONE; BaseRedactor.pattern := Patterns.phone;
     BaseRedactor.validate := PhoneRedactor.validate |}.
Definition SSNRedactor : BaseRedactor.t :=
  {| BaseRedactor.rtype := SSN; BaseRedactor.pattern := Patterns.ssn;
     BaseRedactor.validate := SSNRedactor.validate |}.
Definition CreditCardRedactor : BaseRedactor.t :=
  {| BaseRedactor.rtype := CREDIT_CARD; BaseRedactor.pattern := Patterns.credit_card;
     BaseRedactor.validate := CreditCardRedactor.validate |}.
Definition BankAccountRedactor : BaseRedactor.t :=
  {| BaseRedactor.rtype := BANK_ACCOUNT; BaseRedactor.pattern := Patterns.bank_account;
     BaseRedactor.validate := BankAccountRedactor.validate |}.
Definition IPAddressRedactor : BaseRedactor.t :=
  {| BaseRedactor.rtype := IP_ADDRESS; BaseRedactor.pattern := Patterns.ip_address;
     BaseRedactor.validate := IPAddressRedactor.validate |}.
Definition PassportRedactor : BaseRedactor.t :=
  {| BaseRedactor.rtype := PASSPORT; BaseRedactor.pattern := Patterns.passport;
     BaseRedactor.validate := PassportRedactor.validate |}.

Definition default_redactors : list BaseRedactor.t :=
  [EmailRedactor; PhoneRedactor; SSNRedactor; CreditCardRedactor;
   BankAccountRedactor; IPAddressRedactor; PassportRedactor].

End Builtin.

(* ===================================================================== *)
(** ** [utils/chunking.py]: [TextChunker] *)
(* ===================================================================== *)

Module TextChunker.
Import Py.

(** The [while start < len(text)] loop; [fuel] bounds the number of
    rounds and [None] means that it ran out. *)
Fixpoint chunk_loop (fuel : nat) (chunk_size : nat) (text : str) (start : nat)
  : option (list (str * nat)) :=
  if start <? length text then
    match fuel with
    | O => None
    | S fuel' =>
        let end_ := Nat.min (start + chunk_size) (length text) in
        let end_ :=
          if end_ <? length text then
            let last_space := rfind " "%char text start end_ in
            if (Z.of_nat start <? last_space)%Z
            then Z.to_nat (last_space + 1)
            else end_
          else end_ in
        match chunk_loop fuel' chunk_size text end_ with
        | Some rest => Some ((slice text start end_, start) :: rest)
        | None => None
        end
    end
  else Some [].

Definition chunk_text_fuel (fuel : nat) (chunk_size : nat) (text : str)
  : option (list (str * nat)) :=
  if length text <=? chunk_size then Some [(text, 0)]
  else chunk_loop fuel chunk_size text 0.

(** With a positive [chunk_size] every round moves [start] forward, so
    [len(text)] rounds are enough (theorem [chunk_text_total]). *)
Definition chunk_text (chunk_size : nat) (text : str) : option (list (str * nat)) :=
  chunk_text_fuel (length text) chunk_size text.

Definition merge_results (chunk_results : list (str * nat * list RedactionToken))
  : str * list RedactionToken :=
  match chunk_results with
  | [] => ([], [])
  | [(chunk, _, toks)] => (chunk, toks)
  | _ =>
      fold_left (fun acc cr =>
                   let '(merged_text, all_tokens) := acc in
                   let '(chunk, _, toks) := cr in
                   (merged_text ++ chunk, all_tokens ++ toks))
                chunk_results ([], [])
  end.

(** [estimate_chunks(text_length)]; [None] stands for the
    [ZeroDivisionError] of [//] when [chunk_size] is 0. *)
Definition estimate_chunks (chunk_size : nat) (text_length : nat) : option nat :=
  if text_length <=? chunk_size then Some 1
  else if chunk_size =? 0 then None
  else Some ((text_length + chunk_size - 1) / chunk_size).

End TextChunker.

(** [sorted(l, key=key, reverse=True)]: stable, so that elements with equal
    keys keep their order. *)
Section SortedReverse.
Variable A : Type.
Variable key : A -> nat.

Fixpoint insert_desc (x : A) (l : list A) : list A :=
  match l with
  | [] => [x]
  | y :: l' => if key y <=? key x then x :: l else y :: insert_desc x l'
  end.

Definition sorted_reverse (l : list A) : list A := fold_right insert_desc [] l.
End SortedReverse.

(* ===================================================================== *)
(** ** [cloud_detectors/azure_text_analytics.py] *)
(* ===================================================================== *)

Module AzureTextAnalyticsPIIDetector.
Import Py.

(** An entity of the response, and the dictionary built from it. *)
Record entity : Type := {
  e_text : str;
  e_category : str;
  e_offset : nat;
  e_length : nat
}.

(** A document of the response: [doc.is_error] or its entities. *)
Inductive document : Type :=
| DocError
| DocEntities (es : list entity).

(** The detector: whether a credential was given, whether the SDK can be
    imported, and the remote call [client.recognize_pii_entities]. *)
Record t : Type := {
  credential : bool;
  sdk_installed : bool;
  recognize_pii_entities : str -> res (list document)
}.

Section WithMd5.
(** [hashlib.md5(s.encode()).hexdigest()] *)
Variable md5_hexdigest : str -> str.

(** [_get_client]: the import and the credential check. *)
Definition _get_client (d : t) : res (str -> res (list document)) :=
  if negb (sdk_installed d) then Raise ImportError
  else if negb (credential d) then Raise ValueError
  else Ok (recognize_pii_entities d).

(** [detect_pii]: the client is obtained outside the [try]; whatever the
    call raises inside it is caught and gives the empty list. *)
Definition detect_pii (d : t) (text : str) : res (list entity) :=
  bind (_get_client d) (fun client =>
    match client text with
    | Ok response =>
        Ok (flat_map (fun doc => match doc with
                                 | DocEntities es => es
                                 | DocError => []
                                 end) response)
    | Raise _ => Ok []
    end).

Definition _map_azure_category (category : str) : RedactionType :=
  if str_eqb category (s2l "Email") then EMAIL
  else if str_eqb category (s2l "PhoneNumber") then PHONE
  else if str_eqb category (s2l "CreditCard") then CREDIT_CARD
  else if str_eqb category (s2l "IPAddress") then IP_ADDRESS
  else if str_eqb category (s2l "SSN") then SSN
  else if str_eqb category (s2l "USSocialSecurityNumber") then SSN
  else CUSTOM.

Definition entity_step (st : str * list RedactionToken) (e : entity)
  : str * list RedactionToken :=
  let '(text, toks) := st in
  let start := e_offset e in
  let end_ := start + e_length e in
  let token_id_hash := slice_to (md5_hexdigest (e_text e ++ str_of_nat start)) 8 in
  let replacement := s2l "[" ++ upper (e_category e) ++ s2l "_" ++ token_id_hash ++ s2l "]" in
  let token := {| token_id := replacement; original_value := e_text e;
                  redaction_type := _map_azure_category (e_category e);
                  start_pos := start; end_pos := end_ |} in
  (slice_to text start ++ replacement ++ slice_from text end_, toks ++ [token]).

Definition _redact_with_entities (text : str) (entities : list entity) : RedactionResult :=
  match entities with
  | [] => {| redacted_text := text; tokens := [] |}
  | _ =>
      let sorted_entities := sorted_reverse e_offset entities in
      let '(text', toks) := fold_left entity_step sorted_entities (text, []) in
      {| redacted_text := text'; tokens := toks |}
  end.

Definition redact (d : t) (text : str) : res RedactionResult :=
  match text with
  | [] => Ok {| redacted_text := []; tokens := [] |}
  | _ => bind (detect_pii d text) (fun entities =>
           Ok (_redact_with_entities text entities))
  end.
End WithMd5.

End AzureTextAnalyticsPIIDetector.

(* ===================================================================== *)
(** ** [service.py]: [RedactionService] *)
(* ===================================================================== *)

Module RedactionService.
Import Py.

(** The configuration of a service. [_cloud_detector] is the [redact]
    method of the detector installed by the constructor, if any. *)
Record t : Type := {
  redactors : list BaseRedactor.t;
  chunk_size : nat;
  parallel : bool;
  async_threshold : nat;
  use_cloud_detection : bool;
  _cloud_detector : option (str -> res RedactionResult)
}.

(** [_token_store]: a dictionary from token id to token, in insertion order. *)
Definition token_store := list (str * RedactionToken).

(** [store[k] = v] *)
Fixpoint store_set (store : token_store) (k : str) (v : RedactionToken) : token_store :=
  match store with
  | [] => [(k, v)]
  | (k', v') :: rest =>
      if str_eqb k' k then (k', v) :: rest else (k', v') :: store_set rest k v
  end.

Definition store_tokens_in (store : token_store) (toks : list RedactionToken) : token_store :=
  fold_left (fun st tok => store_set st (token_id tok) tok) toks store.

(** The loop over the matchers in [_redact_single]: each one works on the
    text the previous one returned. *)
Definition apply_redactors (rs : list BaseRedactor.t) (text : str) (offset : nat)
  : str * list RedactionToken :=
  fold_left (fun acc r =>
               let '(current_text, toks) := acc in
               let '(redacted, new_toks) := BaseRedactor.redact r current_text offset in
               (redacted, toks ++ new_toks))
            rs (text, []).

Definition _redact_single (s : t) (store : token_store)
  (text : str) (offset : nat) (store_tokens : bool)
  : res (RedactionResult * token_store) :=
  let detected :=
    match use_cloud_detection s, _cloud_detector s with
    | true, Some detector => detector text
    | _, _ =>
        let '(current_text, toks) := apply_redactors (redactors s) text offset in
        Ok {| redacted_text := current_text; tokens := toks |}
    end in
  bind detected (fun result =>
    Ok (result, if store_tokens then store_tokens_in store (tokens result) else store)).

(** The chunks one after the other; with [store_tokens = False] the store
    is not touched. The worker pool of the parallel branch places every
    result at the index of its item, so both branches give this list. *)
Fixpoint redact_chunks (s : t) (store : token_store) (chunks : list (str * nat))
  : res (list RedactionResult) :=
  match chunks with
  | [] => Ok []
  | (chunk, offset) :: rest =>
      bind (_redact_single s store chunk offset false) (fun r =>
      bind (redact_chunks s store rest) (fun rs => Ok (fst r :: rs)))
  end.

Definition _merge_chunk_results (chunk_results : list RedactionResult)
  (chunks : list (str * nat)) : RedactionResult :=
  match chunk_results with
  | [] => {| redacted_text := []; tokens := [] |}
  | [r] => r
  | _ =>
      let merge_data :=
        map (fun p => (redacted_text (fst p), snd (snd p), tokens (fst p)))
            (combine chunk_results chunks) in
      let '(merged_text, all_tokens) := TextChunker.merge_results merge_data in
      {| redacted_text := merged_text; tokens := all_tokens |}
  end.

Definition _redact_chunked (s : t) (store : token_store) (text : str) (store_tokens : bool)
  : option (res (RedactionResult * token_store)) :=
  match TextChunker.chunk_text (chunk_size s) text with
  | None => None
  | Some chunks =>
      Some (bind (redact_chunks s store chunks) (fun chunk_results =>
        let merged := _merge_chunk_results chunk_results chunks in
        Ok (merged,
            if store_tokens then store_tokens_in store (tokens merged) else store)))
  end.

(** [redact]. The outer [option] is [None] only when the chunker does not
    terminate ([chunk_size = 0] on a non-empty text). *)
Definition redact (s : t) (store : token_store) (text : str) (store_tokens : bool)
  : option (res (RedactionResult * token_store)) :=
  match text with
  | [] => Some (Ok ({| redacted_text := []; tokens := [] |}, store))
  | _ =>
      if chunk_size s <? length text
      then _redact_chunked s store text store_tokens
      else Some (_redact_single s store text 0 store_tokens)
  end.

(** Where [redact_async] runs the work. *)
Inductive path : Type :=
| ReturnedEmpty       (* the early return on an empty text *)
| Chunked             (* [_redact_chunked_async] *)
| Executor            (* [loop.run_in_executor(None, self._redact_single, ...)] *)
| Inline.             (* [self._redact_single(...)] called directly *)

Definition redact_async_path (s : t) (text : str) : path :=
  match text with
  | [] => ReturnedEmpty
  | _ =>
      if chunk_size s <? length text then Chunked
      else if async_threshold s <? length text then Executor
      else Inline
  end.

(** [redact_async]: the same calls as [redact], on the path chosen above;
    the executor runs [_redact_single] with the same arguments. *)
Definition redact_async (s : t) (store : token_store) (text : str) (store_tokens : bool)
  : option (res (RedactionResult * token_store)) :=
  match redact_async_path s text with
  | ReturnedEmpty => Some (Ok ({| redacted_text := []; tokens := [] |}, store))
  | Chunked => _redact_chunked s store text store_tokens
  | Executor => Some (_redact_single s store text 0 store_tokens)
  | Inline => Some (_redact_single s store text 0 store_tokens)
  end.

(** [unmask(redacted_text, tokens)]; [tokens = None] takes the stored ones. *)
Definition unmask (store : token_store) (redacted : str)
  (toks : option (list RedactionToken)) : str :=
  let toks := match toks with
              | Some l => l
              | None => map snd store
              end in
  match toks with
  | [] => redacted
  | _ =>
      fold_left (fun result tok =>
                   replace_first (token_id tok) (original_value tok) result)
                (sorted_reverse start_pos toks) redacted
  end.

(** [RedactionService()] with the default arguments. *)
Definition default : t :=
  {| redactors := Builtin.default_redactors; chunk_size := 5000; parallel := true;
     async_threshold := 1000; use_cloud_detection := false;
     _cloud_detector := None |}.

End RedactionService.

(* ===================================================================== *)
(** ** Configurations used in the examples *)
(* ===================================================================== *)

(** A service whose threshold is 5 and whose chunk size is 10. *)
Definition threshold5_service : RedactionService.t :=
  {| RedactionService.redactors := Builtin.default_redactors;
     RedactionService.chunk_size := 10;
     RedactionService.parallel := true;
     RedactionService.async_threshold := 5;
     RedactionService.use_cloud_detection := false;
     RedactionService._cloud_detector := None |}.

(** A detector whose remote call always fails, and a service that uses it. *)
Definition failing_detector : AzureTextAnalyticsPIIDetector.t :=
  {| AzureTextAnalyticsPIIDetector.credential := true;
     AzureTextAnalyticsPIIDetector.sdk_installed := true;
     AzureTextAnalyticsPIIDetector.recognize_pii_entities :=
       fun _ => Raise (DetectorError 503) |}.

Definition cloud_service (detector : str -> res RedactionResult) : RedactionService.t :=
  {| RedactionService.redactors := [];
     RedactionService.chunk_size := 5000;
     RedactionService.parallel := true;
     RedactionService.async_threshold := 1000;
     RedactionService.use_cloud_detection := true;
     RedactionService._cloud_detector := Some detector |}.

(* ===================================================================== *)
(** ** What the specification says of the validators *)
(* ===================================================================== *)

(** The definitions of this part follow the words of the specification;
    the theorems compare them with the validators above. *)
Module Spec.
Import Py.

(** The number a string of decimal digits denotes. *)
Definition digit_of_char (c : ascii) : Z := Z.of_nat (ord c - 48).
Definition decimal_value (s : str) : Z :=
  fold_left (fun acc c => (10 * acc + digit_of_char c)%Z) s 0%Z.

(** SSN: nine digits, area not 000, 666 or 900-999, group not 00, serial
    not 0000. *)
Definition ssn_accepts (digits : str) : Prop :=
  length digits = 9
  /\ (let area := decimal_value (slice digits 0 3) in
      area <> 0 /\ area <> 666 /\ ~ (900 <= area <= 999))%Z
  /\ decimal_value (slice digits 3 5) <> 0%Z
  /\ decimal_value (slice digits 5 9) <> 0%Z.

(** Luhn: the sum of the digits, every second digit from the right doubled
    and digit-summed, is 0 modulo 10. *)
Definition digit_sum (n : Z) : Z := (n / 10 + n mod 10)%Z.

Fixpoint luhn_total (from_right : list Z) (second : bool) : Z :=
  match from_right with
  | [] => 0%Z
  | x :: rest =>
      ((if second then digit_sum (2 * x) else x) + luhn_total rest (negb second))%Z
  end.

Definition passes_luhn (digits : str) : Prop :=
  (luhn_total (rev (map digit_of_char digits)) false mod 10 = 0)%Z.

Definition card_accepts (digits : str) : Prop :=
  13 <= length digits <= 19 /\ passes_luhn digits.

End Spec.

(** What the specification says of the IP address validator, and what the
    validator checks. *)
Module IPSpec.
Import Py.

(** A decimal octet: decimal digits denoting a number up to 255. *)
Definition is_decimal_octet (part : str) : bool :=
  negb (length part =? 0) && forallb isdecimal_c part
  && (Spec.decimal_value part <=? 255)%Z.

(** Four dot-separated decimal octets. *)
Definition ipv4_claimed (text : str) : bool :=
  let parts := split (s2l ".") text in
  (length parts =? 4) && forallb is_decimal_octet parts.

(** The colon-separated groups of a text: the non-empty pieces between colons. *)
Definition colon_groups (text : str) : list str :=
  filter (fun g => negb (length g =? 0)) (split (s2l ":") text).

(** At most 2 parts when split on [::], at most 8 colon-separated groups,
    each group at most 4 hex digits. *)
Definition ipv6_claimed (text : str) : bool :=
  (length (split (s2l "::") text) <=? 2)
  && (length (colon_groups text) <=? 8)
  && forallb (fun g => (length g <=? 4) && forallb Regex.hex g) (colon_groups text).

(** What [_validate_ipv4] checks: four parts that [int] reads as 0..255. *)
Definition int_octet (part : str) : Prop :=
  exists n : Z, PyInt.int 10 part = Some n /\ (0 <= n <= 255)%Z.
Definition ipv4_checked (text : str) : Prop :=
  length (split (s2l ".") text) = 4 /\ Forall int_octet (split (s2l ".") text).

(** What [_validate_ipv6] checks: the shape, and every non-empty group read
    by [int(part, 16)] and at most 4 characters long. *)
Definition hex_group_checked (g : str) : Prop :=
  g = [] \/ (length g <= 4 /\ exists n : Z, PyInt.int 16 g = Some n).
Definition ipv6_shape (text : str) : Prop :=
  if contains (s2l "::") text
  then length (split (s2l "::") text) <= 2
  else length (split (s2l ":") text) = 8.
Definition ipv6_checked (text : str) : Prop :=
  ipv6_shape text
  /\ Forall hex_group_checked (split (s2l ":") (replace (s2l "::") (s2l ":") text)).

End IPSpec.

(** What the specification says of the passport validator. *)
Module PassportSpec.
Import Py.

(** The candidate with its spaces removed. *)
Definition clean (text : str) : str := replace (s2l " ") [] text.

(** Alphanumeric with a length between 6 and 9. *)
Definition claimed (text : str) : Prop :=
  isalnum (clean text) = true /\ 6 <= length (clean text) <= 9.

(** A letter somewhere, or digit characters only. *)
Definition letter_or_digits (text : str) : Prop :=
  existsb isalpha_c (clean text) = true \/ isdigit (clean text) = true.

(** Letters and digit characters only: [c.isalpha() or c.isdigit()] holds
    of every character. *)
Definition letters_and_digits (text : str) : Prop :=
  forallb (fun c => isalpha_c c || isdigit_c c) (clean text) = true.

(** Letters and digits of ASCII. *)
Definition ascii_alnum_c (c : ascii) : bool :=
  in_range 65 90 c || in_range 97 122 c || in_range 48 57 c.

End PassportSpec.

(** What the specification says of the chunk boundaries. *)
Module ChunkSpec.
Import Py.

Definition space : ascii := " "%char.

(** The boundary [b] after a segment starting at [start]: it falls right
    after a space, or at the hard limit when the window holds no space. *)
Definition boundary_claimed (chunk_size : nat) (text : str) (seg : str * nat) : Prop :=
  let b := snd seg + length (fst seg) in
  b < length text ->
  nth_error text (b - 1) = Some space
  \/ (b = snd seg + chunk_size /\ ~ In space (slice text (snd seg) b)).

(** The same, the window being taken after its first character. *)
Definition boundary_checked (chunk_size : nat) (text : str) (seg : str * nat) : Prop :=
  let b := snd seg + length (fst seg) in
  b < length text ->
  nth_error text (b - 1) = Some space
  \/ (b = snd seg + chunk_size /\ ~ In space (slice text (S (snd seg)) b)).

(** The end of the segment that starts at [start], as one round of the
    loop of [chunk_text] computes it. *)
Definition next_end (chunk_size : nat) (text : str) (start : nat) : nat :=
  let end_ := Nat.min (start + chunk_size) (length text) in
  if end_ <? length text then
    let last_space := rfind " "%char text start end_ in
    if (Z.of_nat start <? last_space)%Z then Z.to_nat (last_space + 1) else end_
  else end_.

(** A segment is the slice of the text at its offset. *)
Definition is_slice (text : str) (seg : str * nat) : Prop :=
  fst seg = slice text (snd seg) (snd seg + length (fst seg)).

End ChunkSpec.

(* ===================================================================== *)
(** ** Where the token ids sit in a redacted text *)
(* ===================================================================== *)

(** A redacted text seen as a sequence of cells: a character of the
    original text, or a token standing where its original value was.  The
    definitions of this part are not in the source; they state when no match
    runs into a token id put in by an earlier replacement. *)
Module Layout.
Import Py.

Inductive cell : Type :=
| Ch (c : ascii)
| Hole (t : RedactionToken).

Definition red_of (x : cell) : str :=
  match x with Ch c => [c] | Hole t => token_id t end.
Definition orig_of (x : cell) : str :=
  match x with Ch c => [c] | Hole t => original_value t end.
Definition hole_of (x : cell) : list RedactionToken :=
  match x with Ch _ => [] | Hole t => [t] end.

(** The redacted text, the original text and the tokens of a layout. *)
Definition render_red (L : list cell) : str := flat_map red_of L.
Definition render_orig (L : list cell) : str := flat_map orig_of L.
Definition holes (L : list cell) : list RedactionToken := flat_map hole_of L.

(** The next [n] cells are characters: the rest of the layout after them. *)
Fixpoint take_chars (n : nat) (L : list cell) : option (list cell) :=
  match n with
  | O => Some L
  | S n' =>
      match L with
      | Ch _ :: L' => take_chars n' L'
      | _ => None
      end
  end.

(** Put a token over the [len] characters that start at position [ms] of
    the redacted text; [None] when the span starts inside a token id or
    runs over one. *)
Fixpoint place (L : list cell) (ms len : nat) (tok : RedactionToken)
  : option (list cell) :=
  match ms with
  | O =>
      match take_chars len L with
      | Some L' => Some (Hole tok :: L')
      | None => None
      end
  | S ms' =>
      match L with
      | [] => None
      | Ch c :: L' => option_map (cons (Ch c)) (place L' ms' len tok)
      | Hole t :: L' =>
          if length (token_id t) <=? ms
          then option_map (cons (Hole t)) (place L' (ms - length (token_id t)) len tok)
          else None
      end
  end.

(** The loop of [BaseRedactor.redact], followed on the layout. *)
Definition place_step (r : BaseRedactor.t) (text : str) (offset : nat)
  (acc : option (list cell)) (m : nat * nat) : option (list cell) :=
  match acc with
  | None => None
  | Some L =>
      let original := slice text (fst m) (snd m) in
      if BaseRedactor.validate r original
      then place L (fst m) (snd m - fst m)
                 (BaseRedactor.make_token r original offset (fst m) (snd m))
      else Some L
  end.

Definition track_redactor (r : BaseRedactor.t) (offset : nat) (L : list cell)
  : option (list cell) :=
  let text := render_red L in
  fold_left (place_step r text offset)
            (rev (Regex.finditer (BaseRedactor.pattern r) text)) (Some L).

(** The loop over the matchers in [_redact_single]. *)
Definition track_redactors (rs : list BaseRedactor.t) (offset : nat) (L : list cell)
  : option (list cell) :=
  fold_left (fun acc r => match acc with
                          | Some L' => track_redactor r offset L'
                          | None => None
                          end) rs (Some L).

Definition track_single (rs : list BaseRedactor.t) (text : str) (offset : nat)
  : option (list cell) :=
  track_redactors rs offset (map Ch text).

(** The segments of [_redact_chunked], one after the other. *)
Fixpoint track_chunks (rs : list BaseRedactor.t) (chunks : list (str * nat))
  : option (list cell) :=
  match chunks with
  | [] => Some []
  | (chunk, offset) :: rest =>
      match track_single rs chunk offset, track_chunks rs rest with
      | Some L, Some L' => Some (L ++ L')
      | _, _ => None
      end
  end.

(** The layout of [redact(text)]: [Some] when the chunker terminates and
    no validated match touches a token id inserted before it. *)
Definition track (s : RedactionService.t) (text : str) : option (list cell) :=
  if RedactionService.chunk_size s <? length text then
    match TextChunker.chunk_text (RedactionService.chunk_size s) text with
    | Some chunks => track_chunks (RedactionService.redactors s) chunks
    | None => None
    end
  else track_single (RedactionService.redactors s) text 0.

(** A token id in brackets, with no bracket inside. *)
Definition bracketed (id : str) : Prop :=
  exists body : str,
    id = "["%char :: body ++ ["]"%char]
    /\ ~ In "["%char body /\ ~ In "]"%char body.

(** The spans of [finditer]: ordered, disjoint and within the text. *)
Fixpoint spans_ok (lo len : nat) (l : list (nat * nat)) : Prop :=
  match l with
  | [] => True
  | (b, e) :: rest => lo <= b /\ b <= e /\ e <= len /\ spans_ok e len rest
  end.

(** A continuation called at a position of a text of length [total]
    answers an end between that position and the end of the text. *)
Definition cont_within (total : nat) (k : Regex.cont) : Prop :=
  forall prev s pos e,
    pos + length s = total -> k prev s pos = Some e -> pos <= e <= total.

(** Every match found by one of the matchers passes its validator. *)
Definition all_matches_valid (rs : list BaseRedactor.t) (text : str) : bool :=
  forallb (fun r =>
             forallb (fun m => BaseRedactor.validate r (slice text (fst m) (snd m)))
                     (Regex.finditer (BaseRedactor.pattern r) text))
          rs.

End Layout.

(** A text that holds the token id its own e-mail address will be given:
    the id of ['a@b.co'] at position 17, a blank, and the address. *)
Definition self_token_text : str :=
  Eval vm_compute in
    BaseRedactor.generate_token_id EMAIL (s2l "a@b.co") 17 ++ s2l " a@b.co".

(** What can be said of the tokens of one matcher, and of a text in which
    nothing is to be replaced. *)
Module RedactSpec.
Import Py.

(** The spans of a matcher's validated matches in a text, in text order. *)
Definition valid_spans (r : BaseRedactor.t) (text : str) : list (nat * nat) :=
  filter (fun m => BaseRedactor.validate r (slice text (fst m) (snd m)))
         (Regex.finditer (BaseRedactor.pattern r) text).

(** No match of the matcher in the text passes its validator. *)
Definition no_valid_match (r : BaseRedactor.t) (text : str) : bool :=
  match valid_spans r text with [] => true | _ => false end.

(** A token of matcher [r] lies in [text], processed at [offset]: its span,
    shifted back by the offset, holds its original value, which the
    validator accepts, and its id is the one generated for that value at
    that position. *)
Definition token_in_text (r : BaseRedactor.t) (text : str) (offset : nat)
  (t : RedactionToken) : Prop :=
  offset <= start_pos t /\ start_pos t <= end_pos t
  /\ end_pos t <= offset + length text
  /\ original_value t = slice text (start_pos t - offset) (end_pos t - offset)
  /\ BaseRedactor.validate r (original_value t) = true
  /\ redaction_type t = BaseRedactor.rtype r
  /\ token_id t
     = BaseRedactor.generate_token_id (BaseRedactor.rtype r) (original_value t)
                                      (start_pos t).

(** The tokens come in text order, one after the end of the other. *)
Fixpoint in_text_order (lo : nat) (toks : list RedactionToken) : Prop :=
  match toks with
  | [] => True
  | t :: rest => lo <= start_pos t /\ start_pos t <= end_pos t
                 /\ in_text_order (end_pos t) rest
  end.

End RedactSpec.

(** Occurrences of a string in a text, and layouts whose token ids are all
    in brackets. *)
Module Occ.

(** [sub] occurs in [s]. *)
Definition occurs (sub s : str) : Prop :=
  exists a b : str, s = a ++ sub ++ b.

(** Every token id of the layout is in brackets. *)
Definition ids_bracketed (L : list Layout.cell) : Prop :=
  Forall (fun t => Layout.bracketed (token_id t)) (Layout.holes L).

(** The loop of [unmask]: the first occurrence of each token id in turn is
    replaced by the original value. *)
Definition restore (toks : list RedactionToken) (text : str) : str :=
  fold_left (fun result tok =>
               Py.replace_first (token_id tok) (original_value tok) result)
            toks text.

End Occ.

(** Further notions on segments and on the texts a service works on. *)
Module SegmentSpec.
Import Py.

(** The segments follow one another from [start] on without gap or overlap. *)
Fixpoint contiguous (start : nat) (chunks : list (str * nat)) : Prop :=
  match chunks with
  | [] => True
  | seg :: rest => snd seg = start /\ contiguous (start + length (fst seg)) rest
  end.

(** The texts [redact] hands to [_redact_single]: the text itself, or the
    segments of the chunker when it is longer than [chunk_size]. *)
Definition segments (s : RedactionService.t) (text : str) : list str :=
  if RedactionService.chunk_size s <? length text then
    match TextChunker.chunk_text (RedactionService.chunk_size s) text with
    | Some chunks => map fst chunks
    | None => []
    end
  else [text].

(** The span of a token holds its original value in the text. *)
Definition span_holds_value (text : str) (t : RedactionToken) : Prop :=
  start_pos t <= end_pos t /\ end_pos t <= length text
  /\ slice text (start_pos t) (end_pos t) = original_value t.

(** [get_token_map()]: from token id to original value. *)
Definition get_token_map (store : RedactionService.token_store) : list (str * str) :=
  map (fun kv => (fst kv, original_value (snd kv))) store.

End SegmentSpec.

(** The result of the local matchers on one segment. *)
Module ServiceSpec.

Definition local_result (rs : list BaseRedactor.t) (text : str) (offset : nat)
  : RedactionResult :=
  {| redacted_text := fst (RedactionService.apply_redactors rs text offset);
     tokens := snd (RedactionService.apply_redactors rs text offset) |}.

(** No matcher of the list has a validated match in the text. *)
Definition nothing_to_redact (rs : list BaseRedactor.t) (text : str) : Prop :=
  forall r, In r rs -> RedactSpec.no_valid_match r text = true.

(** The keys of the token store, in insertion order. *)
Definition keys (store : RedactionService.token_store) : list str := map fst store.

(** The token the store holds under a key. *)
Fixpoint stored (store : RedactionService.token_store) (k : str)
  : option RedactionToken :=
  match store with
  | [] => None
  | (k', v) :: rest => if Py.str_eqb k' k then Some v else stored rest k
  end.

(** The call works in the calling process: the text is one segment, or the
    service was built with [parallel=False]. *)
Definition in_process (s : RedactionService.t) (text : str) : Prop :=
  RedactionService.parallel s = false
  \/ length text <= RedactionService.chunk_size s.

(** The tokens [unmask] works with. *)
Definition tokens_used (store : RedactionService.token_store)
  (toks : option (list RedactionToken)) : list RedactionToken :=
  match toks with
  | Some l => l
  | None => map snd store
  end.

End ServiceSpec.

(** [batch_redact] of [service.py] on its sequential branch
    ([parallel=False]): [[self.redact(text, store_tokens) for text in texts]].
    The calls share the token store, and a call that raises ends the loop. *)
Module Batch.

Fixpoint batch_redact (s : RedactionService.t) (store : RedactionService.token_store)
  (texts : list str) (store_tokens : bool)
  : option (res (list RedactionResult * RedactionService.token_store)) :=
  match texts with
  | [] => Some (Ok ([], store))
  | text :: rest =>
      match RedactionService.redact s store text store_tokens with
      | None => None
      | Some (Raise e) => Some (Raise e)
      | Some (Ok (r, store1)) =>
          match batch_redact s store1 rest store_tokens with
          | None => None
          | Some (Raise e) => Some (Raise e)
          | Some (Ok (rs, store2)) => Some (Ok (r :: rs, store2))
          end
      end
  end.

End Batch.

(** A service that works in the calling process, ten characters to a
    segment. *)
Definition sequential_service : RedactionService.t :=
  {| RedactionService.redactors := Builtin.default_redactors;
     RedactionService.chunk_size := 10;
     RedactionService.parallel := false;
     RedactionService.async_threshold := 1000;
     RedactionService.use_cloud_detection := false;
     RedactionService._cloud_detector := None |}.

(** A service with the SSN matcher alone, in the calling process. *)
Definition ssn_service : RedactionService.t :=
  {| RedactionService.redactors := [Builtin.SSNRedactor];
     RedactionService.chunk_size := 20;
     RedactionService.parallel := false;
     RedactionService.async_threshold := 1000;
     RedactionService.use_cloud_detection := false;
     RedactionService._cloud_detector := None |}.

(** What the validators of the e-mail and bank account matchers accept. *)
Module EmailSpec.

Definition at_sign : ascii := "@"%char.
Definition dot : ascii := "."%char.

(** One [@], before it 1 to 64 characters, after it a part with a dot. *)
Definition accepts (text : str) : Prop :=
  exists local_part domain : str,
    text = local_part ++ at_sign :: domain
    /\ ~ In at_sign local_part /\ ~ In at_sign domain
    /\ 1 <= length local_part <= 64
    /\ In dot domain.

End EmailSpec.

Module BankSpec.

(** 8 to 17 decimal digits, two of which differ. *)
Definition accepts (text : str) : Prop :=
  let digits := Py.strip_non_digits text in
  8 <= length digits <= 17
  /\ exists a b : ascii, In a digits /\ In b digits /\ a <> b.

End BankSpec.

(** The tokens of the Azure path. *)
Module AzureSpec.

Definition token_data (t : RedactionToken) : str * nat * nat :=
  (original_value t, start_pos t, end_pos t).

Definition entity_data (e : AzureTextAnalyticsPIIDetector.entity) : str * nat * nat :=
  (AzureTextAnalyticsPIIDetector.e_text e,
   AzureTextAnalyticsPIIDetector.e_offset e,
   AzureTextAnalyticsPIIDetector.e_offset e + AzureTextAnalyticsPIIDetector.e_length e).

(** From the last position in the text to the first. *)
Definition descending (toks : list RedactionToken) : Prop :=
  StronglySorted (fun a b => start_pos b <= start_pos a) toks.

(** The detector cannot build its client. *)
Definition unusable (d : AzureTextAnalyticsPIIDetector.t) : Prop :=
  AzureTextAnalyticsPIIDetector.sdk_installed d = false
  \/ AzureTextAnalyticsPIIDetector.credential d = false.

(** The exception [_get_client] raises then. *)
Definition client_error (d : AzureTextAnalyticsPIIDetector.t) : exn :=
  if AzureTextAnalyticsPIIDetector.sdk_installed d then ValueError else ImportError.

End AzureSpec.

(** [generate_token_id] of [base.py] for a matcher whose type is any [Enum]
    member with a [str] value, built-in or custom: the member enters only
    through its value. *)
Module EnumType.

Definition generate_token_id (type_value original : str) (position : nat) : str :=
  let unique_str :=
    original ++ s2l "_" ++ str_of_nat position ++ s2l "_" ++ type_value in
  s2l "[" ++ Py.upper type_value ++ s2l "_"
    ++ Py.slice_to (Sha256.hexdigest unique_str) 8 ++ s2l "]".

(** A value over the ASCII characters, on which [Py.upper] is [str.upper]. *)
Definition plain (type_value : str) : Prop :=
  forallb (fun c => Py.ord c <? 128) type_value = true.

End EnumType.

(* ===================================================================== *)
(** * Properties *)
(* ===================================================================== *)

(** ** The empty text *)

(** C9. [redact] and [redact_async] applied to the empty string return the
    empty redacted text and no token, and the token store they hand back is
    the one they were given, whatever [store_tokens] is. *)
Theorem C9_empty_text_leaves_store :
  forall (s : RedactionService.t) (store : RedactionService.token_store)
         (store_tokens : bool),
    RedactionService.redact s store [] store_tokens
      = Some (Ok ({| redacted_text := []; tokens := [] |}, store))
    /\ RedactionService.redact_async s store [] store_tokens
      = Some (Ok ({| redacted_text := []; tokens := [] |}, store)).
Proof.
  intros s store store_tokens. split; reflexivity.
Qed.

(** ** The path taken by [redact_async] *)

Section AsyncPath.
Import RedactionService.
Variable s : RedactionService.t.
Variable text : str.
Hypothesis nonempty : text <> [].
Hypothesis fits : length text <= chunk_size s.

Lemma async_path_cases :
  redact_async_path s text =
    if async_threshold s <? length text then Executor else Inline.
Proof.
  unfold redact_async_path. destruct text as [|c t]; [congruence|].
  assert (H : (chunk_size s <? length (c :: t)) = false)
    by (apply Nat.ltb_ge; exact fits).
  rewrite H. reflexivity.
Qed.

(** Strictly above the threshold the work goes to the executor. *)
Lemma async_above_threshold :
  async_threshold s < length text -> redact_async_path s text = Executor.
Proof.
  intros H. rewrite async_path_cases.
  apply Nat.ltb_lt in H. rewrite H. reflexivity.
Qed.

(** At the threshold or below it the work runs inline. *)
Lemma async_upto_threshold :
  length text <= async_threshold s -> redact_async_path s text = Inline.
Proof.
  intros H. rewrite async_path_cases.
  apply Nat.ltb_ge in H. rewrite H. reflexivity.
Qed.

(** With a threshold of 0 every non-empty text goes to the executor. *)
Lemma async_threshold_zero :
  async_threshold s = 0 -> redact_async_path s text = Executor.
Proof.
  intros H. apply async_above_threshold. rewrite H.
  destruct text; [congruence | simpl; lia].
Qed.
End AsyncPath.

(** C5. A text whose length equals [async_threshold] is not handed to the
    executor: the test in [redact_async] is [len(text) > async_threshold],
    so the five characters of ['hello'] run inline under a threshold of 5. *)
Theorem C5_at_threshold_runs_inline :
  length (s2l "hello") = RedactionService.async_threshold threshold5_service
  /\ length (s2l "hello") <= RedactionService.chunk_size threshold5_service
  /\ RedactionService.redact_async_path threshold5_service (s2l "hello")
     = RedactionService.Inline.
Proof.
  repeat split. vm_compute. lia.
Qed.

(** ** Failure of the external detector *)

Section DetectorFailure.
Import AzureTextAnalyticsPIIDetector.
Variable md5_hexdigest : str -> str.

Lemma detect_pii_absorbs (d : AzureTextAnalyticsPIIDetector.t) (text : str) (e : exn) :
  _get_client d = Ok (recognize_pii_entities d) ->
  recognize_pii_entities d text = Raise e ->
  detect_pii d text = Ok [].
Proof.
  intros Hc Hr. unfold detect_pii. rewrite Hc. simpl. rewrite Hr. reflexivity.
Qed.

Lemma get_client_ok (d : AzureTextAnalyticsPIIDetector.t) :
  credential d = true -> sdk_installed d = true ->
  _get_client d = Ok (recognize_pii_entities d).
Proof.
  intros Hc Hs. unfold _get_client. rewrite Hc, Hs. reflexivity.
Qed.

Lemma redact_no_entities (d : AzureTextAnalyticsPIIDetector.t) (text : str) :
  detect_pii d text = Ok [] ->
  redact md5_hexdigest d text = Ok {| redacted_text := text; tokens := [] |}.
Proof.
  intros H. unfold redact. destruct text as [|c t]; [reflexivity|].
  rewrite H. reflexivity.
Qed.
End DetectorFailure.

(** C8. When the client has been obtained and the call to the external
    detector raises, [detect_pii] returns the empty list, the detector's
    [redact] returns the text unchanged with no token, and so does the
    service's segment redaction, which returns normally and leaves the
    store as it was. *)
Theorem C8_detector_failure_degrades :
  forall (md5_hexdigest : str -> str) (d : AzureTextAnalyticsPIIDetector.t)
         (s : RedactionService.t) (store : RedactionService.token_store)
         (text : str) (offset : nat) (store_tokens : bool) (e : exn),
    AzureTextAnalyticsPIIDetector.credential d = true ->
    AzureTextAnalyticsPIIDetector.sdk_installed d = true ->
    AzureTextAnalyticsPIIDetector.recognize_pii_entities d text = Raise e ->
    RedactionService.use_cloud_detection s = true ->
    RedactionService._cloud_detector s
      = Some (AzureTextAnalyticsPIIDetector.redact md5_hexdigest d) ->
    AzureTextAnalyticsPIIDetector.detect_pii d text = Ok []
    /\ AzureTextAnalyticsPIIDetector.redact md5_hexdigest d text
       = Ok {| redacted_text := text; tokens := [] |}
    /\ RedactionService._redact_single s store text offset store_tokens
       = Ok ({| redacted_text := text; tokens := [] |}, store).
Proof.
  intros md5 d s store text offset st e Hc Hs Hr Hu Hd.
  assert (Hdet : AzureTextAnalyticsPIIDetector.detect_pii d text = Ok []).
  { eapply detect_pii_absorbs; eauto using get_client_ok. }
  assert (Hred := redact_no_entities md5 Hdet).
  repeat split; auto.
  unfold RedactionService._redact_single. rewrite Hu, Hd, Hred. simpl.
  destruct st; reflexivity.
Qed.

Lemma C8_detector_failure_witness :
  let md5 := fun _ : str => s2l "d41d8cd98f00b204e9800998ecf8427e" in
  let text := s2l "Call John at 555-123-4567" in
  AzureTextAnalyticsPIIDetector.detect_pii failing_detector text = Ok []
  /\ AzureTextAnalyticsPIIDetector.redact md5 failing_detector text
     = Ok {| redacted_text := text; tokens := [] |}
  /\ RedactionService._redact_single
       (cloud_service (AzureTextAnalyticsPIIDetector.redact md5 failing_detector))
       [] text 0 true
     = Ok ({| redacted_text := text; tokens := [] |}, []).
Proof.
  intros md5 text.
  apply (@C8_detector_failure_degrades md5 failing_detector
           (cloud_service (AzureTextAnalyticsPIIDetector.redact md5 failing_detector))
           [] text 0 true (DetectorError 503));
    reflexivity.
Defined.

(** ** Characters and [int] on strings of decimal digits *)

(** Case analysis over the 256 characters. *)
Ltac ascii_cases c :=
  destruct c as [[] [] [] [] [] [] [] []]; vm_compute; try discriminate;
  try (repeat split; reflexivity).

Lemma decimal_char_scan (c : ascii) :
  Py.isdecimal_c c = true ->
  PyInt.to_ascii_space c = c
  /\ PyInt.c_isspace c = false
  /\ Py.ch_eqb c "+"%char = false
  /\ Py.ch_eqb c "-"%char = false
  /\ Py.ch_eqb c "_"%char = false
  /\ PyInt.digit_value c = Some (Py.ord c - 48)
  /\ (Py.ord c - 48 <? 10) = true.
Proof. ascii_cases c. Qed.

Lemma decimal_char_bounds (c : ascii) :
  Py.isdecimal_c c = true -> (0 <= Spec.digit_of_char c <= 9)%Z.
Proof.
  unfold Py.isdecimal_c, Py.in_range, Spec.digit_of_char. intros H.
  apply andb_prop in H as [H1 H2].
  apply Nat.leb_le in H1. apply Nat.leb_le in H2. lia.
Qed.

Lemma strip_non_digits_decimal (text : str) :
  forallb Py.isdecimal_c (Py.strip_non_digits text) = true.
Proof.
  unfold Py.strip_non_digits. apply forallb_forall. intros c Hc.
  apply filter_In in Hc. tauto.
Qed.

Lemma scan_digits_decimal (s : str) :
  forallb Py.isdecimal_c s = true ->
  forall (acc : Z) (n : nat),
    PyInt.scan_digits 10 s false acc n
    = Some (fold_left (fun a c => (10 * a + Spec.digit_of_char c)%Z) s acc,
            n + length s, []).
Proof.
  induction s as [|c s IH]; intros Hall acc n;
    cbn [PyInt.scan_digits fold_left length].
  - rewrite Nat.add_0_r. reflexivity.
  - simpl in Hall. apply andb_prop in Hall as [Hc Hs].
    destruct (decimal_char_scan Hc) as (_ & _ & _ & _ & Hus & Hdv & Hlt).
    rewrite Hus, Hdv, Hlt. rewrite (IH Hs).
    unfold Spec.digit_of_char.
    replace (acc * Z.of_nat 10 + Z.of_nat (Py.ord c - 48))%Z
      with (10 * acc + Z.of_nat (Py.ord c - 48))%Z by lia.
    replace (S n + length s) with (n + S (length s)) by lia.
    reflexivity.
Qed.

(** On a non-empty string of decimal digits [int] does not raise and
    returns the number the digits denote. *)
Lemma int_decimal_total (s : str) :
  s <> [] -> forallb Py.isdecimal_c s = true ->
  PyInt.int 10 s = Some (Spec.decimal_value s).
Proof.
  intros Hne Hall. destruct s as [|c s]; [congruence|].
  assert (Hmap : map PyInt.to_ascii_space (c :: s) = c :: s).
  { clear Hne. induction (c :: s) as [|x l IH]; [reflexivity|].
    simpl in Hall. apply andb_prop in Hall as [Hx Hl]. simpl.
    destruct (decimal_char_scan Hx) as (Hsp & _). rewrite Hsp, (IH Hl). reflexivity. }
  unfold PyInt.int. rewrite Hmap.
  pose proof Hall as Hall'. simpl in Hall'. apply andb_prop in Hall' as [Hc Hs].
  destruct (decimal_char_scan Hc) as (_ & Hspace & Hplus & Hminus & Hus & _).
  cbn [PyInt.lstrip]. rewrite Hspace, Hplus, Hminus.
  cbn [Nat.eqb]. rewrite Hus.
  rewrite (scan_digits_decimal Hall). reflexivity.
Qed.

(** ** The SSN validator *)

Lemma length9 (A : Type) (l : list A) :
  length l = 9 -> exists a b c d e f g h i, l = [a; b; c; d; e; f; g; h; i].
Proof.
  intros H.
  do 9 (destruct l as [|? l]; [discriminate|]).
  destruct l; [|discriminate]. repeat eexists.
Qed.

Lemma ssn_validate_iff (text : str) :
  SSNRedactor.validate text = true <-> Spec.ssn_accepts (Py.strip_non_digits text).
Proof.
  unfold SSNRedactor.validate, Spec.ssn_accepts.
  pose proof (strip_non_digits_decimal text) as Hdec.
  set (digits := Py.strip_non_digits text) in *.
  destruct (length digits =? 9) eqn:Hlen; simpl.
  - apply Nat.eqb_eq in Hlen.
    destruct (length9 Hlen) as (a & b & c & d & e & f & g & h & i & ->).
    simpl in Hdec.
    repeat (apply andb_prop in Hdec as [?Hc Hdec]).
    unfold Py.slice_to, Py.slice. cbn [firstn skipn Nat.sub].
    rewrite !int_decimal_total
      by (try discriminate; cbn [forallb];
          repeat match goal with
                 | H : Py.isdecimal_c _ = true |- _ => rewrite H
                 end; reflexivity).
    unfold Spec.decimal_value. cbn [fold_left].
    repeat match goal with
           | H : Py.isdecimal_c _ = true |- _ => apply decimal_char_bounds in H
           end.
    match goal with
    | |- context [((?x =? 0) || (?x =? 666) || (900 <=? ?x))%Z] =>
        assert (Harea : (0 <= x <= 999)%Z) by lia;
        generalize dependent x; intros area Harea
    end.
    match goal with
    | |- context [if (?x =? 0)%Z then false else if (?y =? 0)%Z then _ else _] =>
        generalize x y; intros group serial
    end.
    destruct (Z.eqb_spec area 0); [simpl; split; [discriminate | tauto]|].
    destruct (Z.eqb_spec area 666); [simpl; split; [discriminate | tauto]|].
    destruct (Z.leb_spec 900 area); [simpl; split; [discriminate | intros Hacc; exfalso; lia]|].
    destruct (Z.eqb_spec group 0); [simpl; split; [discriminate | tauto]|].
    destruct (Z.eqb_spec serial 0); [simpl; split; [discriminate | tauto]|].
    simpl. split; [intros _; repeat split; auto; lia | reflexivity].
  - apply Nat.eqb_neq in Hlen. split; [discriminate | tauto].
Qed.

(** C7. The SSN validator accepts exactly the candidates whose stripped
    digits number nine, whose area is not 000, 666 or 900-999, whose group
    is not 00 and whose serial is not 0000; it accepts ['123-45-6789'] and
    rejects ['000-12-3456'] and ['123-00-4567']. *)
Theorem C7_ssn_validator_exact :
  (forall text : str,
      SSNRedactor.validate text = true
      <-> Spec.ssn_accepts (Py.strip_non_digits text))
  /\ SSNRedactor.validate (s2l "123-45-6789") = true
  /\ SSNRedactor.validate (s2l "000-12-3456") = false
  /\ SSNRedactor.validate (s2l "123-00-4567") = false.
Proof.
  split; [exact ssn_validate_iff|].
  repeat split; vm_compute; reflexivity.
Qed.

(** ** The credit card validator *)

Lemma digits_of_decimal (s : str) :
  forallb Py.isdecimal_c s = true ->
  CreditCardRedactor.digits_of s = Some (map Spec.digit_of_char s).
Proof.
  induction s as [|c s IH]; intros Hall; [reflexivity|].
  simpl in Hall. apply andb_prop in Hall as [Hc Hs].
  cbn [CreditCardRedactor.digits_of map].
  rewrite int_decimal_total by (try discriminate; cbn [forallb]; rewrite Hc; reflexivity).
  rewrite (IH Hs). unfold Spec.decimal_value. cbn [fold_left].
  reflexivity.
Qed.

Lemma fold_add_shift (A : Type) (g : A -> Z) (l : list A) (a : Z) :
  fold_left (fun acc d => (acc + g d)%Z) l a
  = (a + fold_left (fun acc d => (acc + g d)%Z) l 0)%Z.
Proof.
  revert a. induction l as [|x l IH]; intros a; cbn [fold_left]; [lia|].
  rewrite (IH (a + g x)%Z), (IH (0 + g x)%Z). lia.
Qed.

Lemma sum_cons (x : Z) (l : list Z) :
  CreditCardRedactor.sum (x :: l) = (x + CreditCardRedactor.sum l)%Z.
Proof.
  unfold CreditCardRedactor.sum. cbn [fold_left].
  assert (H : forall (m : list Z) (a : Z),
             fold_left Z.add m a = (a + fold_left Z.add m 0)%Z).
  { induction m as [|y m IH]; intros a; cbn [fold_left]; [lia|].
    rewrite (IH (a + y)%Z), (IH (0 + y)%Z). lia. }
  rewrite (H l (0 + x)%Z). lia.
Qed.

Lemma every_other_cons (x : Z) (l : list Z) :
  CreditCardRedactor.every_other (x :: l)
  = x :: CreditCardRedactor.every_other (tl l).
Proof. destruct l; reflexivity. Qed.

Lemma doubled_digit_sum (x : Z) :
  (0 <= x)%Z ->
  CreditCardRedactor.sum (CreditCardRedactor.digits_of_int (x * 2))
  = Spec.digit_sum (2 * x).
Proof.
  intros Hx. unfold CreditCardRedactor.digits_of_int, Spec.digit_sum.
  replace (x * 2)%Z with (2 * x)%Z by lia.
  destruct (Z.ltb_spec (2 * x) 10) as [Hlt|Hge].
  - rewrite sum_cons. unfold CreditCardRedactor.sum. cbn [fold_left].
    rewrite Z.div_small, Z.mod_small by lia. lia.
  - rewrite !sum_cons. unfold CreditCardRedactor.sum. cbn [fold_left]. lia.
Qed.

(** The two slices of the code add up to the total of the specification,
    whichever of the two parities starts. *)
Lemma luhn_slices (l : list Z) :
  (forall x, In x l -> (0 <= x)%Z) ->
  let doubled := fun d => CreditCardRedactor.sum (CreditCardRedactor.digits_of_int (d * 2)) in
  (CreditCardRedactor.sum (CreditCardRedactor.every_other l)
   + fold_left (fun acc d => acc + doubled d) (CreditCardRedactor.every_other (tl l)) 0
   = Spec.luhn_total l false)%Z
  /\ (fold_left (fun acc d => acc + doubled d) (CreditCardRedactor.every_other l) 0
      + CreditCardRedactor.sum (CreditCardRedactor.every_other (tl l))
      = Spec.luhn_total l true)%Z.
Proof.
  intros Hpos doubled. induction l as [|x l IH].
  - split; reflexivity.
  - destruct IH as [IHf IHt]; [intros y Hy; apply Hpos; right; exact Hy|].
    rewrite every_other_cons. cbn [tl Spec.luhn_total negb]. split.
    + rewrite sum_cons. lia.
    + cbn [fold_left]. rewrite fold_add_shift.
      unfold doubled at 1. rewrite doubled_digit_sum by (apply Hpos; left; reflexivity).
      lia.
Qed.

Lemma luhn_checksum_decimal (digits : str) :
  forallb Py.isdecimal_c digits = true ->
  CreditCardRedactor.luhn_checksum digits
  = Some (Spec.luhn_total (rev (map Spec.digit_of_char digits)) false mod 10)%Z.
Proof.
  intros Hall. unfold CreditCardRedactor.luhn_checksum.
  rewrite (digits_of_decimal Hall).
  unfold CreditCardRedactor.odd_digits, CreditCardRedactor.even_digits.
  rewrite fold_add_shift.
  assert (Hpos : forall x, In x (rev (map Spec.digit_of_char digits)) -> (0 <= x)%Z).
  { intros x Hx. apply in_rev in Hx. apply in_map_iff in Hx as (c & <- & Hc).
    rewrite forallb_forall in Hall. apply decimal_char_bounds. auto. }
  destruct (luhn_slices Hpos) as [Hf _]. cbv zeta in Hf. rewrite Hf. reflexivity.
Qed.

Lemma card_validate_iff (text : str) :
  CreditCardRedactor.validate text = true
  <-> Spec.card_accepts (Py.strip_non_digits text).
Proof.
  unfold CreditCardRedactor.validate, Spec.card_accepts, Spec.passes_luhn.
  rewrite (luhn_checksum_decimal (strip_non_digits_decimal text)).
  set (digits := Py.strip_non_digits text).
  destruct (Nat.ltb_spec (length digits) 13) as [H13|H13]; cbn [orb].
  - split; [discriminate | lia].
  - destruct (Nat.ltb_spec 19 (length digits)) as [H19|H19].
    + split; [discriminate | lia].
    + rewrite Z.eqb_eq. split; [intros H; split; [lia | exact H] | tauto].
Qed.

(** C4, as the code has it. The credit card validator accepts exactly the
    candidates whose stripped digits number 13 to 19 and pass the Luhn
    checksum; ['1234567890123456'] is rejected, and so is
    ['4532148803436467'], whose Luhn total is 73. *)
Theorem C4_card_validator_exact :
  (forall text : str,
      CreditCardRedactor.validate text = true
      <-> Spec.card_accepts (Py.strip_non_digits text))
  /\ CreditCardRedactor.validate (s2l "1234567890123456") = false
  /\ CreditCardRedactor.validate (s2l "4532148803436467") = false
  /\ Spec.luhn_total (rev (map Spec.digit_of_char (s2l "4532148803436467"))) false = 73%Z.
Proof.
  split; [exact card_validate_iff|].
  repeat split; vm_compute; reflexivity.
Qed.

(** C4 as stated fails on its own example: ['4532148803436467'] has sixteen
    digits but does not pass the Luhn checksum, and the validator rejects it. *)
Lemma C4_counterexample :
  CreditCardRedactor.validate (s2l "4532148803436467") <> true
  /\ ~ Spec.passes_luhn (s2l "4532148803436467").
Proof.
  split; vm_compute; discriminate.
Qed.

(** ** The passport validator *)

Lemma passport_validate_iff (text : str) :
  PassportRedactor.validate text = true
  <-> PassportSpec.claimed text /\ PassportSpec.letter_or_digits text.
Proof.
  unfold PassportRedactor.validate, PassportSpec.claimed,
    PassportSpec.letter_or_digits, PassportSpec.clean.
  set (c := Py.replace (s2l " ") [] text).
  destruct (Nat.ltb_spec (length c) 6) as [H6|H6]; cbn [orb].
  - split; [discriminate | lia].
  - destruct (Nat.ltb_spec 9 (length c)) as [H9|H9].
    + split; [discriminate | lia].
    + destruct (existsb Py.isalpha_c c) eqn:Hl; destruct (Py.isdigit c) eqn:Hd;
        destruct (Py.isalnum c) eqn:Ha; cbn [orb negb];
        (split;
         [ intros Hv;
           first [ discriminate Hv
                 | split; [split; [reflexivity | lia]
                          | first [left; reflexivity | right; reflexivity]] ]
         | intros [[Ha' Hlen] [Hx|Hx]]; try reflexivity; congruence ]).
Qed.

(** A non-empty string of ASCII letters and digits holds a letter or is
    made of digits only. *)
Lemma ascii_alnum_letter_or_digits (s : str) :
  s <> [] -> forallb PassportSpec.ascii_alnum_c s = true ->
  Py.isalnum s = true
  /\ (existsb Py.isalpha_c s = true \/ Py.isdigit s = true).
Proof.
  intros Hne Hall.
  assert (Hlen : negb (length s =? 0) = true) by (destruct s; [congruence | reflexivity]).
  unfold Py.isalnum, Py.isdigit. rewrite Hlen. cbn [andb]. clear Hne Hlen.
  induction s as [|c s IH]; [split; [reflexivity | right; reflexivity]|].
  cbn [forallb] in Hall. apply andb_prop in Hall as [Hc Hs].
  destruct (IH Hs) as [Ha Hd]. cbn [forallb existsb].
  assert (Hcase : Py.isalnum_c c = true
                  /\ (Py.isalpha_c c = true \/ Py.isdigit_c c = true)).
  { clear - Hc. revert Hc.
    destruct c as [[] [] [] [] [] [] [] []]; vm_compute; intros H;
      try discriminate H; split; auto. }
  destruct Hcase as [Hca Hcd]. rewrite Hca, Ha. split; [reflexivity|].
  destruct Hcd as [Hcl|Hcg]; [left; rewrite Hcl; reflexivity|].
  destruct Hd as [Hl|Hg]; [left; rewrite Hl; apply orb_true_r|].
  right. rewrite Hcg, Hg. reflexivity.
Qed.

Lemma letters_and_digits_alnum (s : str) :
  forallb (fun c => Py.isalpha_c c || Py.isdigit_c c) s = true ->
  forallb Py.isalnum_c s = true
  /\ (existsb Py.isalpha_c s = false -> forallb Py.isdigit_c s = true).
Proof.
  induction s as [|c s IH]; intros H; cbn [forallb existsb] in *.
  - split; reflexivity.
  - apply andb_prop in H as [Hc Hs]. destruct (IH Hs) as [Ha Hd]. rewrite Ha.
    assert (Hn : Py.isalnum_c c = true).
    { unfold Py.isalnum_c.
      destruct (Py.isalpha_c c); [reflexivity|]. cbn [orb] in Hc. rewrite Hc.
      destruct (Py.isdecimal_c c); reflexivity. }
    rewrite Hn. split; [reflexivity|].
    destruct (Py.isalpha_c c); cbn [orb] in *; [discriminate|].
    intros Hno. rewrite Hc, (Hd Hno). reflexivity.
Qed.

(** C10, restricted to what holds. The passport validator returns true for
    every candidate whose space-stripped form is made of letters and digit
    characters and has a length between 6 and 9: such a form is
    alphanumeric, and the test for a letter or digits only never turns it
    down, because without a letter it is made of digits only. *)
Theorem C10_passport_letters_and_digits :
  forall text : str,
    PassportSpec.letters_and_digits text ->
    6 <= length (PassportSpec.clean text) <= 9 ->
    PassportRedactor.validate text = true
    /\ Py.isalnum (PassportSpec.clean text) = true
    /\ (existsb Py.isalpha_c (PassportSpec.clean text) = false ->
        Py.isdigit (PassportSpec.clean text) = true).
Proof.
  intros text Hall Hlen. unfold PassportSpec.letters_and_digits in Hall.
  destruct (letters_and_digits_alnum Hall) as [Ha Hd].
  assert (Hne : negb (length (PassportSpec.clean text) =? 0) = true).
  { destruct (Nat.eqb_spec (length (PassportSpec.clean text)) 0); [lia | reflexivity]. }
  assert (Halnum : Py.isalnum (PassportSpec.clean text) = true).
  { unfold Py.isalnum. rewrite Hne, Ha. reflexivity. }
  assert (Hdig : existsb Py.isalpha_c (PassportSpec.clean text) = false ->
                 Py.isdigit (PassportSpec.clean text) = true).
  { intros Hn. unfold Py.isdigit. rewrite Hne, (Hd Hn). reflexivity. }
  split; [|split; assumption].
  apply passport_validate_iff. split; [split; assumption|].
  unfold PassportSpec.letter_or_digits.
  destruct (existsb Py.isalpha_c (PassportSpec.clean text)) eqn:El;
    [left; reflexivity | right; apply Hdig; reflexivity].
Qed.

Lemma C10_passport_witness :
  PassportRedactor.validate (s2l "AB 123456") = true
  /\ Py.isalnum (PassportSpec.clean (s2l "AB 123456")) = true
  /\ (existsb Py.isalpha_c (PassportSpec.clean (s2l "AB 123456")) = false ->
      Py.isdigit (PassportSpec.clean (s2l "AB 123456")) = true).
Proof.
  apply (@C10_passport_letters_and_digits (s2l "AB 123456")).
  - reflexivity.
  - vm_compute. lia.
Defined.

(** C10 as stated fails on six characters of code 189 (one half): the
    string is alphanumeric, has no letter and is not made of digits, and the
    validator rejects it. *)
Lemma C10_counterexample :
  PassportSpec.claimed (repeat (Py.chr 189) 6)
  /\ PassportRedactor.validate (repeat (Py.chr 189) 6) = false.
Proof.
  split; [split; [reflexivity | vm_compute; lia] | reflexivity].
Qed.

(** ** The IP address validator *)

Lemma ipv4_parts_ok_iff (parts : list str) :
  IPAddressRedactor.ipv4_parts_ok parts = true <-> Forall IPSpec.int_octet parts.
Proof.
  induction parts as [|p parts IH]; cbn [IPAddressRedactor.ipv4_parts_ok].
  - split; [intros _; constructor | reflexivity].
  - destruct (PyInt.int 10 p) as [n|] eqn:Hint.
    + destruct (Z.ltb_spec n 0) as [Hn|Hn]; cbn [orb].
      * split; [discriminate|]. intros H. inversion H as [|? ? [m [Hm Hr]] _]; subst.
        rewrite Hint in Hm. inversion Hm; subst. lia.
      * destruct (Z.ltb_spec 255 n) as [Hn'|Hn'].
        -- split; [discriminate|]. intros H. inversion H as [|? ? [m [Hm Hr]] _]; subst.
           rewrite Hint in Hm. inversion Hm; subst. lia.
        -- rewrite IH. split.
           ++ intros H. constructor; [exists n; split; [exact Hint | lia] | exact H].
           ++ intros H. inversion H; assumption.
    + split; [discriminate|]. intros H. inversion H as [|? ? [m [Hm Hr]] _]; subst.
      rewrite Hint in Hm. discriminate.
Qed.

Lemma validate_ipv4_iff (text : str) :
  IPAddressRedactor._validate_ipv4 text = true <-> IPSpec.ipv4_checked text.
Proof.
  unfold IPAddressRedactor._validate_ipv4, IPSpec.ipv4_checked.
  destruct (Nat.eqb_spec (length (Py.split (s2l ".") text)) 4) as [H4|H4]; cbn [negb].
  - rewrite ipv4_parts_ok_iff. tauto.
  - split; [discriminate | tauto].
Qed.

Lemma ipv6_groups_ok_iff (parts : list str) :
  IPAddressRedactor.ipv6_groups_ok parts = true
  <-> Forall IPSpec.hex_group_checked parts.
Proof.
  induction parts as [|p parts IH]; cbn [IPAddressRedactor.ipv6_groups_ok].
  - split; [intros _; constructor | reflexivity].
  - destruct (Nat.eqb_spec (length p) 0) as [H0|H0].
    + rewrite IH. split.
      * intros H. constructor; [left; destruct p; [reflexivity | discriminate] | exact H].
      * intros H. inversion H; assumption.
    + assert (Hp : p <> []) by (intros ->; apply H0; reflexivity).
      destruct (PyInt.int 16 p) as [n|] eqn:Hint.
      * destruct (Nat.ltb_spec 4 (length p)) as [H4|H4].
        -- split; [discriminate|]. intros H.
           inversion H as [|? ? [He|[Hl _]] _]; subst; [congruence | lia].
        -- rewrite IH. split.
           ++ intros H. constructor; [right; split; [lia | exists n; exact Hint] | exact H].
           ++ intros H. inversion H; assumption.
      * split; [discriminate|]. intros H.
        inversion H as [|? ? [He|[_ [m Hm]]] _]; subst; congruence.
Qed.

Lemma validate_ipv6_iff (text : str) :
  IPAddressRedactor._validate_ipv6 text = true <-> IPSpec.ipv6_checked text.
Proof.
  unfold IPAddressRedactor._validate_ipv6, IPSpec.ipv6_checked, IPSpec.ipv6_shape.
  destruct (Py.contains (s2l "::") text).
  - destruct (Nat.ltb_spec 2 (length (Py.split (s2l "::") text))) as [H|H]; cbn [negb].
    + split; [discriminate | lia].
    + rewrite ipv6_groups_ok_iff. split; [intros; split; [lia | assumption] | tauto].
  - destruct (Nat.eqb_spec (length (Py.split (s2l ":") text)) 8) as [H|H]; cbn [negb].
    + rewrite ipv6_groups_ok_iff. tauto.
    + split; [discriminate | tauto].
Qed.

(** Without an occurrence of [old], [replace] returns its argument. *)
Lemma replace_absent (old new s : str) :
  Py.contains old s = false -> Py.replace old new s = s.
Proof.
  unfold Py.contains, Py.replace. induction s as [|c s IH]; intros H; [reflexivity|].
  cbn [Py.replace_aux]. cbn [Py.find] in H.
  destruct (Py.startswith old (c :: s)); [discriminate|].
  f_equal. apply IH. destruct (Py.find old s); [discriminate | reflexivity].
Qed.

Lemma filter_length_le (A : Type) (f : A -> bool) (l : list A) :
  length (filter f l) <= length l.
Proof.
  induction l as [|x l IH]; cbn [filter]; [lia|]. destruct (f x); simpl; lia.
Qed.

(** C6, as the code has it. The validator returns true exactly for the
    strings that split on ['.'] into four parts each read by [int] as an
    integer in 0..255, or that pass the IPv6 check: at most 2 parts when
    split on ['::'] if ['::'] occurs and exactly 8 colon-separated parts
    otherwise, every non-empty colon-separated group being at most 4
    characters long and read by [int(part, 16)].  Without ['::'] there are
    thus at most 8 groups; with ['::'] their number is not bounded. *)
Theorem C6_ip_validator_checks :
  forall text : str,
    (IPAddressRedactor.validate text = true
     <-> IPSpec.ipv4_checked text \/ IPSpec.ipv6_checked text)
    /\ (IPSpec.ipv6_checked text -> Py.contains (s2l "::") text = false ->
        length (IPSpec.colon_groups text) <= 8
        /\ Forall IPSpec.hex_group_checked (Py.split (s2l ":") text)).
Proof.
  intros text. split.
  - unfold IPAddressRedactor.validate.
    rewrite <- validate_ipv4_iff, <- validate_ipv6_iff.
    destruct (IPAddressRedactor._validate_ipv4 text);
      destruct (IPAddressRedactor._validate_ipv6 text);
      split; auto; intros [H|H]; discriminate.
  - intros [Hshape Hgroups] Hno.
    unfold IPSpec.ipv6_shape in Hshape. rewrite Hno in Hshape.
    rewrite (replace_absent (s2l ":") Hno) in Hgroups. split; [|exact Hgroups].
    unfold IPSpec.colon_groups. rewrite <- Hshape. apply filter_length_le.
Qed.

(** C6 as stated fails on a compressed form with nine groups: the validator
    accepts it, and it is neither four decimal octets nor within the bound
    of 8 groups. *)
Lemma C6_counterexample :
  IPAddressRedactor.validate (s2l "1:2:3:4:5:6:7:8:9::") = true
  /\ IPSpec.ipv4_claimed (s2l "1:2:3:4:5:6:7:8:9::") = false
  /\ IPSpec.ipv6_claimed (s2l "1:2:3:4:5:6:7:8:9::") = false
  /\ length (IPSpec.colon_groups (s2l "1:2:3:4:5:6:7:8:9::")) = 9.
Proof.
  repeat split; vm_compute; reflexivity.
Qed.

(** ** The chunker *)

Lemma rfind_from_spec (c : ascii) (s : str) :
  forall i : nat,
    (Py.rfind_from c s i = (-1)%Z /\ ~ In c s)
    \/ (exists k : nat,
           Py.rfind_from c s i = Z.of_nat (i + k)
           /\ nth_error s k = Some c
           /\ ~ In c (skipn (S k) s)).
Proof.
  induction s as [|x s IH]; intros i; cbn [Py.rfind_from].
  - left. split; [reflexivity | intros []].
  - destruct (IH (S i)) as [[Hr Hn] | (k & Hr & Hk & Hn)].
    + rewrite Hr. cbn [Z.leb Z.compare]. unfold Py.ch_eqb.
      destruct (Ascii.eqb_spec x c) as [->|Hne].
      * right. exists 0. rewrite Nat.add_0_r. repeat split; auto.
      * left. split; [reflexivity | intros [H|H]; [congruence | auto]].
    + rewrite Hr.
      assert (H0 : (0 <=? Z.of_nat (S i + k))%Z = true) by (apply Z.leb_le; lia).
      rewrite H0. right. exists (S k). repeat split; auto; f_equal; lia.
Qed.

Lemma nth_error_slice (text : str) (a b k : nat) :
  k < b - a -> nth_error (Py.slice text a b) k = nth_error text (a + k).
Proof.
  intros Hk. unfold Py.slice.
  rewrite nth_error_firstn.
  destruct (Nat.ltb_spec k (b - a)); [|lia].
  apply nth_error_skipn.
Qed.

Lemma slice_length (text : str) (a b : nat) :
  a <= b -> b <= length text -> length (Py.slice text a b) = b - a.
Proof.
  intros Hab Hb. unfold Py.slice. rewrite length_firstn, length_skipn. lia.
Qed.

Lemma slice_then_skipn (text : str) (a b : nat) :
  a <= b -> Py.slice text a b ++ skipn b text = skipn a text.
Proof.
  intros Hab. unfold Py.slice.
  replace b with ((b - a) + a) at 2 by lia.
  rewrite <- skipn_skipn. apply firstn_skipn.
Qed.

Lemma slice_suffix (text : str) (a b : nat) :
  a < b -> Py.slice text (S a) b = skipn 1 (Py.slice text a b).
Proof.
  intros Hab. unfold Py.slice.
  rewrite skipn_firstn_comm. rewrite skipn_skipn.
  replace (b - a - 1) with (b - S a) by lia. reflexivity.
Qed.

Lemma in_skipn_in (A : Type) (x : A) (n : nat) (l : list A) :
  In x (skipn n l) -> In x l.
Proof.
  intros H. rewrite <- (firstn_skipn n l). apply in_or_app. right. exact H.
Qed.

Section ChunkLoop.
Variable chunk_size : nat.
Variable text : str.
Hypothesis positive : 0 < chunk_size.

Lemma next_end_spec (start : nat) :
  start < length text ->
  start < ChunkSpec.next_end chunk_size text start <= length text
  /\ ChunkSpec.boundary_checked chunk_size text
       (Py.slice text start (ChunkSpec.next_end chunk_size text start), start).
Proof.
  intros Hs. unfold ChunkSpec.next_end.
  set (e0 := Nat.min (start + chunk_size) (length text)).
  assert (He0 : start < e0 <= length text) by (unfold e0; lia).
  assert (Hb : forall e, start < e <= length text ->
                         snd (Py.slice text start e, start)
                         + length (fst (Py.slice text start e, start)) = e).
  { intros e He. cbn [fst snd]. rewrite slice_length by lia. lia. }
  destruct (Nat.ltb_spec e0 (length text)) as [Hlt|Hge].
  - assert (Ee0 : e0 = start + chunk_size) by (unfold e0; lia).
    unfold Py.rfind.
    destruct (rfind_from_spec " "%char (Py.slice text start e0) start)
      as [[Hr Hn] | (k & Hr & Hk & Hn)]; rewrite Hr.
    + destruct (Z.ltb_spec (Z.of_nat start) (-1)) as [Hc|Hc]; [lia|].
      split; [lia|]. unfold ChunkSpec.boundary_checked. rewrite (Hb e0 He0).
      intros _. right. split; [cbn [snd]; lia|]. cbn [snd].
      rewrite slice_suffix by lia. intros Hin. apply Hn.
      eapply in_skipn_in; exact Hin.
    + assert (Hklt : k < e0 - start).
      { assert (Hk' : k < length (Py.slice text start e0))
          by (apply nth_error_Some; congruence).
        rewrite slice_length in Hk'; lia. }
      destruct (Z.ltb_spec (Z.of_nat start) (Z.of_nat (start + k))) as [Hc|Hc].
      * replace (Z.to_nat (Z.of_nat (start + k) + 1)) with (S (start + k)) by lia.
        split; [lia|]. unfold ChunkSpec.boundary_checked.
        rewrite (Hb (S (start + k))) by lia. intros _. left.
        rewrite nth_error_slice in Hk by lia.
        replace (S (start + k) - 1) with (start + k) by lia. exact Hk.
      * assert (k = 0) by lia. subst k.
        split; [lia|]. unfold ChunkSpec.boundary_checked. rewrite (Hb e0 He0).
        intros _. right. split; [cbn [snd]; lia|]. cbn [snd].
        rewrite slice_suffix by lia. exact Hn.
  - split; [lia|]. unfold ChunkSpec.boundary_checked. rewrite (Hb e0 He0). lia.
Qed.

Lemma chunk_loop_unfold (fuel start : nat) :
  start < length text ->
  TextChunker.chunk_loop (S fuel) chunk_size text start
  = match TextChunker.chunk_loop fuel chunk_size text (ChunkSpec.next_end chunk_size text start) with
    | Some rest => Some ((Py.slice text start (ChunkSpec.next_end chunk_size text start), start) :: rest)
    | None => None
    end.
Proof.
  intros Hs. unfold ChunkSpec.next_end. cbn [TextChunker.chunk_loop].
  apply Nat.ltb_lt in Hs. rewrite Hs. reflexivity.
Qed.

Lemma chunk_loop_spec (fuel : nat) :
  forall start : nat,
    start <= length text -> length text - start <= fuel ->
    exists chunks : list (str * nat),
      TextChunker.chunk_loop fuel chunk_size text start = Some chunks
      /\ concat (map fst chunks) = skipn start text
      /\ Forall (ChunkSpec.boundary_checked chunk_size text) chunks
      /\ Forall (ChunkSpec.is_slice text) chunks.
Proof.
  induction fuel as [|fuel IH]; intros start Hle Hfuel.
  - assert (start = length text) by lia. subst start.
    exists []. cbn [TextChunker.chunk_loop]. rewrite Nat.ltb_irrefl.
    rewrite skipn_all. repeat split; constructor.
  - destruct (Nat.eq_dec start (length text)) as [->|Hne].
    + exists []. cbn [TextChunker.chunk_loop]. rewrite Nat.ltb_irrefl.
      rewrite skipn_all. repeat split; constructor.
    + assert (Hs : start < length text) by lia.
      destruct (next_end_spec Hs) as [Hnext Hbound].
      destruct (IH (ChunkSpec.next_end chunk_size text start)) as (rest & Hrest & Hcat & Hall & Hsl); try lia.
      exists ((Py.slice text start (ChunkSpec.next_end chunk_size text start), start) :: rest).
      rewrite (chunk_loop_unfold fuel Hs), Hrest.
      repeat split.
      * cbn [map concat fst]. rewrite Hcat. apply slice_then_skipn. lia.
      * constructor; assumption.
      * constructor; [|assumption].
        unfold ChunkSpec.is_slice. cbn [fst snd].
        rewrite slice_length by lia. f_equal. lia.
Qed.
End ChunkLoop.

(** The chunker terminates on every text when [chunk_size] is positive. *)
Lemma chunk_text_total (chunk_size : nat) (text : str) :
  0 < chunk_size ->
  exists chunks, TextChunker.chunk_text chunk_size text = Some chunks
                 /\ concat (map fst chunks) = text.
Proof.
  intros Hpos. unfold TextChunker.chunk_text, TextChunker.chunk_text_fuel.
  destruct (length text <=? chunk_size).
  - exists [(text, 0)]. split; [reflexivity | apply app_nil_r].
  - destruct (@chunk_loop_spec chunk_size text Hpos (length text) 0)
      as (chunks & Hc & Hcat & _); try lia.
    exists chunks. split; assumption.
Qed.

(** C3, as the code has it. For a text longer than a positive
    [chunk_size], [chunk_text] returns segments that are slices of the text
    at their offsets and whose concatenation is the text; every boundary
    before the end of the text falls right after a space, or at the hard
    [chunk_size] limit when the window holds no space after its first
    character. *)
Theorem C3_chunk_boundaries :
  forall (chunk_size : nat) (text : str),
    0 < chunk_size -> chunk_size < length text ->
    exists chunks : list (str * nat),
      TextChunker.chunk_text chunk_size text = Some chunks
      /\ concat (map fst chunks) = text
      /\ Forall (ChunkSpec.boundary_checked chunk_size text) chunks
      /\ Forall (ChunkSpec.is_slice text) chunks.
Proof.
  intros chunk_size text Hpos Hlong.
  unfold TextChunker.chunk_text, TextChunker.chunk_text_fuel.
  destruct (Nat.leb_spec (length text) chunk_size) as [H|_]; [lia|].
  destruct (@chunk_loop_spec chunk_size text Hpos (length text) 0)
    as (chunks & Hc & Hcat & Hb & Hs); try lia.
  exists chunks. repeat split; assumption.
Qed.

Lemma C3_chunk_boundaries_witness :
  exists chunks : list (str * nat),
    TextChunker.chunk_text 5 (s2l "ab cd efgh ijklmnop q") = Some chunks
    /\ concat (map fst chunks) = s2l "ab cd efgh ijklmnop q"
    /\ Forall (ChunkSpec.boundary_checked 5 (s2l "ab cd efgh ijklmnop q")) chunks
    /\ Forall (ChunkSpec.is_slice (s2l "ab cd efgh ijklmnop q")) chunks.
Proof.
  apply (@C3_chunk_boundaries 5 (s2l "ab cd efgh ijklmnop q")); simpl; lia.
Defined.

(** C3 as stated fails when the only space of a window is its first
    character: with a chunk size of 3 the text [' abcdef'] is cut after
    [' ab'], neither after a space nor in a window without a space. *)
Lemma C3_counterexample :
  TextChunker.chunk_text 3 (s2l " abcdef")
    = Some [(s2l " ab", 0); (s2l "cde", 3); (s2l "f", 6)]
  /\ ~ ChunkSpec.boundary_claimed 3 (s2l " abcdef") (s2l " ab", 0).
Proof.
  split; [reflexivity|].
  unfold ChunkSpec.boundary_claimed. cbn [fst snd]. intros H.
  destruct H as [H|[_ H]].
  - simpl; lia.
  - discriminate H.
  - apply H. left. reflexivity.
Qed.

(** ** Token positions across matchers *)

(** C1. On ['a@b.co 123-45-6789'] the default service replaces the
    address first, and the SSN matcher then runs on the rewritten text: its
    token carries the span [17, 28) of that intermediate text, while the
    original text holds the value at [7, 18) and only ['9'] at [17, 28). *)
Theorem C1_later_matcher_offsets :
  exists (r : RedactionResult) (st : RedactionService.token_store)
         (email ssn : RedactionToken),
    RedactionService.redact RedactionService.default [] (s2l "a@b.co 123-45-6789") true
      = Some (Ok (r, st))
    /\ tokens r = [email; ssn]
    /\ original_value email = s2l "a@b.co"
    /\ (start_pos email, end_pos email) = (0, 6)
    /\ original_value ssn = s2l "123-45-6789"
    /\ (start_pos ssn, end_pos ssn) = (17, 28)
    /\ Py.slice (s2l "a@b.co 123-45-6789") (start_pos ssn) (end_pos ssn) = s2l "9"
    /\ Py.slice (s2l "a@b.co 123-45-6789") 7 18 = original_value ssn.
Proof.
  eexists. eexists. eexists. eexists.
  split; [vm_compute; reflexivity|].
  repeat split.
Qed.

(** ** Unmasking *)

(** C2. On ['386-05-0009 001-12-0159'], two SSNs that pass the validator
    and nothing else that a matcher finds, the default service gives both
    values the id [[SSN_125174aa]]: the ids that [generate_token_id] calls
    unique are the first eight digits of a hash. The store keeps one token
    under that id, so [unmask] with the stored tokens puts the second value
    where the first was and leaves the other id in place; with the tokens
    of the result it swaps the two values. Neither gives the text back. *)
Theorem C2_colliding_ids_not_restored :
  Layout.all_matches_valid Builtin.default_redactors (s2l "386-05-0009 001-12-0159") = true
  /\ exists (r : RedactionResult) (st : RedactionService.token_store)
            (first second : RedactionToken),
      RedactionService.redact RedactionService.default []
        (s2l "386-05-0009 001-12-0159") true = Some (Ok (r, st))
      /\ tokens r = [first; second]
      /\ original_value first = s2l "386-05-0009"
      /\ original_value second = s2l "001-12-0159"
      /\ token_id first = s2l "[SSN_125174aa]"
      /\ token_id second = s2l "[SSN_125174aa]"
      /\ redacted_text r = s2l "[SSN_125174aa] [SSN_125174aa]"
      /\ map fst st = [s2l "[SSN_125174aa]"]
      /\ RedactionService.unmask st (redacted_text r) None
         = s2l "001-12-0159 [SSN_125174aa]"
      /\ RedactionService.unmask st (redacted_text r) (Some (tokens r))
         = s2l "001-12-0159 386-05-0009".
Proof.
  split; [vm_compute; reflexivity|].
  eexists. eexists. eexists. eexists.
  split; [vm_compute; reflexivity|].
  repeat split; vm_compute; reflexivity.
Qed.

(** The round trip also fails on a text that already holds the token id one
    of its own values is given: every match in [self_token_text] is found
    and passes its validator, the redacted text then holds the same id
    twice, and [unmask] restores the first occurrence, which is not the one
    that was put in. *)
Lemma self_token_text_not_restored :
  Layout.all_matches_valid Builtin.default_redactors self_token_text = true
  /\ exists (r : RedactionResult) (st : RedactionService.token_store),
      RedactionService.redact RedactionService.default [] self_token_text true
        = Some (Ok (r, st))
      /\ self_token_text = s2l "[EMAIL_851df24a] a@b.co"
      /\ redacted_text r = s2l "[EMAIL_851df24a] [EMAIL_851df24a]"
      /\ RedactionService.unmask st (redacted_text r) None
         = s2l "a@b.co [EMAIL_851df24a]"
      /\ RedactionService.unmask st (redacted_text r) None <> self_token_text.
Proof.
  split; [vm_compute; reflexivity|].
  eexists. eexists.
  split; [vm_compute; reflexivity|].
  repeat split; try (vm_compute; reflexivity).
  vm_compute. discriminate.
Qed.

(** *** The spans of [finditer] *)

Lemma star_run_within (total : nat) (p : ascii -> bool) (k : Regex.cont) :
  Layout.cont_within total k -> Layout.cont_within total (Regex.star_run p k).
Proof.
  intros Hk prev s. revert prev.
  induction s as [|c s IH]; intros prev pos e Hlen H; cbn [Regex.star_run] in H.
  - eapply Hk; eauto.
  - destruct (p c).
    + destruct (Regex.star_run p k (Some c) s (S pos)) as [e'|] eqn:Hrun.
      * inversion H; subst e'. apply IH in Hrun; [lia | simpl in Hlen; lia].
      * eapply Hk; eauto.
    + eapply Hk; eauto.
Qed.

Lemma rmatch_within (total : nat) (r : Regex.regex) :
  forall k : Regex.cont,
    Layout.cont_within total k -> Layout.cont_within total (Regex.rmatch r k).
Proof.
  induction r as [p| |r1 IH1 r2 IH2|r1 IH1 r2 IH2|p|];
    intros k Hk prev s pos e Hlen H; cbn [Regex.rmatch] in H.
  - destruct s as [|c s]; [discriminate|]. destruct (p c); [|discriminate].
    apply Hk in H; [lia | simpl in Hlen; lia].
  - eapply Hk; eauto.
  - eapply (IH1 (Regex.rmatch r2 k)); eauto.
  - destruct (Regex.rmatch r1 k prev s pos) as [e'|] eqn:H1.
    + inversion H; subst e'. eapply IH1; eauto.
    + eapply IH2; eauto.
  - eapply star_run_within; eauto.
  - destruct (Regex.at_boundary prev s); [|discriminate]. eapply Hk; eauto.
Qed.

Lemma accept_within (total : nat) (must_advance : bool) (start0 : nat) :
  Layout.cont_within total (Regex.accept must_advance start0).
Proof.
  intros prev s pos e Hlen H. unfold Regex.accept in H.
  destruct (must_advance && (pos =? start0)); [discriminate|].
  injection H as <-. lia.
Qed.

Lemma search_at_within (total : nat) (r : Regex.regex) (k : Regex.cont) :
  Layout.cont_within total k ->
  forall s prev pos b e,
    pos + length s = total ->
    Regex.search_at r k prev s pos = Some (b, e) ->
    pos <= b /\ b <= e /\ e <= total.
Proof.
  intros Hk. induction s as [|c s IH]; intros prev pos b e Hlen H;
    cbn [Regex.search_at] in H.
  - destruct (Regex.rmatch r k prev [] pos) as [e'|] eqn:Hm; [|discriminate].
    injection H as <- <-. apply (rmatch_within Hk) in Hm; [lia | exact Hlen].
  - destruct (Regex.rmatch r k prev (c :: s) pos) as [e'|] eqn:Hm.
    + injection H as <- <-. apply (rmatch_within Hk) in Hm; [lia | exact Hlen].
    + apply IH in H; [lia | simpl in Hlen; lia].
Qed.

Lemma finditer_aux_spans (r : Regex.regex) (text : str) (fuel : nat) :
  forall (pos : nat) (must_advance : bool),
    Layout.spans_ok pos (length text)
      (Regex.finditer_aux fuel r text pos must_advance).
Proof.
  induction fuel as [|fuel IH]; intros pos ma; cbn [Regex.finditer_aux]; [exact I|].
  destruct (Nat.ltb_spec (length text) pos) as [Hlt|Hge]; [exact I|].
  destruct (Regex.search r text pos ma) as [[b e]|] eqn:Hs; [|exact I].
  unfold Regex.search in Hs.
  apply (@search_at_within (length text)) in Hs.
  - cbn [Layout.spans_ok]. repeat split; try lia. apply IH.
  - apply accept_within.
  - rewrite length_skipn. lia.
Qed.

Lemma finditer_spans (r : Regex.regex) (text : str) :
  Layout.spans_ok 0 (length text) (Regex.finditer r text).
Proof. apply finditer_aux_spans. Qed.

(** *** Layouts *)

Lemma render_red_app (L1 L2 : list Layout.cell) :
  Layout.render_red (L1 ++ L2) = Layout.render_red L1 ++ Layout.render_red L2.
Proof. apply flat_map_app. Qed.

Lemma render_orig_app (L1 L2 : list Layout.cell) :
  Layout.render_orig (L1 ++ L2) = Layout.render_orig L1 ++ Layout.render_orig L2.
Proof. apply flat_map_app. Qed.

Lemma holes_app (L1 L2 : list Layout.cell) :
  Layout.holes (L1 ++ L2) = Layout.holes L1 ++ Layout.holes L2.
Proof. apply flat_map_app. Qed.

Lemma render_chars (w : str) :
  Layout.render_red (map Layout.Ch w) = w
  /\ Layout.render_orig (map Layout.Ch w) = w
  /\ Layout.holes (map Layout.Ch w) = [].
Proof.
  induction w as [|c w (IH1 & IH2 & IH3)]; [repeat split|].
  cbn [map]. unfold Layout.render_red, Layout.render_orig, Layout.holes in *.
  cbn [flat_map Layout.red_of Layout.orig_of Layout.hole_of app].
  rewrite IH1, IH2, IH3. repeat split.
Qed.

Lemma take_chars_spec (n : nat) :
  forall L L2 : list Layout.cell,
    Layout.take_chars n L = Some L2 ->
    exists w : str, L = map Layout.Ch w ++ L2 /\ length w = n.
Proof.
  induction n as [|n IH]; intros L L2 H; cbn [Layout.take_chars] in H.
  - injection H as <-. exists []. split; reflexivity.
  - destruct L as [|[c|t] L]; try discriminate.
    destruct (IH _ _ H) as (w & -> & Hw).
    exists (c :: w). split; [reflexivity | simpl; lia].
Qed.

Lemma slice_chars (R : str) (ms len : nat) :
  Py.slice R ms (ms + len) = firstn len (skipn ms R).
Proof. unfold Py.slice. f_equal. lia. Qed.

Lemma place_spec (tok : RedactionToken) (len : nat) :
  forall (L : list Layout.cell) (ms : nat) (L2 : list Layout.cell),
    Layout.place L ms len tok = Some L2 ->
    Layout.render_red L2
    = firstn ms (Layout.render_red L) ++ token_id tok
      ++ skipn (ms + len) (Layout.render_red L)
    /\ (original_value tok = Py.slice (Layout.render_red L) ms (ms + len) ->
        Layout.render_orig L2 = Layout.render_orig L)
    /\ Permutation (Layout.holes L2) (tok :: Layout.holes L).
Proof.
  induction L as [|x L IH]; intros ms L2 H.
  - destruct ms as [|ms]; cbn [Layout.place] in H; [|discriminate].
    destruct (Layout.take_chars len []) as [L'|] eqn:Ht; [|discriminate].
    injection H as <-. destruct (take_chars_spec Ht) as (w & Hw & Hlen).
    symmetry in Hw. apply app_eq_nil in Hw as [Hw ->].
    destruct w; [|discriminate]. simpl in Hlen. subst len.
    cbn. rewrite app_nil_r. repeat split; auto.
    intros ->. reflexivity.
  - destruct ms as [|ms]; cbn [Layout.place] in H.
    + destruct (Layout.take_chars len (x :: L)) as [L'|] eqn:Ht; [|discriminate].
      injection H as <-. destruct (take_chars_spec Ht) as (w & Hw & Hlen).
      rewrite Hw. rewrite render_red_app, render_orig_app, holes_app.
      destruct (render_chars w) as (Hr & Ho & Hh). rewrite Hr, Ho, Hh.
      rewrite slice_chars. cbn [firstn skipn Nat.add app].
      rewrite skipn_app, skipn_all2, firstn_app, firstn_all2 by lia.
      replace (len - length w) with 0 by lia. cbn [skipn firstn app].
      rewrite app_nil_r.
      unfold Layout.render_red, Layout.render_orig, Layout.holes.
      cbn [flat_map Layout.red_of Layout.orig_of Layout.hole_of app].
      repeat split; auto. intros ->. reflexivity.
    + destruct x as [c|t].
      * destruct (Layout.place L ms len tok) as [L'|] eqn:Hp; [|discriminate].
        injection H as <-. destruct (IH _ _ Hp) as (Hr & Ho & Hh).
        unfold Layout.render_red, Layout.render_orig, Layout.holes in *.
        cbn [flat_map Layout.red_of Layout.orig_of Layout.hole_of app].
        rewrite Hr. cbn [firstn skipn Nat.add app]. repeat split; auto.
        intros Hv. f_equal. apply Ho. rewrite Hv.
        change (S (ms + len)) with (S ms + len).
        rewrite !slice_chars. reflexivity.
      * destruct (Nat.leb_spec (length (token_id t)) (S ms)) as [Hle|Hgt];
          [|discriminate].
        destruct (Layout.place L (S ms - length (token_id t)) len tok)
          as [L'|] eqn:Hp; [|discriminate].
        injection H as <-. destruct (IH _ _ Hp) as (Hr & Ho & Hh).
        unfold Layout.render_red, Layout.render_orig, Layout.holes in *.
        cbn [flat_map Layout.red_of Layout.orig_of Layout.hole_of].
        set (R := flat_map Layout.red_of L) in *.
        set (n := length (token_id t)) in *.
        assert (E1 : firstn (S ms) (token_id t ++ R)
                     = token_id t ++ firstn (S ms - n) R).
        { rewrite firstn_app. fold n. rewrite firstn_all2 by (fold n; lia).
          reflexivity. }
        assert (E2 : forall k, skipn (S ms + k) (token_id t ++ R)
                               = skipn (S ms - n + k) R).
        { intros k. rewrite skipn_app. fold n.
          rewrite skipn_all2 by (fold n; lia). cbn [app]. f_equal. lia. }
        assert (E3 : skipn (S ms) (token_id t ++ R) = skipn (S ms - n) R).
        { rewrite <- (Nat.add_0_r (S ms)), E2. f_equal. lia. }
        rewrite E1, E2, Hr, <- app_assoc. repeat split; auto.
        -- intros Hv. f_equal. apply Ho. rewrite Hv.
           rewrite !slice_chars, E3. reflexivity.
        -- cbn [app]. rewrite Hh. apply perm_swap.
Qed.

(** *** One matcher on one text *)

Lemma fold_left_rev (A B : Type) (g : B -> A -> B) (l : list A) (a : B) :
  fold_left g (rev l) a = fold_right (fun x acc => g acc x) a l.
Proof.
  induction l as [|x l IH]; [reflexivity|].
  cbn [rev fold_right]. rewrite fold_left_app. cbn [fold_left]. rewrite IH.
  reflexivity.
Qed.

Lemma redact_as_fold_right (r : BaseRedactor.t) (text : str) (offset : nat) :
  BaseRedactor.redact r text offset
  = fold_right (fun m acc => BaseRedactor.redact_step r text offset acc m)
               (text, []) (Regex.finditer (BaseRedactor.pattern r) text).
Proof.
  unfold BaseRedactor.redact.
  destruct (Regex.finditer (BaseRedactor.pattern r) text) as [|m l] eqn:E;
    [reflexivity|].
  apply fold_left_rev.
Qed.

(** The tokens of a matcher are those of its validated matches, in text
    order. *)
Lemma redact_tokens (r : BaseRedactor.t) (text : str) (offset : nat) :
  snd (BaseRedactor.redact r text offset)
  = map (fun m => BaseRedactor.make_token r (Py.slice text (fst m) (snd m))
                                          offset (fst m) (snd m))
        (RedactSpec.valid_spans r text).
Proof.
  rewrite redact_as_fold_right. unfold RedactSpec.valid_spans.
  induction (Regex.finditer (BaseRedactor.pattern r) text) as [|[b e] l IH];
    [reflexivity|].
  cbn [fold_right filter fst snd].
  destruct (fold_right _ _ l) as [result toks] eqn:E. cbn [snd] in IH.
  unfold BaseRedactor.redact_step.
  destruct (BaseRedactor.validate r (Py.slice text b e)); cbn [snd map fst];
    rewrite IH; reflexivity.
Qed.

Lemma spans_ok_filter (f : nat * nat -> bool) (len : nat) (l : list (nat * nat)) :
  forall lo, Layout.spans_ok lo len l -> Layout.spans_ok lo len (filter f l).
Proof.
  induction l as [|[b e] l IH]; intros lo H; [exact I|].
  cbn [Layout.spans_ok] in H. destruct H as (H1 & H2 & H3 & H4).
  assert (Hlo : forall l', Layout.spans_ok e len l' -> Layout.spans_ok lo len l').
  { intros [|[b' e'] l']; cbn [Layout.spans_ok]; [tauto|].
    intros (? & ? & ? & ?). repeat split; auto; lia. }
  cbn [filter]. destruct (f (b, e)).
  - cbn [Layout.spans_ok]. repeat split; auto.
  - apply Hlo. apply IH. exact H4.
Qed.

Lemma valid_spans_ok (r : BaseRedactor.t) (text : str) :
  Layout.spans_ok 0 (length text) (RedactSpec.valid_spans r text)
  /\ Forall (fun m => BaseRedactor.validate r (Py.slice text (fst m) (snd m)) = true)
            (RedactSpec.valid_spans r text).
Proof.
  unfold RedactSpec.valid_spans. split.
  - apply spans_ok_filter. apply finditer_spans.
  - apply Forall_forall. intros m Hm. apply filter_In in Hm. tauto.
Qed.

Lemma make_tokens_in_text (r : BaseRedactor.t) (text : str) (offset : nat) :
  forall (l : list (nat * nat)) (lo : nat),
    Layout.spans_ok lo (length text) l ->
    Forall (fun m => BaseRedactor.validate r (Py.slice text (fst m) (snd m)) = true) l ->
    Forall (RedactSpec.token_in_text r text offset)
      (map (fun m => BaseRedactor.make_token r (Py.slice text (fst m) (snd m))
                       offset (fst m) (snd m)) l)
    /\ RedactSpec.in_text_order (offset + lo)
         (map (fun m => BaseRedactor.make_token r (Py.slice text (fst m) (snd m))
                          offset (fst m) (snd m)) l).
Proof.
  induction l as [|[b e] l IH]; intros lo Hs Hv; [split; [constructor | exact I]|].
  cbn [Layout.spans_ok] in Hs. destruct Hs as (H1 & H2 & H3 & H4).
  inversion Hv as [|? ? Hv1 Hv2]; subst.
  destruct (IH e H4 Hv2) as [IHa IHb]. cbn [map fst snd]. split.
  - constructor; [|exact IHa].
    unfold RedactSpec.token_in_text, BaseRedactor.make_token.
    cbn [start_pos end_pos original_value redaction_type token_id].
    replace (offset + b - offset) with b by lia.
    replace (offset + e - offset) with e by lia.
    cbn [fst snd] in Hv1.
    repeat split; auto; lia.
  - cbn [RedactSpec.in_text_order]. unfold BaseRedactor.make_token at 1 2 3.
    cbn [start_pos end_pos]. repeat split; try lia. exact IHb.
Qed.

Lemma tokens_located (r : BaseRedactor.t) (text : str) (offset : nat) :
  Forall (RedactSpec.token_in_text r text offset)
         (snd (BaseRedactor.redact r text offset))
  /\ RedactSpec.in_text_order offset (snd (BaseRedactor.redact r text offset)).
Proof.
  rewrite redact_tokens.
  destruct (valid_spans_ok r text) as [Hspans Hvalid].
  destruct (make_tokens_in_text offset Hspans Hvalid) as [Ha Hb].
  rewrite Nat.add_0_r in Hb. split; assumption.
Qed.

(** The tokens of one matcher. Every token that [BaseRedactor.redact]
    returns lies in the text it was given: its span, taken back by the
    offset, holds its original value, the validator accepts that value, its
    id is the one generated for that value at that position, and the tokens
    come in text order without overlap. *)
Theorem redact_tokens_in_text :
  forall (r : BaseRedactor.t) (text : str) (offset : nat),
    Forall (RedactSpec.token_in_text r text offset)
           (snd (BaseRedactor.redact r text offset))
    /\ RedactSpec.in_text_order offset (snd (BaseRedactor.redact r text offset)).
Proof. exact tokens_located. Qed.

Lemma filter_nil_all_false (A : Type) (f : A -> bool) (l : list A) :
  filter f l = [] -> forall x, In x l -> f x = false.
Proof.
  induction l as [|y l IH]; intros H x Hx; [destruct Hx|].
  cbn [filter] in H. destruct (f y) eqn:Hy; [discriminate|].
  destruct Hx as [<-|Hx]; [exact Hy | apply IH; assumption].
Qed.

Lemma redact_clean (r : BaseRedactor.t) (text : str) (offset : nat) :
  RedactSpec.no_valid_match r text = true ->
  BaseRedactor.redact r text offset = (text, []).
Proof.
  intros H. rewrite redact_as_fold_right.
  unfold RedactSpec.no_valid_match, RedactSpec.valid_spans in H.
  destruct (filter _ _) as [|m l] eqn:E in H; [clear H | discriminate].
  pose proof (filter_nil_all_false E) as Hall. clear E.
  induction (Regex.finditer (BaseRedactor.pattern r) text) as [|[b e] l IH];
    [reflexivity|].
  cbn [fold_right]. rewrite IH by (intros x Hx; apply Hall; right; exact Hx).
  unfold BaseRedactor.redact_step.
  pose proof (Hall (b, e) (or_introl eq_refl)) as Hbe. cbn [fst snd] in Hbe.
  rewrite Hbe. reflexivity.
Qed.

(** A matcher none of whose matches is validated returns the text as it is,
    with no token: the matches its validator turns down leave no trace. *)
Theorem redact_without_valid_match :
  forall (r : BaseRedactor.t) (text : str) (offset : nat),
    RedactSpec.no_valid_match r text = true ->
    BaseRedactor.redact r text offset = (text, []).
Proof. intros r text offset. apply redact_clean. Qed.

Lemma redact_without_valid_match_witness :
  BaseRedactor.redact Builtin.SSNRedactor (s2l "SSN: 000-12-3456") 0
  = (s2l "SSN: 000-12-3456", []).
Proof.
  apply (@redact_without_valid_match Builtin.SSNRedactor (s2l "SSN: 000-12-3456") 0).
  vm_compute. reflexivity.
Defined.

(** Conversely a matcher that returns no token found no validated match. *)
Lemma redact_no_token_iff (r : BaseRedactor.t) (text : str) (offset : nat) :
  snd (BaseRedactor.redact r text offset) = []
  <-> RedactSpec.no_valid_match r text = true.
Proof.
  rewrite redact_tokens. unfold RedactSpec.no_valid_match.
  destruct (RedactSpec.valid_spans r text); cbn [map]; split;
    try reflexivity; discriminate.
Qed.

(** *** The loop of a matcher, followed on the layout *)

Lemma slice_of_prefix (s t : str) (b e : nat) :
  b <= e -> firstn e s = firstn e t -> Py.slice s b e = Py.slice t b e.
Proof.
  intros Hbe H. unfold Py.slice.
  rewrite !firstn_skipn_comm. replace (b + (e - b)) with e by lia.
  rewrite H. reflexivity.
Qed.

Lemma firstn_prefix_shrink (A : Type) (s t : list A) (lo e : nat) :
  lo <= e -> firstn e s = firstn e t -> firstn lo s = firstn lo t.
Proof.
  intros Hle H.
  assert (Hs : forall u : list A, firstn lo u = firstn lo (firstn e u)).
  { intros u. rewrite firstn_firstn. f_equal. lia. }
  rewrite (Hs s), (Hs t), H. reflexivity.
Qed.

Lemma pass_loop (r : BaseRedactor.t) (text : str) (offset : nat)
  (L0 : list Layout.cell) :
  Layout.render_red L0 = text ->
  forall (l : list (nat * nat)) (lo : nat) (Lf : list Layout.cell),
    Layout.spans_ok lo (length text) l ->
    fold_right (fun m acc => Layout.place_step r text offset acc m) (Some L0) l
      = Some Lf ->
    let st := fold_right (fun m acc => BaseRedactor.redact_step r text offset acc m)
                         (text, []) l in
    fst st = Layout.render_red Lf
    /\ Layout.render_orig Lf = Layout.render_orig L0
    /\ Permutation (Layout.holes Lf) (Layout.holes L0 ++ snd st)
    /\ firstn lo (fst st) = firstn lo text.
Proof.
  intros H0. induction l as [|[b e] l IH]; intros lo Lf Hs Hf; cbn zeta.
  - cbn [fold_right] in *. injection Hf as <-. cbn [fst snd].
    rewrite app_nil_r. repeat split; auto.
  - cbn [Layout.spans_ok] in Hs. destruct Hs as (H1 & H2 & H3 & H4).
    cbn [fold_right] in *.
    destruct (fold_right (fun m acc => Layout.place_step r text offset acc m)
                         (Some L0) l) as [L1|] eqn:E1; [|discriminate].
    specialize (IH e L1 H4 eq_refl). cbn zeta in IH.
    destruct (fold_right (fun m acc => BaseRedactor.redact_step r text offset acc m)
                         (text, []) l) as [result toks] eqn:E2.
    cbn [fst snd] in IH. destruct IH as (IHr & IHo & IHp & IHf).
    unfold Layout.place_step in Hf. cbn [fst snd] in Hf.
    unfold BaseRedactor.redact_step.
    destruct (BaseRedactor.validate r (Py.slice text b e)) eqn:Hv.
    + destruct (place_spec Hf) as (Pr & Po & Pp).
      replace (b + (e - b)) with e in * by lia.
      rewrite <- IHr in Pr, Po. cbn [fst snd].
      unfold Py.slice_to, Py.slice_from.
      assert (Hlen : e <= length result).
      { assert (Hl : length (firstn e result) = length (firstn e text))
          by (rewrite IHf; reflexivity).
        rewrite !length_firstn in Hl. lia. }
      repeat split.
      * symmetry. exact Pr.
      * rewrite <- IHo. apply Po. cbn [BaseRedactor.make_token original_value].
        symmetry. apply slice_of_prefix; assumption.
      * rewrite Pp. rewrite IHp. apply Permutation_middle.
      * rewrite firstn_app, firstn_firstn.
        rewrite length_firstn.
        replace (lo - Nat.min b (length result)) with 0 by lia.
        cbn [firstn]. rewrite app_nil_r.
        replace (Nat.min lo b) with lo by lia.
        eapply firstn_prefix_shrink; [|exact IHf]. lia.
    + injection Hf as <-. cbn [fst snd]. repeat split; auto.
      eapply firstn_prefix_shrink; [|exact IHf]. lia.
Qed.

(** One matcher: what it returns is what the layout shows. *)
Lemma track_redactor_spec (r : BaseRedactor.t) (offset : nat)
  (L L' : list Layout.cell) :
  Layout.track_redactor r offset L = Some L' ->
  BaseRedactor.redact r (Layout.render_red L) offset
    = (Layout.render_red L', snd (BaseRedactor.redact r (Layout.render_red L) offset))
  /\ Layout.render_orig L' = Layout.render_orig L
  /\ Permutation (Layout.holes L')
       (Layout.holes L ++ snd (BaseRedactor.redact r (Layout.render_red L) offset)).
Proof.
  unfold Layout.track_redactor. rewrite fold_left_rev. intros H.
  rewrite redact_as_fold_right.
  destruct (@pass_loop r (Layout.render_red L) offset L eq_refl _ 0 L'
              (finditer_spans _ _) H) as (Hr & Ho & Hp & _).
  destruct (fold_right (fun m acc => BaseRedactor.redact_step r _ offset acc m) _ _)
    as [result toks].
  cbn [fst snd] in *. rewrite Hr. repeat split; assumption.
Qed.

(** *** The shape of the generated token ids *)

Lemma hex_digit_plain (n : Z) :
  (0 <= n < 16)%Z ->
  Sha256.hex_digit n <> "["%char /\ Sha256.hex_digit n <> "]"%char
  /\ Regex.hex (Sha256.hex_digit n) = true.
Proof.
  intros Hn.
  rewrite <- (Z2Nat.id n) by lia.
  assert (Hk : (Z.to_nat n < 16)%nat) by lia.
  revert Hk. generalize (Z.to_nat n) as k. intros k Hk.
  do 16 (destruct k as [|k]; [vm_compute; repeat split; discriminate|]).
  lia.
Qed.

Lemma hexdigest_chars (s : str) (c : ascii) :
  In c (Sha256.hexdigest s) ->
  c <> "["%char /\ c <> "]"%char /\ Regex.hex c = true.
Proof.
  unfold Sha256.hexdigest, Sha256.hex_word. intros H.
  apply in_flat_map in H as (w & _ & H).
  apply in_map_iff in H as (i & <- & _).
  apply hex_digit_plain.
  change 15%Z with (Z.ones 4). rewrite Z.land_ones by lia.
  apply Z.mod_pos_bound. lia.
Qed.

Lemma in_firstn_in (A : Type) (x : A) (n : nat) (l : list A) :
  In x (firstn n l) -> In x l.
Proof.
  intros H. rewrite <- (firstn_skipn n l). apply in_or_app. left. exact H.
Qed.

Lemma type_value_upper_plain (ty : RedactionType) :
  ~ In "["%char (Py.upper (type_value ty))
  /\ ~ In "]"%char (Py.upper (type_value ty)).
Proof.
  destruct ty; vm_compute; split; intros H;
    repeat (destruct H as [H|H]; [discriminate H|]); exact H.
Qed.

(** A generated token id is a bracket, the upper-cased type, an underscore,
    hexadecimal digits and a closing bracket, with no bracket in between. *)
Lemma token_id_bracketed (ty : RedactionType) (original : str) (position : nat) :
  Layout.bracketed (BaseRedactor.generate_token_id ty original position).
Proof.
  unfold Layout.bracketed, BaseRedactor.generate_token_id.
  set (h := Py.slice_to (Sha256.hexdigest _) 8).
  exists (Py.upper (type_value ty) ++ "_"%char :: h).
  destruct (type_value_upper_plain ty) as [Hu1 Hu2].
  assert (Hh : forall c, In c h -> c <> "["%char /\ c <> "]"%char).
  { intros c Hc. unfold h, Py.slice_to in Hc. apply in_firstn_in in Hc.
    apply hexdigest_chars in Hc. tauto. }
  repeat split.
  - change (s2l "[") with ["["%char]. change (s2l "_") with ["_"%char].
    change (s2l "]") with ["]"%char]. cbn [app]. rewrite <- !app_assoc.
    reflexivity.
  - intros H. apply in_app_or in H as [H|[H|H]]; [auto | discriminate H|].
    apply Hh in H. tauto.
  - intros H. apply in_app_or in H as [H|[H|H]]; [auto | discriminate H|].
    apply Hh in H. tauto.
Qed.

(** *** The loop over the matchers, followed on the layout *)

Lemma track_redactors_none (rs : list BaseRedactor.t) (offset : nat) :
  fold_left (fun acc r => match acc with
                          | Some L' => Layout.track_redactor r offset L'
                          | None => None
                          end) rs None = None.
Proof. induction rs as [|r rs IH]; [reflexivity | exact IH]. Qed.

Lemma redact_tokens_bracketed (r : BaseRedactor.t) (text : str) (offset : nat) :
  Forall (fun t => Layout.bracketed (token_id t))
         (snd (BaseRedactor.redact r text offset)).
Proof.
  rewrite redact_tokens. apply Forall_forall. intros t Ht.
  apply in_map_iff in Ht as (m & <- & _). apply token_id_bracketed.
Qed.

Lemma apply_redactors_track (offset : nat) (rs : list BaseRedactor.t) :
  forall (L Lf : list Layout.cell) (toks0 : list RedactionToken),
    Layout.track_redactors rs offset L = Some Lf ->
    exists new : list RedactionToken,
      fold_left (fun acc r =>
                   let '(current_text, toks) := acc in
                   let '(redacted, new_toks) :=
                     BaseRedactor.redact r current_text offset in
                   (redacted, toks ++ new_toks))
                rs (Layout.render_red L, toks0)
        = (Layout.render_red Lf, toks0 ++ new)
      /\ Layout.render_orig Lf = Layout.render_orig L
      /\ Permutation (Layout.holes Lf) (Layout.holes L ++ new)
      /\ Forall (fun t => Layout.bracketed (token_id t)) new.
Proof.
  unfold Layout.track_redactors.
  induction rs as [|r rs IH]; intros L Lf toks0 H; cbn [fold_left] in *.
  - injection H as <-. exists []. rewrite !app_nil_r. repeat split; auto.
  - destruct (Layout.track_redactor r offset L) as [L1|] eqn:E1;
      [|rewrite track_redactors_none in H; discriminate].
    destruct (track_redactor_spec E1) as (Hr & Ho & Hp).
    rewrite Hr.
    destruct (IH L1 Lf (toks0 ++ snd (BaseRedactor.redact r (Layout.render_red L) offset)) H)
      as (new & Hf & Ho' & Hp' & Hb).
    exists (snd (BaseRedactor.redact r (Layout.render_red L) offset) ++ new).
    repeat split.
    + rewrite Hf. rewrite <- app_assoc. reflexivity.
    + rewrite Ho'. exact Ho.
    + rewrite Hp'. rewrite Hp. rewrite <- app_assoc. reflexivity.
    + apply Forall_app. split; [apply redact_tokens_bracketed | exact Hb].
Qed.

(** A segment: what [apply_redactors] returns is what the layout shows. *)
Lemma track_single_spec (rs : list BaseRedactor.t) (text : str) (offset : nat)
  (L : list Layout.cell) :
  Layout.track_single rs text offset = Some L ->
  fst (RedactionService.apply_redactors rs text offset) = Layout.render_red L
  /\ Layout.render_orig L = text
  /\ Permutation (Layout.holes L)
       (snd (RedactionService.apply_redactors rs text offset))
  /\ Forall (fun t => Layout.bracketed (token_id t))
       (snd (RedactionService.apply_redactors rs text offset)).
Proof.
  unfold Layout.track_single, RedactionService.apply_redactors. intros H.
  destruct (render_chars text) as (Hr & Ho & Hh).
  destruct (@apply_redactors_track offset rs _ _ [] H) as (new & Hf & Ho' & Hp & Hb).
  rewrite Hr in Hf. rewrite Hf. cbn [fst snd app].
  rewrite Ho' , Ho. rewrite Hh in Hp. repeat split; auto.
Qed.

(** *** [find] and [replace] on the first occurrence *)

Lemma startswith_app (p b : str) : Py.startswith p (p ++ b) = true.
Proof.
  induction p as [|c p IH]; [reflexivity|].
  cbn [app Py.startswith]. unfold Py.ch_eqb. rewrite Ascii.eqb_refl. exact IH.
Qed.

Lemma startswith_inv (p : str) :
  forall s : str, Py.startswith p s = true -> exists b, s = p ++ b.
Proof.
  induction p as [|c p IH]; intros s H; [exists s; reflexivity|].
  destruct s as [|x s]; [discriminate|]. cbn [Py.startswith] in H.
  apply andb_prop in H as [Hc Hs]. apply Ascii.eqb_eq in Hc. subst x.
  destruct (IH _ Hs) as (b & ->). exists b. reflexivity.
Qed.

Lemma find_eq (sub s : str) :
  Py.find sub s
  = if Py.startswith sub s then Some 0
    else match s with
         | [] => None
         | _ :: s' => option_map S (Py.find sub s')
         end.
Proof. destruct s; reflexivity. Qed.

(** [find] returns the position of the first occurrence. *)
Lemma find_first (sub : str) (a : str) :
  forall (s b : str),
    s = a ++ sub ++ b ->
    (forall a' b', s = a' ++ sub ++ b' -> length a <= length a') ->
    Py.find sub s = Some (length a).
Proof.
  induction a as [|c a IH]; intros s b Hs Hmin; rewrite find_eq.
  - subst s. cbn [app]. rewrite startswith_app. reflexivity.
  - destruct (Py.startswith sub s) eqn:Hst.
    + apply startswith_inv in Hst as (b' & Hb').
      specialize (Hmin [] b' Hb'). simpl in Hmin. lia.
    + subst s. cbn [app]. rewrite (IH (a ++ sub ++ b) b eq_refl).
      * reflexivity.
      * intros a' b' H'.
        assert (Hc : (c :: a) ++ sub ++ b = (c :: a') ++ sub ++ b')
          by (cbn [app]; rewrite H'; reflexivity).
        specialize (Hmin _ _ Hc). simpl in Hmin. lia.
Qed.

Lemma find_none_no_occurrence (sub : str) :
  forall s : str, Py.find sub s = None -> ~ Occ.occurs sub s.
Proof.
  induction s as [|c s IH]; intros H (a & b & Hs); rewrite find_eq in H.
  - destruct a; [|discriminate]. cbn [app] in Hs. rewrite Hs in H.
    rewrite startswith_app in H. discriminate.
  - destruct (Py.startswith sub (c :: s)) eqn:Hst; [discriminate|].
    destruct a as [|x a].
    + cbn [app] in Hs. rewrite Hs, startswith_app in Hst. discriminate.
    + cbn [app] in Hs. injection Hs as _ Hs.
      destruct (Py.find sub s) eqn:Hf; [discriminate|].
      apply IH; [reflexivity | exists a, b; exact Hs].
Qed.

Lemma contains_false_no_occurrence (sub s : str) :
  Py.contains sub s = false -> ~ Occ.occurs sub s.
Proof.
  unfold Py.contains. intros H. apply find_none_no_occurrence.
  destruct (Py.find sub s); [discriminate | reflexivity].
Qed.

Lemma replace_first_at (sub new a b : str) :
  (forall a' b', a ++ sub ++ b = a' ++ sub ++ b' -> length a <= length a') ->
  Py.replace_first sub new (a ++ sub ++ b) = a ++ new ++ b.
Proof.
  intros Hmin. unfold Py.replace_first.
  rewrite (find_first eq_refl Hmin).
  rewrite firstn_app, firstn_all, Nat.sub_diag. cbn [firstn]. rewrite app_nil_r.
  rewrite skipn_app.
  rewrite skipn_all2 by lia.
  replace (length a + length sub - length a) with (length sub) by lia.
  rewrite skipn_app, skipn_all, Nat.sub_diag. reflexivity.
Qed.

Lemma replace_first_absent (sub new s : str) :
  Py.contains sub s = false -> Py.replace_first sub new s = s.
Proof.
  unfold Py.contains, Py.replace_first. destruct (Py.find sub s); [discriminate | reflexivity].
Qed.

(** *** Occurrences of a token id in a layout *)

Lemma split_at_first (x : ascii) (u : str) :
  forall (v p q : str),
    ~ In x u -> ~ In x v -> u ++ x :: p = v ++ x :: q -> u = v.
Proof.
  induction u as [|c u IH]; intros v p q Hu Hv H.
  - destruct v as [|d v]; [reflexivity|].
    cbn [app] in H. injection H as Hx _. exfalso. apply Hv. left. congruence.
  - destruct v as [|d v].
    + cbn [app] in H. injection H as Hx _. exfalso. apply Hu. left. exact Hx.
    + cbn [app] in H. injection H as Hc H. subst d. f_equal.
      apply (IH v p q); auto; intros Hin; [apply Hu | apply Hv]; right; exact Hin.
Qed.

Lemma bracketed_same_start (id1 id2 b1 b2 : str) :
  Layout.bracketed id1 -> Layout.bracketed id2 ->
  id1 ++ b1 = id2 ++ b2 -> id1 = id2.
Proof.
  intros (u & -> & _ & Hu) (v & -> & _ & Hv) H.
  cbn [app] in H. injection H as H. rewrite <- !app_assoc in H. cbn [app] in H.
  rewrite (split_at_first Hu Hv H). reflexivity.
Qed.

Lemma bracketed_nonempty (id : str) : Layout.bracketed id -> id <> [].
Proof. intros (u & -> & _). discriminate. Qed.

Lemma holes_cons_hole (t : RedactionToken) (L : list Layout.cell) :
  Layout.holes (Layout.Hole t :: L) = t :: Layout.holes L.
Proof. reflexivity. Qed.

Lemma holes_cons_ch (c : ascii) (L : list Layout.cell) :
  Layout.holes (Layout.Ch c :: L) = Layout.holes L.
Proof. reflexivity. Qed.

(** Characters free of the opening bracket at the head of a rendered layout
    are characters of the layout itself. *)
Lemma chars_prefix (w : str) :
  forall (L : list Layout.cell) (b : str),
    ~ In "["%char w -> Occ.ids_bracketed L ->
    Layout.render_red L = w ++ b ->
    exists L', L = map Layout.Ch w ++ L' /\ Layout.render_red L' = b.
Proof.
  induction w as [|c w IH]; intros L b Hw HL H; [exists L; split; auto|].
  destruct L as [|[c'|t] L].
  - discriminate.
  - cbn in H. injection H as Hc H. subst c'.
    destruct (IH L b) as (L' & -> & HL'); auto.
    + intros Hin. apply Hw. right. exact Hin.
    + exists L'. split; auto.
  - exfalso. unfold Occ.ids_bracketed in HL. rewrite holes_cons_hole in HL.
    inversion HL as [|? ? (u & Hu & _) _]; subst.
    unfold Layout.render_red in H. cbn [flat_map Layout.red_of] in H.
    rewrite Hu in H. cbn [app] in H. injection H as Hc _.
    apply Hw. left. congruence.
Qed.

Lemma occurs_cons (sub s : str) (c : ascii) :
  Occ.occurs sub s -> Occ.occurs sub (c :: s).
Proof. intros (a & b & ->). exists (c :: a), b. reflexivity. Qed.

Lemma occurs_app_l (sub s p : str) :
  Occ.occurs sub s -> Occ.occurs sub (p ++ s).
Proof.
  intros (a & b & ->). exists (p ++ a), b. rewrite <- app_assoc. reflexivity.
Qed.

(** An occurrence of a bracketed id in a redacted text is either one of the
    token ids of the layout, at its place, or an occurrence in the original
    text. *)
Lemma occ_in_layout (id : str) :
  Layout.bracketed id ->
  forall (L : list Layout.cell) (a b : str),
    Occ.ids_bracketed L ->
    Layout.render_red L = a ++ id ++ b ->
    (exists L1 t L2,
        L = L1 ++ Layout.Hole t :: L2 /\ token_id t = id
        /\ length a = length (Layout.render_red L1))
    \/ Occ.occurs id (Layout.render_orig L).
Proof.
  intros Hid. pose proof Hid as (body & Eid & Hb1 & Hb2).
  induction L as [|x L IH]; intros a b HL H.
  - exfalso. symmetry in H. apply app_eq_nil in H as [_ H].
    apply app_eq_nil in H as [H _]. exact (bracketed_nonempty Hid H).
  - destruct x as [c|t].
    + assert (HL1 : Occ.ids_bracketed L) by exact HL.
      change (Layout.render_red (Layout.Ch c :: L)) with (c :: Layout.render_red L) in H.
      destruct a as [|c' a].
      * right. cbn [app] in H. rewrite Eid in H. cbn [app] in H.
        injection H as Hc H. rewrite <- app_assoc in H.
        destruct (@chars_prefix (body ++ ["]"%char]) L b) as (L' & -> & _); auto.
        { intros Hin. apply in_app_or in Hin as [Hin|[Hin|[]]]; [auto | discriminate]. }
        { rewrite <- app_assoc. exact H. }
        exists [], (Layout.render_orig L').
        change (Layout.render_orig (Layout.Ch c :: map Layout.Ch (body ++ ["]"%char]) ++ L'))
          with (c :: Layout.render_orig (map Layout.Ch (body ++ ["]"%char]) ++ L')).
        rewrite render_orig_app.
        destruct (render_chars (body ++ ["]"%char])) as (_ & Ho & _). rewrite Ho.
        rewrite Eid, Hc. reflexivity.
      * cbn [app] in H. injection H as Hc H. subst c'.
        destruct (IH a b HL1 H) as [(L1 & t & L2 & -> & Ht & Hlen) | Hocc].
        -- left. exists (Layout.Ch c :: L1), t, L2. repeat split; auto.
           change (Layout.render_red (Layout.Ch c :: L1)) with (c :: Layout.render_red L1).
           simpl. lia.
        -- right.
           change (Layout.render_orig (Layout.Ch c :: L)) with (c :: Layout.render_orig L).
           apply occurs_cons. exact Hocc.
    + unfold Occ.ids_bracketed in HL. rewrite holes_cons_hole in HL.
      apply Forall_cons_iff in HL as [Ht HL1].
      change (Layout.render_red (Layout.Hole t :: L))
        with (token_id t ++ Layout.render_red L) in H.
      assert (Hrec : forall l, Layout.render_red L = l ++ id ++ b ->
                a = token_id t ++ l ->
                (exists L1 t0 L2,
                    Layout.Hole t :: L = L1 ++ Layout.Hole t0 :: L2 /\ token_id t0 = id
                    /\ length a = length (Layout.render_red L1))
                \/ Occ.occurs id (Layout.render_orig (Layout.Hole t :: L))).
      { intros l Hl Ha.
        destruct (IH l b HL1 Hl) as [(L1 & t0 & L2 & -> & Ht0 & Hlen) | Hocc].
        - left. exists (Layout.Hole t :: L1), t0, L2. repeat split; auto.
          change (Layout.render_red (Layout.Hole t :: L1))
            with (token_id t ++ Layout.render_red L1).
          rewrite Ha, !length_app. lia.
        - right.
          change (Layout.render_orig (Layout.Hole t :: L))
            with (original_value t ++ Layout.render_orig L).
          apply occurs_app_l. exact Hocc. }
      apply app_eq_app in H as (l & [[Ha Hl] | [Ha Hl]]).
      * (* the id starts inside or at the start of this token id *)
        destruct a as [|c a].
        -- cbn [app] in Ha. subst l. left.
           exists [], t, L. repeat split; auto.
           symmetry. eapply bracketed_same_start; eauto.
        -- destruct l as [|c2 l2].
           ++ rewrite app_nil_r in Ha. cbn [app] in Hl.
              apply (Hrec []); [symmetry; exact Hl | rewrite app_nil_r; symmetry; exact Ha].
           ++ exfalso. destruct Ht as (bt & Et & Hbt1 & _).
              rewrite Et in Ha. cbn [app] in Ha. injection Ha as _ Ha.
              rewrite Eid in Hl. cbn [app] in Hl. injection Hl as Hc2 _.
              assert (Hin : In "["%char (bt ++ ["]"%char])).
              { rewrite Ha. apply in_or_app. right. left. congruence. }
              apply in_app_or in Hin as [Hin|[Hin|[]]]; [auto | discriminate].
      * apply (Hrec l); assumption.
Qed.

(** *** Restoring the tokens of a layout, in any order *)

Lemma decomp_compare (A : Type) (x y : A) (l1 : list A) :
  forall (l1' l2 l2' : list A),
    l1 ++ x :: l2 = l1' ++ y :: l2' ->
    l1 = l1'
    \/ (exists m, l1' = l1 ++ x :: m)
    \/ (exists m, l1 = l1' ++ y :: m).
Proof.
  induction l1 as [|a l1 IH]; intros l1' l2 l2' H.
  - destruct l1' as [|b l1']; [left; reflexivity|].
    right. left. cbn [app] in H. injection H as -> _. exists l1'. reflexivity.
  - destruct l1' as [|b l1'].
    + right. right. cbn [app] in H. injection H as -> _. exists l1. reflexivity.
    + cbn [app] in H. injection H as -> H.
      destruct (IH _ _ _ H) as [->|[(m & ->)|(m & ->)]].
      * left. reflexivity.
      * right. left. exists m. reflexivity.
      * right. right. exists m. reflexivity.
Qed.

Lemma first_hole (id : str) (L : list Layout.cell) :
  (exists t, In t (Layout.holes L) /\ token_id t = id) ->
  exists L1 t L2,
    L = L1 ++ Layout.Hole t :: L2 /\ token_id t = id
    /\ Forall (fun t' => token_id t' <> id) (Layout.holes L1).
Proof.
  induction L as [|[c|t'] L IH]; intros (t & Hin & Ht).
  - destruct Hin.
  - destruct IH as (L1 & t1 & L2 & -> & Ht1 & Hall); [exists t; split; assumption|].
    exists (Layout.Ch c :: L1), t1, L2. repeat split; auto.
  - destruct (list_eq_dec ascii_dec (token_id t') id) as [Heq|Hne].
    + exists [], t', L. repeat split; auto.
    + rewrite holes_cons_hole in Hin. destruct Hin as [->|Hin]; [congruence|].
      destruct IH as (L1 & t1 & L2 & -> & Ht1 & Hall); [exists t; split; assumption|].
      exists (Layout.Hole t' :: L1), t1, L2. repeat split; auto.
      rewrite holes_cons_hole. constructor; assumption.
Qed.

Lemma nodup_map_inj (A B : Type) (f : A -> B) (l : list A) (x y : A) :
  NoDup (map f l) -> In x l -> In y l -> f x = f y -> x = y.
Proof.
  induction l as [|a l IH]; intros Hnd Hx Hy Hf; [destruct Hx|].
  cbn [map] in Hnd. inversion Hnd as [|? ? Hnot Hnd']; subst.
  destruct Hx as [->|Hx]; destruct Hy as [->|Hy]; auto.
  - exfalso. apply Hnot. rewrite Hf. apply in_map. exact Hy.
  - exfalso. apply Hnot. rewrite <- Hf. apply in_map. exact Hx.
Qed.

Lemma no_holes_same (L : list Layout.cell) :
  Layout.holes L = [] -> Layout.render_red L = Layout.render_orig L.
Proof.
  induction L as [|[c|t] L IH]; intros H; [reflexivity | | discriminate].
  change (Layout.render_red (Layout.Ch c :: L)) with (c :: Layout.render_red L).
  change (Layout.render_orig (Layout.Ch c :: L)) with (c :: Layout.render_orig L).
  rewrite IH by exact H. reflexivity.
Qed.

(** Replacing the first occurrence of each token id by its original value,
    the tokens being taken in any order, gives back the original text,
    provided the ids are in brackets, pairwise distinct and absent from the
    original text. *)
Lemma restore_layout (ts : list RedactionToken) :
  forall L : list Layout.cell,
    Occ.ids_bracketed L ->
    NoDup (map token_id (Layout.holes L)) ->
    Permutation ts (Layout.holes L) ->
    (forall t, In t ts -> ~ Occ.occurs (token_id t) (Layout.render_orig L)) ->
    Occ.restore ts (Layout.render_red L) = Layout.render_orig L.
Proof.
  induction ts as [|t0 ts IH]; intros L Hbr Hnd Hperm Hocc.
  - apply Permutation_nil in Hperm. apply no_holes_same. exact Hperm.
  - assert (Hin0 : In t0 (Layout.holes L)).
    { eapply Permutation_in; [exact Hperm | left; reflexivity]. }
    destruct (@first_hole (token_id t0) L) as (L1 & t & L2 & HL & Ht & Hfirst);
      [exists t0; split; auto|].
    assert (Hint : In t (Layout.holes L)).
    { rewrite HL, holes_app, holes_cons_hole. apply in_or_app. right. left. reflexivity. }
    assert (t = t0) by (eapply nodup_map_inj; eauto). subst t.
    assert (Hbr0 : Layout.bracketed (token_id t0)).
    { unfold Occ.ids_bracketed in Hbr. rewrite Forall_forall in Hbr. auto. }
    assert (Hred : Layout.render_red L
                   = Layout.render_red L1 ++ token_id t0 ++ Layout.render_red L2).
    { rewrite HL, render_red_app. reflexivity. }
    unfold Occ.restore. cbn [fold_left]. fold (Occ.restore ts).
    rewrite Hred, replace_first_at.
    + set (L' := L1 ++ map Layout.Ch (original_value t0) ++ L2).
      destruct (render_chars (original_value t0)) as (Hcr & Hco & Hch).
      assert (Hred' : Layout.render_red L'
                      = Layout.render_red L1 ++ original_value t0 ++ Layout.render_red L2).
      { unfold L'. rewrite !render_red_app, Hcr. reflexivity. }
      assert (Horig' : Layout.render_orig L' = Layout.render_orig L).
      { unfold L'. rewrite HL, !render_orig_app, Hco. reflexivity. }
      assert (Hholes' : Layout.holes L' = Layout.holes L1 ++ Layout.holes L2).
      { unfold L'. rewrite !holes_app, Hch. reflexivity. }
      assert (HholesL : Layout.holes L = Layout.holes L1 ++ t0 :: Layout.holes L2).
      { rewrite HL, holes_app, holes_cons_hole. reflexivity. }
      rewrite <- Hred', <- Horig'. apply IH.
      * unfold Occ.ids_bracketed in *. rewrite Hholes'. rewrite HholesL in Hbr.
        apply Forall_app in Hbr as [Hb1 Hb2]. apply Forall_cons_iff in Hb2 as [_ Hb2].
        apply Forall_app. split; assumption.
      * rewrite Hholes'. rewrite HholesL in Hnd.
        rewrite map_app in *. cbn [map] in Hnd.
        eapply NoDup_remove_1. exact Hnd.
      * rewrite Hholes'. rewrite HholesL in Hperm.
        eapply Permutation_cons_app_inv. exact Hperm.
      * intros t Hint'. rewrite Horig'. apply Hocc. right. exact Hint'.
    + intros a' b' Heq. rewrite <- Hred in Heq.
      destruct (occ_in_layout Hbr0 Hbr Heq)
        as [(L1' & t' & L2' & HL' & Ht' & Hlen) | Ho].
      * rewrite Hlen. rewrite HL in HL'.
        destruct (decomp_compare HL') as [<-|[(m & ->)|(m & Hm)]].
        -- lia.
        -- rewrite render_red_app, length_app. lia.
        -- exfalso. rewrite Hm, holes_app, holes_cons_hole in Hfirst.
           apply Forall_app in Hfirst as [_ Hf].
           apply Forall_cons_iff in Hf as [Hf _]. congruence.
      * exfalso. apply (Hocc t0); [left; reflexivity | exact Ho].
Qed.

(** *** The sort of [unmask] and the token store *)

Lemma insert_desc_perm (A : Type) (key : A -> nat) (x : A) (l : list A) :
  Permutation (insert_desc key x l) (x :: l).
Proof.
  induction l as [|y l IH]; cbn [insert_desc]; [reflexivity|].
  destruct (key y <=? key x); [reflexivity|].
  rewrite IH. apply perm_swap.
Qed.

Lemma sorted_reverse_perm (A : Type) (key : A -> nat) (l : list A) :
  Permutation (sorted_reverse key l) l.
Proof.
  induction l as [|x l IH]; [reflexivity|].
  unfold sorted_reverse in *. cbn [fold_right].
  rewrite insert_desc_perm. constructor. exact IH.
Qed.

Lemma str_eqb_eq (a b : str) : Py.str_eqb a b = true <-> a = b.
Proof.
  revert b. induction a as [|x a IH]; intros [|y b]; cbn [Py.str_eqb];
    try (split; [discriminate | discriminate]); [split; reflexivity|].
  unfold Py.ch_eqb. rewrite andb_true_iff, Ascii.eqb_eq, IH.
  split; [intros [-> ->]; reflexivity | intros H; injection H; auto].
Qed.

Lemma store_set_fresh (store : RedactionService.token_store) (k : str)
  (v : RedactionToken) :
  ~ In k (map fst store) ->
  RedactionService.store_set store k v = store ++ [(k, v)].
Proof.
  induction store as [|[k' v'] store IH]; intros Hk; [reflexivity|].
  cbn [RedactionService.store_set].
  destruct (Py.str_eqb k' k) eqn:E.
  - apply str_eqb_eq in E. exfalso. apply Hk. left. exact E.
  - cbn [app]. rewrite IH; [reflexivity|]. intros H. apply Hk. right. exact H.
Qed.

(** Tokens with fresh, pairwise distinct ids are appended to the store in
    their order. *)
Lemma store_tokens_fresh (toks : list RedactionToken) :
  forall store : RedactionService.token_store,
    NoDup (map token_id toks) ->
    (forall t, In t toks -> ~ In (token_id t) (map fst store)) ->
    RedactionService.store_tokens_in store toks
    = store ++ map (fun t => (token_id t, t)) toks.
Proof.
  unfold RedactionService.store_tokens_in.
  induction toks as [|t toks IH]; intros store Hnd Hfresh; cbn [fold_left map].
  - rewrite app_nil_r. reflexivity.
  - cbn [map] in Hnd. inversion Hnd as [|? ? Hnot Hnd']; subst.
    rewrite store_set_fresh by (apply Hfresh; left; reflexivity).
    rewrite IH; auto.
    + rewrite <- app_assoc. reflexivity.
    + intros t' Ht' Hin. rewrite map_app in Hin. apply in_app_or in Hin as [Hin|Hin].
      * apply (Hfresh t'); [right; exact Ht' | exact Hin].
      * cbn in Hin. destruct Hin as [Hin|[]]. apply Hnot. rewrite Hin.
        apply in_map. exact Ht'.
Qed.

Lemma unmask_as_restore (store : RedactionService.token_store) (redacted : str)
  (toks : option (list RedactionToken)) :
  RedactionService.unmask store redacted toks
  = Occ.restore (sorted_reverse start_pos
                   (match toks with Some l => l | None => map snd store end))
                redacted.
Proof.
  unfold RedactionService.unmask, Occ.restore.
  destruct (match toks with Some l => l | None => map snd store end); reflexivity.
Qed.

(** ** More on the chunker *)

Lemma next_end_upper (chunk_size : nat) (text : str) (start : nat) :
  start < length text ->
  ChunkSpec.next_end chunk_size text start <= start + chunk_size.
Proof.
  intros Hs. unfold ChunkSpec.next_end.
  set (e0 := Nat.min (start + chunk_size) (length text)).
  assert (He0 : e0 <= start + chunk_size) by (unfold e0; lia).
  destruct (e0 <? length text); [|exact He0].
  unfold Py.rfind.
  destruct (rfind_from_spec " "%char (Py.slice text start e0) start)
    as [[Hr _] | (k & Hr & Hk & _)]; rewrite Hr.
  - destruct (Z.ltb_spec (Z.of_nat start) (-1)); [lia | exact He0].
  - assert (Hk' : k < length (Py.slice text start e0))
      by (apply nth_error_Some; congruence).
    unfold Py.slice in Hk'. rewrite length_firstn in Hk'.
    destruct (Z.ltb_spec (Z.of_nat start) (Z.of_nat (start + k))); [lia | exact He0].
Qed.

(** When the loop ends, its segments are contiguous, non-empty and at most
    [chunk_size] long. *)
Lemma chunk_loop_sizes (chunk_size : nat) (text : str) :
  0 < chunk_size ->
  forall (fuel start : nat) (chunks : list (str * nat)),
    start <= length text ->
    TextChunker.chunk_loop fuel chunk_size text start = Some chunks ->
    SegmentSpec.contiguous start chunks
    /\ Forall (fun seg => 1 <= length (fst seg) <= chunk_size) chunks.
Proof.
  intros Hpos. induction fuel as [|fuel IH]; intros start chunks Hle H.
  - cbn [TextChunker.chunk_loop] in H.
    destruct (start <? length text); [discriminate|].
    injection H as <-. split; [exact I | constructor].
  - destruct (Nat.eq_dec start (length text)) as [->|Hne].
    + cbn [TextChunker.chunk_loop] in H. rewrite Nat.ltb_irrefl in H.
      injection H as <-. split; [exact I | constructor].
    + assert (Hs : start < length text) by lia.
      rewrite (chunk_loop_unfold chunk_size fuel Hs) in H.
      destruct (next_end_spec Hpos Hs) as [Hnext _].
      pose proof (next_end_upper chunk_size Hs) as Hup.
      destruct (TextChunker.chunk_loop fuel chunk_size text
                  (ChunkSpec.next_end chunk_size text start)) as [rest|] eqn:E;
        [|discriminate].
      injection H as <-.
      destruct (IH _ _ (proj2 Hnext) E) as [Hc Hsz].
      assert (Hlen : length (Py.slice text start (ChunkSpec.next_end chunk_size text start))
                     = ChunkSpec.next_end chunk_size text start - start)
        by (apply slice_length; lia).
      split.
      * cbn [SegmentSpec.contiguous fst snd]. split; [reflexivity|].
        rewrite Hlen.
        replace (start + (ChunkSpec.next_end chunk_size text start - start))
          with (ChunkSpec.next_end chunk_size text start) by lia.
        exact Hc.
      * constructor; [cbn [fst]; rewrite Hlen; lia | exact Hsz].
Qed.

Lemma chunk_text_sizes (chunk_size : nat) (text : str) (chunks : list (str * nat)) :
  0 < chunk_size -> text <> [] ->
  TextChunker.chunk_text chunk_size text = Some chunks ->
  SegmentSpec.contiguous 0 chunks
  /\ Forall (fun seg => 1 <= length (fst seg) <= chunk_size) chunks.
Proof.
  intros Hpos Hne H.
  unfold TextChunker.chunk_text, TextChunker.chunk_text_fuel in H.
  destruct (Nat.leb_spec (length text) chunk_size) as [Hle|Hgt].
  - injection H as <-. split.
    + cbn [SegmentSpec.contiguous fst snd]. split; [reflexivity | exact I].
    + constructor; [|constructor]. cbn [fst].
      destruct text; [congruence | simpl in *; lia].
  - eapply chunk_loop_sizes; eauto. lia.
Qed.

(** The segments of [chunk_text]: they start at offset 0, follow one
    another without gap or overlap, and each of them is non-empty and at
    most [chunk_size] characters long, for a non-empty text and a positive
    [chunk_size]. *)
Theorem chunk_text_segments_bounded :
  forall (chunk_size : nat) (text : str) (chunks : list (str * nat)),
    0 < chunk_size -> text <> [] ->
    TextChunker.chunk_text chunk_size text = Some chunks ->
    SegmentSpec.contiguous 0 chunks
    /\ Forall (fun seg => 1 <= length (fst seg) <= chunk_size) chunks.
Proof. intros chunk_size text chunks. apply chunk_text_sizes. Qed.

Lemma chunk_text_segments_bounded_witness :
  SegmentSpec.contiguous 0
    [(s2l "ab ", 0); (s2l "cd ", 3); (s2l "efgh ", 6); (s2l "ijklm", 11); (s2l "nop q", 16)]
  /\ Forall (fun seg : str * nat => 1 <= length (fst seg) <= 5)
       [(s2l "ab ", 0); (s2l "cd ", 3); (s2l "efgh ", 6); (s2l "ijklm", 11); (s2l "nop q", 16)].
Proof.
  apply (@chunk_text_segments_bounded 5 (s2l "ab cd efgh ijklmnop q")).
  - lia.
  - discriminate.
  - reflexivity.
Defined.

Lemma chunk_loop_zero (text : str) :
  forall (fuel start : nat),
    start < length text -> TextChunker.chunk_loop fuel 0 text start = None.
Proof.
  induction fuel as [|fuel IH]; intros start Hs.
  - cbn [TextChunker.chunk_loop]. apply Nat.ltb_lt in Hs. rewrite Hs. reflexivity.
  - rewrite (chunk_loop_unfold 0 fuel Hs).
    assert (Hn : ChunkSpec.next_end 0 text start = start).
    { unfold ChunkSpec.next_end. rewrite Nat.add_0_r.
      replace (Nat.min start (length text)) with start by lia.
      apply Nat.ltb_lt in Hs. rewrite Hs.
      unfold Py.rfind, Py.slice. rewrite Nat.sub_diag. cbn [firstn Py.rfind_from].
      destruct (Z.ltb_spec (Z.of_nat start) (-1)); [lia | reflexivity]. }
    rewrite Hn, (IH start Hs). reflexivity.
Qed.

Lemma chunk_text_fuel_zero (text : str) (fuel : nat) :
  text <> [] -> TextChunker.chunk_text_fuel fuel 0 text = None.
Proof.
  intros Hne. unfold TextChunker.chunk_text_fuel.
  destruct text as [|c text]; [congruence|].
  cbn [length Nat.leb]. apply chunk_loop_zero. simpl. lia.
Qed.

(** With a [chunk_size] of 0 the loop of [chunk_text] never ends on a
    non-empty text: [start] does not move, whatever the number of rounds. *)
Theorem chunk_text_zero_never_ends :
  forall (text : str) (fuel : nat),
    text <> [] -> TextChunker.chunk_text_fuel fuel 0 text = None.
Proof. intros text fuel. apply chunk_text_fuel_zero. Qed.

Lemma chunk_text_zero_witness :
  TextChunker.chunk_text_fuel 1000 0 (s2l "some text") = None.
Proof.
  apply (@chunk_text_zero_never_ends (s2l "some text") 1000). discriminate.
Defined.

Lemma merge_fold (l : list (str * nat * list RedactionToken)) :
  forall (a : str) (b : list RedactionToken),
    fold_left (fun acc cr =>
                 let '(merged_text, all_tokens) := acc in
                 let '(chunk, _, toks) := cr in
                 (merged_text ++ chunk, all_tokens ++ toks)) l (a, b)
    = (a ++ concat (map (fun cr => fst (fst cr)) l), b ++ concat (map snd l)).
Proof.
  induction l as [|[[c o] t] l IH]; intros a b; cbn [fold_left map concat fst snd].
  - rewrite !app_nil_r. reflexivity.
  - rewrite IH, <- !app_assoc. reflexivity.
Qed.

Lemma merge_results_cat (chunk_results : list (str * nat * list RedactionToken)) :
  TextChunker.merge_results chunk_results
  = (concat (map (fun cr => fst (fst cr)) chunk_results),
     concat (map snd chunk_results)).
Proof.
  destruct chunk_results as [|[[c o] t] [|cr l]].
  - reflexivity.
  - cbn. rewrite !app_nil_r. reflexivity.
  - unfold TextChunker.merge_results. rewrite merge_fold. reflexivity.
Qed.

(** [merge_results] concatenates the segment texts and the token lists in
    segment order, whatever the number of segments: the cases of no segment
    and of one segment agree with the general one. *)
Theorem merge_results_concat :
  forall chunk_results : list (str * nat * list RedactionToken),
    TextChunker.merge_results chunk_results
    = (concat (map (fun cr => fst (fst cr)) chunk_results),
       concat (map snd chunk_results)).
Proof. exact merge_results_cat. Qed.

Lemma concat_length_bound (A : Type) (n : nat) (l : list (list A)) :
  Forall (fun x => length x <= n) l -> length (concat l) <= n * length l.
Proof.
  induction 1 as [|x l Hx _ IH]; cbn [concat length]; [lia|].
  rewrite length_app. lia.
Qed.

(** [estimate_chunks] never exceeds the number of segments [chunk_text]
    returns: cutting at spaces can only add segments. *)
Theorem estimate_chunks_lower_bound :
  forall (chunk_size : nat) (text : str) (chunks : list (str * nat)) (n : nat),
    0 < chunk_size -> text <> [] ->
    TextChunker.chunk_text chunk_size text = Some chunks ->
    TextChunker.estimate_chunks chunk_size (length text) = Some n ->
    n <= length chunks.
Proof.
  intros chunk_size text chunks n Hpos Hne Hc He.
  destruct (chunk_text_sizes Hpos Hne Hc) as [_ Hsz].
  destruct (chunk_text_total text Hpos) as (chunks' & Hc' & Hcat).
  rewrite Hc in Hc'. injection Hc' as <-.
  unfold TextChunker.estimate_chunks in He.
  destruct (Nat.leb_spec (length text) chunk_size) as [Hle|Hgt].
  - injection He as <-.
    unfold TextChunker.chunk_text, TextChunker.chunk_text_fuel in Hc.
    apply Nat.leb_le in Hle. rewrite Hle in Hc. injection Hc as <-. simpl. lia.
  - destruct (Nat.eqb_spec chunk_size 0) as [H0|_]; [lia|].
    injection He as <-.
    assert (Hlen : length text <= chunk_size * length chunks).
    { rewrite <- Hcat at 1. rewrite <- (length_map fst chunks).
      apply concat_length_bound. apply Forall_map.
      refine (Forall_impl _ _ Hsz). intros seg Hseg. exact (proj2 Hseg). }
    assert (Hlt : (length text + chunk_size - 1) / chunk_size < S (length chunks)).
    { apply Nat.Div0.div_lt_upper_bound. lia. }
    lia.
Qed.


(** ** The service on local matchers *)

Lemma redact_single_local (s : RedactionService.t)
  (store : RedactionService.token_store) (text : str) (offset : nat)
  (store_tokens : bool) :
  RedactionService.use_cloud_detection s = false ->
  RedactionService._redact_single s store text offset store_tokens
  = Ok (ServiceSpec.local_result (RedactionService.redactors s) text offset,
        if store_tokens
        then RedactionService.store_tokens_in store
               (tokens (ServiceSpec.local_result (RedactionService.redactors s) text offset))
        else store).
Proof.
  intros Hu. unfold RedactionService._redact_single, ServiceSpec.local_result.
  rewrite Hu.
  destruct (RedactionService.apply_redactors (RedactionService.redactors s) text offset)
    as [current toks].
  reflexivity.
Qed.

Lemma redact_chunks_local (s : RedactionService.t)
  (store : RedactionService.token_store) (chunks : list (str * nat)) :
  RedactionService.use_cloud_detection s = false ->
  RedactionService.redact_chunks s store chunks
  = Ok (map (fun c => ServiceSpec.local_result (RedactionService.redactors s)
                        (fst c) (snd c)) chunks).
Proof.
  intros Hu. induction chunks as [|[chunk offset] chunks IH]; [reflexivity|].
  cbn [RedactionService.redact_chunks map fst snd].
  rewrite (redact_single_local store chunk offset false Hu), IH. reflexivity.
Qed.

Lemma merge_data_fields (f : str * nat -> RedactionResult) (l l' : list (str * nat)) :
  length l = length l' ->
  map (fun cr : str * nat * list RedactionToken => fst (fst cr))
      (map (fun p => (redacted_text (fst p), snd (snd p), tokens (fst p)))
           (combine (map f l) l'))
  = map (fun c => redacted_text (f c)) l
  /\ map snd
       (map (fun p => (redacted_text (fst p), snd (snd p), tokens (fst p)))
            (combine (map f l) l'))
     = map (fun c => tokens (f c)) l.
Proof.
  revert l'. induction l as [|c l IH]; intros [|c' l'] Hlen; try discriminate;
    [split; reflexivity|].
  cbn [map combine fst snd]. injection Hlen as Hlen.
  destruct (IH l' Hlen) as [H1 H2]. rewrite H1, H2. split; reflexivity.
Qed.

(** Merging the results of the segments concatenates their texts and their
    tokens, also when there is one segment or none. *)
Lemma merge_mapped (f : str * nat -> RedactionResult) (chunks : list (str * nat)) :
  RedactionService._merge_chunk_results (map f chunks) chunks
  = {| redacted_text := concat (map (fun c => redacted_text (f c)) chunks);
       tokens := concat (map (fun c => tokens (f c)) chunks) |}.
Proof.
  destruct chunks as [|c1 [|c2 l]].
  - reflexivity.
  - cbn [map RedactionService._merge_chunk_results concat].
    rewrite !app_nil_r. destruct (f c1). reflexivity.
  - unfold RedactionService._merge_chunk_results.
    cbn [map]. rewrite merge_results_cat.
    destruct (@merge_data_fields f (c1 :: c2 :: l) (c1 :: c2 :: l) eq_refl) as [H1 H2].
    cbn [map] in H1, H2. rewrite H1, H2. reflexivity.
Qed.

Lemma apply_redactors_clean (rs : list BaseRedactor.t) (text : str) (offset : nat) :
  ServiceSpec.nothing_to_redact rs text ->
  RedactionService.apply_redactors rs text offset = (text, []).
Proof.
  unfold RedactionService.apply_redactors, ServiceSpec.nothing_to_redact.
  induction rs as [|r rs IH]; intros H; [reflexivity|].
  cbn [fold_left].
  rewrite redact_clean by (apply H; left; reflexivity).
  cbn [app]. apply IH. intros r' Hr'. apply H. right. exact Hr'.
Qed.

Lemma concat_map_nil (A B : Type) (l : list A) :
  concat (map (fun _ : A => @nil B) l) = [].
Proof. induction l as [|x l IH]; [reflexivity | exact IH]. Qed.

(** A text none of whose segments holds a validated match comes back
    unchanged, with no token, and the store is left as it was: on the
    single-segment path as on the sequential chunked one, the segments are
    put together again without loss. *)
Theorem redact_nothing_to_redact :
  forall (s : RedactionService.t) (store : RedactionService.token_store)
         (text : str) (store_tokens : bool),
    RedactionService.use_cloud_detection s = false ->
    ServiceSpec.in_process s text ->
    0 < RedactionService.chunk_size s ->
    (forall seg, In seg (SegmentSpec.segments s text) ->
                 ServiceSpec.nothing_to_redact (RedactionService.redactors s) seg) ->
    RedactionService.redact s store text store_tokens
    = Some (Ok ({| redacted_text := text; tokens := [] |}, store)).
Proof.
  intros s store text st Hu _ Hpos Hclean.
  unfold RedactionService.redact. destruct text as [|c0 text0]; [reflexivity|].
  set (text := c0 :: text0) in *.
  unfold SegmentSpec.segments in Hclean.
  destruct (RedactionService.chunk_size s <? length text) eqn:Hlong.
  - unfold RedactionService._redact_chunked.
    destruct (chunk_text_total text Hpos) as (chunks & Hc & Hcat).
    rewrite Hc in *. rewrite (redact_chunks_local store chunks Hu). cbn [bind].
    rewrite merge_mapped.
    assert (Heach : forall c, In c chunks ->
              ServiceSpec.local_result (RedactionService.redactors s) (fst c) (snd c)
              = {| redacted_text := fst c; tokens := [] |}).
    { intros c Hin. unfold ServiceSpec.local_result.
      rewrite apply_redactors_clean; [reflexivity|].
      apply Hclean. apply in_map. exact Hin. }
    assert (Ht : map (fun c => redacted_text
                         (ServiceSpec.local_result (RedactionService.redactors s) (fst c) (snd c)))
                     chunks = map fst chunks).
    { apply map_ext_in. intros c Hin. rewrite (Heach c Hin). reflexivity. }
    assert (Hk : map (fun c => tokens
                         (ServiceSpec.local_result (RedactionService.redactors s) (fst c) (snd c)))
                     chunks = map (fun _ => []) chunks).
    { apply map_ext_in. intros c Hin. rewrite (Heach c Hin). reflexivity. }
    rewrite Ht, Hk, Hcat, concat_map_nil. cbn [tokens].
    destruct st; reflexivity.
  - rewrite (redact_single_local store text 0 st Hu).
    unfold ServiceSpec.local_result.
    rewrite apply_redactors_clean by (apply Hclean; left; reflexivity).
    cbn [fst snd tokens]. destruct st; reflexivity.
Qed.

Lemma redact_nothing_to_redact_witness :
  RedactionService.redact sequential_service [] (s2l "no secrets in this line") true
  = Some (Ok ({| redacted_text := s2l "no secrets in this line"; tokens := [] |}, [])).
Proof.
  apply (@redact_nothing_to_redact sequential_service [] (s2l "no secrets in this line") true).
  - reflexivity.
  - left. reflexivity.
  - simpl. lia.
  - intros seg Hseg r Hr.
    vm_compute in Hseg.
    unfold sequential_service, Builtin.default_redactors in Hr.
    cbn [RedactionService.redactors In] in Hr.
    repeat (destruct Hseg as [<-|Hseg]; [
      repeat (destruct Hr as [<-|Hr]; [vm_compute; reflexivity|]); destruct Hr |]).
    destruct Hseg.
Defined.

(** *** The layout of a whole [redact] call *)

Lemma track_chunks_spec (rs : list BaseRedactor.t) (chunks : list (str * nat)) :
  forall L : list Layout.cell,
    Layout.track_chunks rs chunks = Some L ->
    Layout.render_red L
    = concat (map (fun c => redacted_text (ServiceSpec.local_result rs (fst c) (snd c)))
                  chunks)
    /\ Layout.render_orig L = concat (map fst chunks)
    /\ Permutation (Layout.holes L)
         (concat (map (fun c => tokens (ServiceSpec.local_result rs (fst c) (snd c)))
                      chunks))
    /\ Occ.ids_bracketed L.
Proof.
  induction chunks as [|[chunk offset] chunks IH]; intros L H;
    cbn [Layout.track_chunks] in H.
  - injection H as <-. repeat split; constructor.
  - destruct (Layout.track_single rs chunk offset) as [L1|] eqn:E1; [|discriminate].
    destruct (Layout.track_chunks rs chunks) as [L2|] eqn:E2; [|discriminate].
    injection H as <-.
    destruct (track_single_spec E1) as (Hr1 & Ho1 & Hp1 & Hb1).
    destruct (IH L2 eq_refl) as (Hr2 & Ho2 & Hp2 & Hb2).
    cbn [map concat fst snd]. unfold ServiceSpec.local_result at 1 3.
    cbn [redacted_text tokens].
    rewrite render_red_app, render_orig_app. unfold Occ.ids_bracketed in *.
    rewrite holes_app. rewrite Hr1, Ho1, <- Hr2, <- Ho2.
    repeat split.
    + apply Permutation_app; assumption.
    + apply Forall_app. split; [|exact Hb2].
      rewrite Forall_forall in *. intros t Ht. apply Hb1.
      eapply Permutation_in; [exact Hp1 | exact Ht].
Qed.

(** What [redact] returns on local matchers, read off the layout. *)
Lemma track_spec (s : RedactionService.t) (store : RedactionService.token_store)
  (text : str) (store_tokens : bool) (L : list Layout.cell) :
  RedactionService.use_cloud_detection s = false ->
  text <> [] ->
  Layout.track s text = Some L ->
  exists r : RedactionResult,
    RedactionService.redact s store text store_tokens
    = Some (Ok (r, if store_tokens
                   then RedactionService.store_tokens_in store (tokens r)
                   else store))
    /\ redacted_text r = Layout.render_red L
    /\ Layout.render_orig L = text
    /\ Permutation (Layout.holes L) (tokens r)
    /\ Occ.ids_bracketed L.
Proof.
  intros Hu Hne H. unfold Layout.track in H. unfold RedactionService.redact.
  destruct text as [|c0 text0]; [congruence|]. set (text := c0 :: text0) in *.
  destruct (RedactionService.chunk_size s <? length text) eqn:Hlong.
  - destruct (TextChunker.chunk_text (RedactionService.chunk_size s) text)
      as [chunks|] eqn:Hc; [|discriminate].
    destruct (track_chunks_spec H) as (Hr & Ho & Hp & Hb).
    assert (Hcat : concat (map fst chunks) = text).
    { destruct (Nat.eq_dec (RedactionService.chunk_size s) 0) as [H0|H0].
      - rewrite H0 in Hc. unfold TextChunker.chunk_text in Hc.
        rewrite chunk_text_fuel_zero in Hc by discriminate. discriminate.
      - destruct (@chunk_text_total (RedactionService.chunk_size s) text)
          as (chunks' & Hc' & Hcat); [lia|].
        rewrite Hc in Hc'. injection Hc' as <-. exact Hcat. }
    unfold RedactionService._redact_chunked. rewrite Hc.
    rewrite (redact_chunks_local store chunks Hu). cbn [bind].
    rewrite merge_mapped.
    eexists. split; [reflexivity|].
    cbn [redacted_text tokens]. rewrite Ho, Hcat. repeat split; auto.
  - destruct (track_single_spec H) as (Hr & Ho & Hp & Hb).
    rewrite (redact_single_local store text 0 store_tokens Hu).
    eexists. split; [reflexivity|].
    unfold ServiceSpec.local_result. cbn [redacted_text tokens].
    repeat split; auto.
    unfold Occ.ids_bracketed. rewrite Forall_forall in *. intros t Ht. apply Hb.
    eapply Permutation_in; [exact Hp | exact Ht].
Qed.

(** ** Unmasking what was redacted *)

Lemma restore_of_redact (L : list Layout.cell) (toks : list RedactionToken) :
  Occ.ids_bracketed L ->
  Permutation (Layout.holes L) toks ->
  NoDup (map token_id (Layout.holes L)) ->
  (forall t, In t (Layout.holes L) ->
             Py.contains (token_id t) (Layout.render_orig L) = false) ->
  Occ.restore (sorted_reverse start_pos toks) (Layout.render_red L)
  = Layout.render_orig L.
Proof.
  intros Hb Hp Hnd Habs. apply restore_layout; auto.
  - rewrite sorted_reverse_perm. symmetry. exact Hp.
  - intros t Ht. apply contains_false_no_occurrence. apply Habs.
    eapply Permutation_in; [symmetry; exact Hp|].
    eapply Permutation_in; [apply sorted_reverse_perm | exact Ht].
Qed.

(** A conditional round trip, for matchers of the built-in types working
    in the calling process. Three things are assumed of the call, none of
    which the code ensures: no validated match runs into a token id put in
    by an earlier replacement ([Layout.track] answers a layout), the token
    ids put in are pairwise distinct (two values can be given the same id),
    and none of them occurs in the text (a text can hold an id of its own).
    Then [unmask] gives the text back from the redacted text: with the
    tokens of the result, and with the stored tokens when the store was
    empty before the call. *)
Theorem unmask_inverts_redact :
  forall (s : RedactionService.t) (store : RedactionService.token_store)
         (text : str) (L : list Layout.cell),
    RedactionService.use_cloud_detection s = false ->
    ServiceSpec.in_process s text ->
    Layout.track s text = Some L ->
    NoDup (map token_id (Layout.holes L)) ->
    (forall t, In t (Layout.holes L) -> Py.contains (token_id t) text = false) ->
    exists (r : RedactionResult) (store' : RedactionService.token_store),
      RedactionService.redact s store text true = Some (Ok (r, store'))
      /\ RedactionService.unmask store' (redacted_text r) (Some (tokens r)) = text
      /\ (store = [] ->
          RedactionService.unmask store' (redacted_text r) None = text).
Proof.
  intros s store text L Hu _ Ht Hnd Habs.
  destruct text as [|c0 text0].
  - exists {| redacted_text := []; tokens := [] |}, store.
    repeat split. intros ->. reflexivity.
  - set (text := c0 :: text0) in *.
    destruct (@track_spec s store text true L Hu) as (r & Hr & Hred & Ho & Hp & Hb);
      [discriminate | exact Ht|].
    exists r, (RedactionService.store_tokens_in store (tokens r)).
    split; [exact Hr|].
    rewrite <- Ho in Habs.
    assert (Hrestore : Occ.restore (sorted_reverse start_pos (tokens r)) (redacted_text r)
                       = text).
    { rewrite Hred, <- Ho. apply restore_of_redact; auto. }
    split.
    + rewrite unmask_as_restore. exact Hrestore.
    + intros ->. rewrite unmask_as_restore.
      rewrite store_tokens_fresh.
      * cbn [app]. rewrite map_map. cbn [snd]. rewrite map_id. exact Hrestore.
      * eapply Permutation_NoDup; [|exact Hnd]. apply Permutation_map. exact Hp.
      * intros t _ [].
Qed.

Lemma unmask_inverts_redact_witness :
  exists (r : RedactionResult) (store' : RedactionService.token_store),
    RedactionService.redact RedactionService.default []
      (s2l "Email: john@example.com, Phone: (555) 123-4567, SSN: 123-45-6789") true
    = Some (Ok (r, store'))
    /\ RedactionService.unmask store' (redacted_text r) (Some (tokens r))
       = s2l "Email: john@example.com, Phone: (555) 123-4567, SSN: 123-45-6789"
    /\ (([] : RedactionService.token_store) = [] ->
        RedactionService.unmask store' (redacted_text r) None
        = s2l "Email: john@example.com, Phone: (555) 123-4567, SSN: 123-45-6789").
Proof.
  pose (text := s2l "Email: john@example.com, Phone: (555) 123-4567, SSN: 123-45-6789").
  destruct (Layout.track RedactionService.default text) as [L|] eqn:HL;
    [|vm_compute in HL; discriminate HL].
  apply (@unmask_inverts_redact RedactionService.default [] text L).
  - reflexivity.
  - right. apply Nat.leb_le. reflexivity.
  - exact HL.
  - vm_compute in HL. injection HL as <-.
    cbn [Layout.holes flat_map Layout.hole_of app map token_id].
    repeat constructor; cbn [In]; intros H;
      repeat (destruct H as [H|H]; [discriminate H|]); exact H.
  - vm_compute in HL. injection HL as <-.
    cbn [Layout.holes flat_map Layout.hole_of app In]. intros t H.
    repeat (destruct H as [<-|H]; [vm_compute; reflexivity|]). destruct H.
Defined.

Lemma estimate_chunks_lower_bound_witness :
  3 <= length [(s2l "aaaa ", 0); (s2l "bbbb ", 5); (s2l "cccc ", 10); (s2l "dddd", 15)].
Proof.
  apply (@estimate_chunks_lower_bound 7 (s2l "aaaa bbbb cccc dddd")).
  - lia.
  - discriminate.
  - reflexivity.
  - reflexivity.
Defined.

(** ** The shape of a token id *)

Lemma compress_length (h block : list Z) :
  length h = 8 -> length (Sha256.compress h block) = 8.
Proof.
  intros Hh. unfold Sha256.compress.
  rewrite length_map, length_combine, Hh. reflexivity.
Qed.

Lemma blocks_length (fuel : nat) :
  forall h bytes : list Z, length h = 8 -> length (Sha256.blocks fuel h bytes) = 8.
Proof.
  induction fuel as [|fuel IH]; intros h bytes Hh; cbn [Sha256.blocks]; [exact Hh|].
  destruct bytes as [|b bytes]; [exact Hh|].
  apply IH. apply compress_length. exact Hh.
Qed.

Lemma flat_map_length_const (A B : Type) (f : A -> list B) (n : nat) (l : list A) :
  (forall x, length (f x) = n) -> length (flat_map f l) = length l * n.
Proof.
  intros Hf. induction l as [|x l IH]; [reflexivity|].
  cbn [flat_map length]. rewrite length_app, Hf, IH. lia.
Qed.

Lemma hexdigest_length (s : str) : length (Sha256.hexdigest s) = 64.
Proof.
  unfold Sha256.hexdigest.
  rewrite (@flat_map_length_const _ _ Sha256.hex_word 8) by reflexivity.
  unfold Sha256.digest_words. rewrite blocks_length; reflexivity.
Qed.

Lemma upper_c_bracket (c : ascii) :
  (Py.upper_c c = "["%char <-> c = "["%char)
  /\ (Py.upper_c c = "]"%char <-> c = "]"%char).
Proof.
  destruct c as [[] [] [] [] [] [] [] []]; vm_compute;
    repeat split; intros H; first [discriminate H | reflexivity].
Qed.

Lemma upper_brackets (v : str) :
  (In "["%char (Py.upper v) <-> In "["%char v)
  /\ (In "]"%char (Py.upper v) <-> In "]"%char v).
Proof.
  unfold Py.upper. split; split; intros H.
  - apply in_map_iff in H as (c & Hc & Hin).
    apply (proj1 (proj1 (upper_c_bracket c))) in Hc. subst c. exact Hin.
  - apply in_map_iff. exists "["%char. split; [reflexivity | exact H].
  - apply in_map_iff in H as (c & Hc & Hin).
    apply (proj1 (proj2 (upper_c_bracket c))) in Hc. subst c. exact Hin.
  - apply in_map_iff. exists "]"%char. split; [reflexivity | exact H].
Qed.

(** The id generated for a value by a matcher whose type has an ASCII
    string as its value, one of the built-in types or a custom one: an
    opening bracket, the upper-cased type value, an underscore, exactly
    eight hexadecimal digits and a closing bracket, whatever the value and
    the position. No bracket stands between the outer two exactly when the
    type value holds none. For a built-in type this is the id of
    [BaseRedactor.generate_token_id], and its value holds no bracket. *)
Theorem generate_token_id_shape :
  forall (value original : str) (position : nat),
    EnumType.plain value ->
    (exists h : str,
       EnumType.generate_token_id value original position
       = s2l "[" ++ Py.upper value ++ s2l "_" ++ h ++ s2l "]"
       /\ length h = 8
       /\ forallb Regex.hex h = true)
    /\ (Layout.bracketed (EnumType.generate_token_id value original position)
        <-> ~ In "["%char value /\ ~ In "]"%char value)
    /\ (forall ty : RedactionType,
          type_value ty = value ->
          BaseRedactor.generate_token_id ty original position
          = EnumType.generate_token_id value original position
          /\ ~ In "["%char value /\ ~ In "]"%char value).
Proof.
  intros v original position _.
  set (h := Py.slice_to
              (Sha256.hexdigest
                 (original ++ s2l "_" ++ str_of_nat position ++ s2l "_" ++ v)) 8).
  assert (Hh : forall c, In c h -> c <> "["%char /\ c <> "]"%char /\ Regex.hex c = true).
  { intros c Hc. unfold h, Py.slice_to in Hc. apply in_firstn_in in Hc.
    apply hexdigest_chars in Hc. exact Hc. }
  destruct (upper_brackets v) as [Hopen Hclose].
  assert (Hid : EnumType.generate_token_id v original position
                = "["%char :: (Py.upper v ++ "_"%char :: h) ++ ["]"%char]).
  { unfold EnumType.generate_token_id. fold h.
    change (s2l "[") with ["["%char]. change (s2l "_") with ["_"%char].
    change (s2l "]") with ["]"%char]. cbn [app]. rewrite <- !app_assoc.
    reflexivity. }
  split; [|split].
  - exists h. split; [reflexivity|]. split.
    + unfold h, Py.slice_to. rewrite length_firstn, hexdigest_length. reflexivity.
    + apply forallb_forall. intros c Hc. apply Hh in Hc. tauto.
  - rewrite Hid. split.
    + intros (body & Hb & Ho & Hc). injection Hb as Hb.
      apply app_inj_tail in Hb as [Hb _]. subst body.
      split; intros H.
      * apply Ho. apply in_or_app. left. apply Hopen. exact H.
      * apply Hc. apply in_or_app. left. apply Hclose. exact H.
    + intros [Ho Hc]. exists (Py.upper v ++ "_"%char :: h).
      split; [reflexivity|]. split; intros H.
      * apply in_app_or in H as [H|[H|H]];
          [apply Ho, Hopen; exact H | discriminate H | apply Hh in H; tauto].
      * apply in_app_or in H as [H|[H|H]];
          [apply Hc, Hclose; exact H | discriminate H | apply Hh in H; tauto].
  - intros ty <-. split; [reflexivity|].
    destruct (type_value_upper_plain ty) as [Hu1 Hu2].
    destruct (upper_brackets (type_value ty)) as [Ho' Hc'].
    split; intros H; [apply Hu1, Ho' | apply Hu2, Hc']; exact H.
Qed.

Lemma generate_token_id_shape_witness :
  (exists h : str,
     EnumType.generate_token_id (s2l "employee_id") (s2l "E-1024") 7
     = s2l "[" ++ Py.upper (s2l "employee_id") ++ s2l "_" ++ h ++ s2l "]"
     /\ length h = 8
     /\ forallb Regex.hex h = true)
  /\ (Layout.bracketed (EnumType.generate_token_id (s2l "employee_id") (s2l "E-1024") 7)
      <-> ~ In "["%char (s2l "employee_id") /\ ~ In "]"%char (s2l "employee_id"))
  /\ (forall ty : RedactionType,
        type_value ty = s2l "employee_id" ->
        BaseRedactor.generate_token_id ty (s2l "E-1024") 7
        = EnumType.generate_token_id (s2l "employee_id") (s2l "E-1024") 7
        /\ ~ In "["%char (s2l "employee_id") /\ ~ In "]"%char (s2l "employee_id")).
Proof.
  apply (@generate_token_id_shape (s2l "employee_id") (s2l "E-1024") 7).
  reflexivity.
Defined.

(** ** Unmasking a text that holds no token id *)

Lemma restore_absent (text : str) (toks : list RedactionToken) :
  (forall t, In t toks -> Py.contains (token_id t) text = false) ->
  Occ.restore toks text = text.
Proof.
  unfold Occ.restore. induction toks as [|t toks IH]; intros H; [reflexivity|].
  cbn [fold_left]. rewrite replace_first_absent by (apply H; left; reflexivity).
  apply IH. intros t' Ht'. apply H. right. exact Ht'.
Qed.

(** [unmask] changes nothing in a text in which none of the token ids it
    works with occurs, be they given or taken from the store. *)
Theorem unmask_without_token_ids :
  forall (store : RedactionService.token_store) (text : str)
         (toks : option (list RedactionToken)),
    (forall t, In t (ServiceSpec.tokens_used store toks) ->
               Py.contains (token_id t) text = false) ->
    RedactionService.unmask store text toks = text.
Proof.
  intros store text toks H. rewrite unmask_as_restore.
  apply restore_absent. intros t Ht. apply H.
  eapply Permutation_in; [apply sorted_reverse_perm | exact Ht].
Qed.

Lemma unmask_without_token_ids_witness :
  RedactionService.unmask
    [(s2l "[SSN_0a1b2c3d]",
      {| token_id := s2l "[SSN_0a1b2c3d]"; original_value := s2l "123-45-6789";
         redaction_type := SSN; start_pos := 5; end_pos := 16 |})]
    (s2l "nothing was replaced here") None
  = s2l "nothing was replaced here".
Proof.
  apply unmask_without_token_ids.
  intros t [<-|[]]. vm_compute. reflexivity.
Defined.

(** ** What [redact] does to the token store *)

Lemma redact_single_effect (s : RedactionService.t) (text : str) (offset : nat) :
  exists d : res RedactionResult,
    forall (store : RedactionService.token_store) (store_tokens : bool),
      RedactionService._redact_single s store text offset store_tokens
      = bind d (fun r => Ok (r, if store_tokens
                                then RedactionService.store_tokens_in store (tokens r)
                                else store)).
Proof.
  unfold RedactionService._redact_single.
  eexists. intros store store_tokens. reflexivity.
Qed.

Lemma redact_chunks_any_store (s : RedactionService.t) (chunks : list (str * nat))
  (store1 store2 : RedactionService.token_store) :
  RedactionService.redact_chunks s store1 chunks
  = RedactionService.redact_chunks s store2 chunks.
Proof.
  induction chunks as [|[chunk offset] chunks IH]; [reflexivity|].
  cbn [RedactionService.redact_chunks]. rewrite IH.
  destruct (redact_single_effect s chunk offset) as [d Hd].
  rewrite !Hd. destruct d; reflexivity.
Qed.

Lemma redact_effect (s : RedactionService.t) (text : str) :
  forall (store : RedactionService.token_store) (store_tokens : bool)
         (r : RedactionResult) (store' : RedactionService.token_store),
    RedactionService.redact s store text store_tokens = Some (Ok (r, store')) ->
    store' = (if store_tokens
              then RedactionService.store_tokens_in store (tokens r) else store)
    /\ forall (store2 : RedactionService.token_store) (store_tokens2 : bool),
         RedactionService.redact s store2 text store_tokens2
         = Some (Ok (r, if store_tokens2
                        then RedactionService.store_tokens_in store2 (tokens r)
                        else store2)).
Proof.
  intros store st r store' H. unfold RedactionService.redact in *.
  destruct text as [|c0 text0].
  - injection H as <- <-. split; [destruct st; reflexivity|].
    intros store2 [|]; reflexivity.
  - set (text := c0 :: text0) in *.
    destruct (RedactionService.chunk_size s <? length text).
    + unfold RedactionService._redact_chunked in *.
      destruct (TextChunker.chunk_text (RedactionService.chunk_size s) text)
        as [chunks|]; [|discriminate].
      injection H as H.
      destruct (RedactionService.redact_chunks s store chunks) as [rs|e] eqn:E;
        [|discriminate].
      cbn [bind] in H. injection H as <- <-. split; [reflexivity|].
      intros store2 st2. rewrite (redact_chunks_any_store s chunks store2 store), E.
      reflexivity.
    + destruct (redact_single_effect s text 0) as [d Hd].
      rewrite Hd in H. injection H as H. destruct d as [r0|e]; [|discriminate].
      cbn [bind] in H. injection H as <- <-. split; [reflexivity|].
      intros store2 st2. rewrite Hd. reflexivity.
Qed.

(** The result of [redact] depends neither on the tokens stored before nor
    on [store_tokens]: a call in the calling process that returns a result
    returns the same one from every store, and the store it leaves is the
    one it found, with the tokens of the result set under their ids when
    [store_tokens] holds. *)
Theorem redact_result_ignores_store :
  forall (s : RedactionService.t) (text : str)
         (store : RedactionService.token_store) (store_tokens : bool)
         (r : RedactionResult) (store' : RedactionService.token_store),
    ServiceSpec.in_process s text ->
    RedactionService.redact s store text store_tokens = Some (Ok (r, store')) ->
    store' = (if store_tokens
              then RedactionService.store_tokens_in store (tokens r) else store)
    /\ forall (store2 : RedactionService.token_store) (store_tokens2 : bool),
         exists store2' : RedactionService.token_store,
           RedactionService.redact s store2 text store_tokens2
           = Some (Ok (r, store2')).
Proof.
  intros s text store st r store' _ H.
  destruct (redact_effect H) as [Hs Hr]. split; [exact Hs|].
  intros store2 st2. eexists. apply Hr.
Qed.

Lemma redact_result_ignores_store_witness :
  exists r : RedactionResult,
    RedactionService.redact sequential_service [] (s2l "a@b.co and c@d.org") false
    = Some (Ok (r, []))
    /\ forall (store2 : RedactionService.token_store) (store_tokens2 : bool),
         exists store2' : RedactionService.token_store,
           RedactionService.redact sequential_service store2
             (s2l "a@b.co and c@d.org") store_tokens2
           = Some (Ok (r, store2')).
Proof.
  destruct (RedactionService.redact sequential_service [] (s2l "a@b.co and c@d.org") false)
    as [[[r st]|e]|] eqn:E; try (vm_compute in E; discriminate E).
  destruct (@redact_result_ignores_store sequential_service (s2l "a@b.co and c@d.org")
              [] false r st (or_introl eq_refl) E) as [Hs Hr].
  cbn in Hs. subst st.
  exists r. split; [reflexivity | exact Hr].
Defined.

(** *** Keys and lookups *)

Lemma str_eqb_refl (a : str) : Py.str_eqb a a = true.
Proof. apply str_eqb_eq. reflexivity. Qed.

Lemma str_eqb_neq (a b : str) : a <> b -> Py.str_eqb a b = false.
Proof.
  intros H. destruct (Py.str_eqb a b) eqn:E; [|reflexivity].
  apply str_eqb_eq in E. contradiction.
Qed.

Lemma store_set_keys (store : RedactionService.token_store) (k : str)
  (v : RedactionToken) :
  (In k (ServiceSpec.keys store)
   /\ ServiceSpec.keys (RedactionService.store_set store k v) = ServiceSpec.keys store)
  \/ (~ In k (ServiceSpec.keys store)
      /\ ServiceSpec.keys (RedactionService.store_set store k v)
         = ServiceSpec.keys store ++ [k]).
Proof.
  unfold ServiceSpec.keys.
  induction store as [|[k' v'] store IH]; cbn [RedactionService.store_set map fst].
  - right. split; [intros [] | reflexivity].
  - destruct (Py.str_eqb k' k) eqn:E.
    + apply str_eqb_eq in E. subst k'. left. split; [left; reflexivity | reflexivity].
    + assert (Hne : k' <> k) by (intros ->; rewrite str_eqb_refl in E; discriminate).
      cbn [map fst]. destruct IH as [[Hin Hk]|[Hout Hk]].
      * left. split; [right; exact Hin | rewrite Hk; reflexivity].
      * right. split; [|rewrite Hk; reflexivity].
        intros [H|H]; [exact (Hne H) | exact (Hout H)].
Qed.

Lemma stored_store_set (store : RedactionService.token_store) (k k0 : str)
  (v : RedactionToken) :
  ServiceSpec.stored (RedactionService.store_set store k v) k0
  = if Py.str_eqb k k0 then Some v else ServiceSpec.stored store k0.
Proof.
  induction store as [|[k' v'] store IH];
    cbn [RedactionService.store_set ServiceSpec.stored].
  - destruct (Py.str_eqb k k0); reflexivity.
  - destruct (Py.str_eqb k' k) eqn:E.
    + apply str_eqb_eq in E. subst k'. cbn [ServiceSpec.stored].
      destruct (Py.str_eqb k k0); reflexivity.
    + cbn [ServiceSpec.stored]. rewrite IH.
      destruct (Py.str_eqb k' k0) eqn:E0; [|reflexivity].
      apply str_eqb_eq in E0. subst k0.
      destruct (Py.str_eqb k k') eqn:E1; [|reflexivity].
      apply str_eqb_eq in E1. subst k'. rewrite str_eqb_refl in E. discriminate.
Qed.

Lemma store_tokens_keys (toks : list RedactionToken) :
  forall store : RedactionService.token_store,
    NoDup (ServiceSpec.keys store) ->
    NoDup (ServiceSpec.keys (RedactionService.store_tokens_in store toks))
    /\ exists new : list str,
         ServiceSpec.keys (RedactionService.store_tokens_in store toks)
         = ServiceSpec.keys store ++ new
         /\ incl new (map token_id toks).
Proof.
  unfold RedactionService.store_tokens_in.
  induction toks as [|t toks IH]; intros store Hnd; cbn [fold_left].
  - split; [exact Hnd|]. exists []. split; [symmetry; apply app_nil_r | intros x []].
  - destruct (store_set_keys store (token_id t) t) as [[Hin Hk]|[Hout Hk]].
    + destruct (IH (RedactionService.store_set store (token_id t) t)) as (H1 & new & H2 & H3).
      { rewrite Hk. exact Hnd. }
      split; [exact H1|]. exists new. rewrite H2, Hk. split; [reflexivity|].
      intros x Hx. right. apply H3. exact Hx.
    + destruct (IH (RedactionService.store_set store (token_id t) t)) as (H1 & new & H2 & H3).
      { rewrite Hk. apply NoDup_app; [exact Hnd | repeat constructor; intros [] |].
        intros x Hx [<-|[]]. exact (Hout Hx). }
      split; [exact H1|]. exists (token_id t :: new). rewrite H2, Hk, <- app_assoc.
      split; [reflexivity|].
      intros x [<-|Hx]; [left; reflexivity | right; apply H3; exact Hx].
Qed.

Lemma store_tokens_stored (toks : list RedactionToken) :
  forall (store : RedactionService.token_store) (k : str),
    (~ In k (map token_id toks)
     /\ ServiceSpec.stored (RedactionService.store_tokens_in store toks) k
        = ServiceSpec.stored store k)
    \/ (exists t : RedactionToken,
          In t toks /\ token_id t = k
          /\ ServiceSpec.stored (RedactionService.store_tokens_in store toks) k = Some t).
Proof.
  unfold RedactionService.store_tokens_in.
  induction toks as [|t toks IH]; intros store k; cbn [fold_left map].
  - left. split; [intros [] | reflexivity].
  - destruct (IH (RedactionService.store_set store (token_id t) t) k)
      as [[Hout Hs]|(t' & Hin & Hid & Hs)].
    + rewrite stored_store_set in Hs.
      destruct (Py.str_eqb (token_id t) k) eqn:E.
      * apply str_eqb_eq in E. right. exists t.
        split; [left; reflexivity | split; [exact E | exact Hs]].
      * left. split; [|exact Hs].
        intros [H|H]; [|exact (Hout H)].
        rewrite H, str_eqb_refl in E. discriminate.
    + right. exists t'. split; [right; exact Hin | split; [exact Hid | exact Hs]].
Qed.

(** The store after a call with [store_tokens=True] in the calling
    process: the keys stay pairwise distinct, the keys present before keep
    their places and the new ones follow them, every token of the result is
    found under its id (the token found being one of the result with that
    id), and what was stored under any other key is still there. *)
Theorem redact_fills_store :
  forall (s : RedactionService.t) (text : str)
         (store store' : RedactionService.token_store) (r : RedactionResult),
    ServiceSpec.in_process s text ->
    NoDup (ServiceSpec.keys store) ->
    RedactionService.redact s store text true = Some (Ok (r, store')) ->
    NoDup (ServiceSpec.keys store')
    /\ (exists new : list str,
          ServiceSpec.keys store' = ServiceSpec.keys store ++ new
          /\ incl new (map token_id (tokens r)))
    /\ (forall t, In t (tokens r) ->
          exists t', In t' (tokens r) /\ token_id t' = token_id t
                     /\ ServiceSpec.stored store' (token_id t) = Some t')
    /\ (forall k, ~ In k (map token_id (tokens r)) ->
          ServiceSpec.stored store' k = ServiceSpec.stored store k).
Proof.
  intros s text store store' r _ Hnd H.
  destruct (redact_effect H) as [-> _].
  destruct (store_tokens_keys (tokens r) Hnd) as [H1 H2].
  split; [exact H1|]. split; [exact H2|]. split.
  - intros t Ht.
    destruct (store_tokens_stored (tokens r) store (token_id t))
      as [[Hout _]|(t' & Hin & Hid & Hs)].
    + exfalso. apply Hout. apply in_map. exact Ht.
    + exists t'. auto.
  - intros k Hk.
    destruct (store_tokens_stored (tokens r) store k)
      as [[_ Hs]|(t' & Hin & Hid & _)]; [exact Hs|].
    exfalso. apply Hk. rewrite <- Hid. apply in_map. exact Hin.
Qed.

Lemma redact_fills_store_witness :
  exists (r : RedactionResult) (store' : RedactionService.token_store),
    RedactionService.redact sequential_service []
      (s2l "SSN 123-45-6789, mail a@b.co") true = Some (Ok (r, store'))
    /\ NoDup (ServiceSpec.keys store')
    /\ (exists new : list str,
          ServiceSpec.keys store' = ServiceSpec.keys [] ++ new
          /\ incl new (map token_id (tokens r)))
    /\ (forall t, In t (tokens r) ->
          exists t', In t' (tokens r) /\ token_id t' = token_id t
                     /\ ServiceSpec.stored store' (token_id t) = Some t')
    /\ (forall k, ~ In k (map token_id (tokens r)) ->
          ServiceSpec.stored store' k = ServiceSpec.stored [] k).
Proof.
  destruct (RedactionService.redact sequential_service []
              (s2l "SSN 123-45-6789, mail a@b.co") true)
    as [[[r st]|e]|] eqn:E; try (vm_compute in E; discriminate E).
  exists r, st. split; [reflexivity|].
  apply (@redact_fills_store sequential_service
           (s2l "SSN 123-45-6789, mail a@b.co") [] st r).
  - left. reflexivity.
  - constructor.
  - exact E.
Defined.

(** ** Several texts in one call *)

Lemma store_tokens_app (store : RedactionService.token_store)
  (l1 l2 : list RedactionToken) :
  RedactionService.store_tokens_in store (l1 ++ l2)
  = RedactionService.store_tokens_in (RedactionService.store_tokens_in store l1) l2.
Proof. unfold RedactionService.store_tokens_in. apply fold_left_app. Qed.

(** [batch_redact] with [parallel=False] returns, text by text, what a
    separate call of [redact] returns from any store, and leaves the store
    with the tokens of all the results set in their order when
    [store_tokens] holds, untouched otherwise. *)
Theorem batch_redact_separate_calls :
  forall (s : RedactionService.t) (texts : list str)
         (store store' : RedactionService.token_store) (store_tokens : bool)
         (rs : list RedactionResult),
    RedactionService.parallel s = false ->
    Batch.batch_redact s store texts store_tokens = Some (Ok (rs, store')) ->
    Forall2 (fun text r =>
               forall store0 : RedactionService.token_store,
                 RedactionService.redact s store0 text false = Some (Ok (r, store0)))
            texts rs
    /\ store' = (if store_tokens
                 then RedactionService.store_tokens_in store (concat (map tokens rs))
                 else store).
Proof.
  intros s texts store store' st rs _. revert store store' rs.
  induction texts as [|text texts IH]; intros store store' rs H;
    cbn [Batch.batch_redact] in H.
  - injection H as <- <-. split; [constructor | destruct st; reflexivity].
  - destruct (RedactionService.redact s store text st) as [[[r store1]|e]|] eqn:E;
      try discriminate.
    destruct (Batch.batch_redact s store1 texts st) as [[[rs1 store2]|e]|] eqn:E1;
      try discriminate.
    injection H as <- <-.
    destruct (redact_effect E) as [Hs Hr]. destruct (IH _ _ _ E1) as [IHa IHb].
    split.
    + constructor; [|exact IHa]. intros store0. apply (Hr store0 false).
    + rewrite IHb, Hs. destruct st; [|reflexivity].
      cbn [map concat]. rewrite store_tokens_app. reflexivity.
Qed.

Lemma batch_redact_separate_calls_witness :
  exists (rs : list RedactionResult) (store' : RedactionService.token_store),
    Batch.batch_redact sequential_service [] [s2l "a@b.co"; []; s2l "SSN 123-45-6789"] true
    = Some (Ok (rs, store'))
    /\ Forall2 (fun text r =>
                  forall store0 : RedactionService.token_store,
                    RedactionService.redact sequential_service store0 text false
                    = Some (Ok (r, store0)))
               [s2l "a@b.co"; []; s2l "SSN 123-45-6789"] rs
    /\ store' = RedactionService.store_tokens_in [] (concat (map tokens rs)).
Proof.
  destruct (Batch.batch_redact sequential_service []
              [s2l "a@b.co"; []; s2l "SSN 123-45-6789"] true)
    as [[[rs st]|e]|] eqn:E; try (vm_compute in E; discriminate E).
  exists rs, st. split; [reflexivity|].
  apply (@batch_redact_separate_calls sequential_service
           [s2l "a@b.co"; []; s2l "SSN 123-45-6789"] [] st true rs).
  - reflexivity.
  - exact E.
Defined.

(** ** One matcher: the spans in the original text *)

Lemma slice_of_slice (text : str) (off n a b : nat) :
  b <= n ->
  Py.slice (Py.slice text off (off + n)) a b = Py.slice text (off + a) (off + b).
Proof.
  intros Hb. unfold Py.slice.
  replace (off + n - off) with n by lia.
  replace (off + b - (off + a)) with (b - a) by lia.
  rewrite skipn_firstn_comm, firstn_firstn, skipn_skipn.
  replace (Nat.min (b - a) (n - a)) with (b - a) by lia.
  replace (a + off) with (off + a) by lia. reflexivity.
Qed.

Lemma segment_within (text : str) (seg : str * nat) :
  ChunkSpec.is_slice text seg -> 1 <= length (fst seg) ->
  snd seg + length (fst seg) <= length text.
Proof.
  unfold ChunkSpec.is_slice, Py.slice. intros Hs Hl.
  apply (f_equal (@length ascii)) in Hs.
  rewrite length_firstn, length_skipn in Hs. lia.
Qed.

Lemma segment_tokens_spans (r : BaseRedactor.t) (text : str) (seg : str * nat) :
  ChunkSpec.is_slice text seg ->
  snd seg + length (fst seg) <= length text ->
  Forall (fun t => SegmentSpec.span_holds_value text t
                   /\ end_pos t <= snd seg + length (fst seg))
         (snd (BaseRedactor.redact r (fst seg) (snd seg))).
Proof.
  intros Hs Hle. destruct (tokens_located r (fst seg) (snd seg)) as [Hloc _].
  refine (Forall_impl _ _ Hloc). intros t (H1 & H2 & H3 & H4 & _).
  split; [|exact H3]. unfold SegmentSpec.span_holds_value.
  split; [exact H2|]. split; [lia|].
  rewrite H4. rewrite Hs at 1.
  rewrite slice_of_slice by lia. f_equal; lia.
Qed.

Lemma in_text_order_from (toks : list RedactionToken) (lo lo' : nat) :
  lo' <= lo -> RedactSpec.in_text_order lo toks -> RedactSpec.in_text_order lo' toks.
Proof.
  destruct toks as [|t toks]; [intros _ _; exact I|].
  cbn [RedactSpec.in_text_order]. intros Hle (H1 & H2 & H3).
  repeat split; [lia | exact H2 | exact H3].
Qed.

Lemma in_text_order_app (l1 l2 : list RedactionToken) :
  forall lo hi : nat,
    lo <= hi ->
    RedactSpec.in_text_order lo l1 ->
    Forall (fun t => end_pos t <= hi) l1 ->
    RedactSpec.in_text_order hi l2 ->
    RedactSpec.in_text_order lo (l1 ++ l2).
Proof.
  induction l1 as [|t l1 IH]; intros lo hi Hle H1 Hf H2; cbn [app].
  - apply (in_text_order_from Hle H2).
  - cbn [RedactSpec.in_text_order] in *. destruct H1 as (Ha & Hb & Hc).
    apply Forall_cons_iff in Hf as [Ht Hf].
    repeat split; [exact Ha | exact Hb|].
    apply (IH (end_pos t) hi); assumption.
Qed.

Lemma single_matcher_local (r : BaseRedactor.t) (text : str) (offset : nat) :
  tokens (ServiceSpec.local_result [r] text offset)
  = snd (BaseRedactor.redact r text offset).
Proof.
  unfold ServiceSpec.local_result, RedactionService.apply_redactors.
  cbn [fold_left tokens]. destruct (BaseRedactor.redact r text offset) as [red toks].
  reflexivity.
Qed.

Lemma segments_tokens_spans (r : BaseRedactor.t) (text : str) :
  forall (chunks : list (str * nat)) (start : nat),
    SegmentSpec.contiguous start chunks ->
    Forall (ChunkSpec.is_slice text) chunks ->
    Forall (fun seg => 1 <= length (fst seg)) chunks ->
    Forall (SegmentSpec.span_holds_value text)
           (concat (map (fun c => tokens (ServiceSpec.local_result [r] (fst c) (snd c)))
                        chunks))
    /\ RedactSpec.in_text_order start
         (concat (map (fun c => tokens (ServiceSpec.local_result [r] (fst c) (snd c)))
                      chunks)).
Proof.
  induction chunks as [|seg chunks IH]; intros start Hc Hs Hl; cbn [map concat].
  - split; [constructor | exact I].
  - cbn [SegmentSpec.contiguous] in Hc. destruct Hc as [Hstart Hc].
    apply Forall_cons_iff in Hs as [Hs1 Hs]. apply Forall_cons_iff in Hl as [Hl1 Hl].
    destruct (IH _ Hc Hs Hl) as [IHa IHb].
    rewrite single_matcher_local.
    pose proof (segment_tokens_spans r Hs1 (segment_within Hs1 Hl1)) as Hseg.
    destruct (tokens_located r (fst seg) (snd seg)) as [_ Hord].
    rewrite Hstart in *. split.
    + apply Forall_app. split; [|exact IHa].
      refine (Forall_impl _ _ Hseg). intros t Ht. exact (proj1 Ht).
    + apply (@in_text_order_app _ _ start (start + length (fst seg)));
        [lia | exact Hord | | exact IHb].
      refine (Forall_impl _ _ Hseg). intros t Ht. exact (proj2 Ht).
Qed.

(** With one matcher installed, every token of a result carries the span
    of its value in the text given to [redact], also when the text goes
    through the chunker: the offsets of the segments put the spans right,
    and the tokens come in text order without overlap. (With several
    matchers the later ones see the text the earlier ones rewrote.) *)
Theorem single_matcher_spans :
  forall (s : RedactionService.t) (r : BaseRedactor.t) (text : str)
         (store store' : RedactionService.token_store) (store_tokens : bool)
         (result : RedactionResult),
    RedactionService.redactors s = [r] ->
    RedactionService.use_cloud_detection s = false ->
    ServiceSpec.in_process s text ->
    RedactionService.redact s store text store_tokens = Some (Ok (result, store')) ->
    Forall (SegmentSpec.span_holds_value text) (tokens result)
    /\ RedactSpec.in_text_order 0 (tokens result).
Proof.
  intros s r text store store' st result Hr Hu _ H.
  unfold RedactionService.redact in H.
  destruct text as [|c0 text0].
  - injection H as <- _. split; [constructor | exact I].
  - set (text := c0 :: text0) in *.
    assert (Hwhole : ChunkSpec.is_slice text (text, 0)).
    { unfold ChunkSpec.is_slice, Py.slice. cbn [fst snd skipn].
      rewrite Nat.add_0_l, Nat.sub_0_r, firstn_all. reflexivity. }
    destruct (RedactionService.chunk_size s <? length text) eqn:Hlong.
    + apply Nat.ltb_lt in Hlong.
      unfold RedactionService._redact_chunked in H.
      destruct (TextChunker.chunk_text (RedactionService.chunk_size s) text)
        as [chunks|] eqn:Hc; [|discriminate].
      rewrite (redact_chunks_local store chunks Hu) in H. cbn [bind] in H.
      rewrite merge_mapped in H. injection H as <- _. cbn [tokens]. rewrite Hr.
      destruct (Nat.eq_dec (RedactionService.chunk_size s) 0) as [H0|H0].
      { rewrite H0 in Hc. unfold TextChunker.chunk_text in Hc.
        rewrite chunk_text_fuel_zero in Hc by discriminate. discriminate. }
      assert (Hpos : 0 < RedactionService.chunk_size s) by lia.
      destruct (@chunk_text_sizes _ text chunks Hpos) as [Hcont Hsz];
        [discriminate | exact Hc|].
      assert (Hsl : Forall (ChunkSpec.is_slice text) chunks).
      { unfold TextChunker.chunk_text, TextChunker.chunk_text_fuel in Hc.
        destruct (Nat.leb_spec (length text) (RedactionService.chunk_size s)); [lia|].
        destruct (@chunk_loop_spec _ text Hpos (length text) 0)
          as (chunks' & Hc' & _ & _ & Hs'); try lia.
        rewrite Hc in Hc'. injection Hc' as <-. exact Hs'. }
      apply segments_tokens_spans; [exact Hcont | exact Hsl|].
      refine (Forall_impl _ _ Hsz). intros seg Hseg. exact (proj1 Hseg).
    + rewrite (redact_single_local store text 0 st Hu) in H.
      injection H as <- _. rewrite Hr.
      destruct (@segments_tokens_spans r text [(text, 0)] 0) as [Ha Hb].
      * cbn [SegmentSpec.contiguous fst snd]. split; [reflexivity | exact I].
      * constructor; [exact Hwhole | constructor].
      * constructor; [|constructor]. cbn [fst]. unfold text. simpl. lia.
      * cbn [map concat fst snd] in Ha, Hb. rewrite app_nil_r in Ha, Hb.
        split; assumption.
Qed.

Lemma single_matcher_spans_witness :
  exists (result : RedactionResult) (store' : RedactionService.token_store),
    RedactionService.redact ssn_service []
      (s2l "first 123-45-6789 and then 234-56-7890 as well") true
    = Some (Ok (result, store'))
    /\ Forall (SegmentSpec.span_holds_value
                 (s2l "first 123-45-6789 and then 234-56-7890 as well"))
              (tokens result)
    /\ RedactSpec.in_text_order 0 (tokens result).
Proof.
  destruct (RedactionService.redact ssn_service []
              (s2l "first 123-45-6789 and then 234-56-7890 as well") true)
    as [[[result st]|e]|] eqn:E; try (vm_compute in E; discriminate E).
  exists result, st. split; [reflexivity|].
  apply (@single_matcher_spans ssn_service Builtin.SSNRedactor
           (s2l "first 123-45-6789 and then 234-56-7890 as well") [] st true result).
  - reflexivity.
  - reflexivity.
  - left. reflexivity.
  - exact E.
Defined.

(** ** The validators of the e-mail and bank account matchers *)

Lemma startswith_single (c : ascii) (s : str) :
  Py.startswith [c] s = match s with
                        | [] => false
                        | y :: _ => Py.ch_eqb c y
                        end.
Proof.
  destruct s as [|y s]; [reflexivity|].
  cbn [Py.startswith]. destruct s; apply andb_true_r.
Qed.

Lemma contains_single (c : ascii) (s : str) :
  Py.contains [c] s = true <-> In c s.
Proof.
  unfold Py.contains. induction s as [|y s IH].
  - cbn. split; [discriminate | intros []].
  - cbn [Py.find]. rewrite startswith_single. unfold Py.ch_eqb.
    destruct (Ascii.eqb_spec c y) as [->|Hne].
    + split; [intros _; left; reflexivity | reflexivity].
    + destruct (Py.find [c] s); cbn [option_map]; split; intros H.
      * right. apply IH. reflexivity.
      * reflexivity.
      * discriminate.
      * destruct H as [H|H]; [congruence|]. apply IH in H. discriminate.
Qed.

Lemma first_occurrence (c : ascii) (s : str) :
  In c s -> exists a b : str, s = a ++ c :: b /\ ~ In c a.
Proof.
  induction s as [|y s IH]; intros H; [destruct H|].
  destruct (ascii_dec y c) as [->|Hne].
  - exists [], s. split; [reflexivity | intros []].
  - destruct H as [H|H]; [contradiction|].
    destruct (IH H) as (a & b & -> & Ha).
    exists (y :: a), b. split; [reflexivity|].
    intros [Hy|Hy]; [exact (Hne Hy) | exact (Ha Hy)].
Qed.

Lemma split_no_sep (c : ascii) (s : str) :
  forall cur : str, ~ In c s -> Py.split_aux [c] s 0 cur = [rev cur ++ s].
Proof.
  induction s as [|y s IH]; intros cur H; cbn [Py.split_aux].
  - rewrite app_nil_r. reflexivity.
  - rewrite startswith_single. unfold Py.ch_eqb.
    destruct (Ascii.eqb_spec c y) as [->|Hne]; [exfalso; apply H; left; reflexivity|].
    rewrite IH by (intros Hin; apply H; right; exact Hin).
    cbn [rev]. rewrite <- app_assoc. reflexivity.
Qed.

Lemma split_at_sep (c : ascii) (a b : str) :
  forall cur : str,
    ~ In c a ->
    Py.split_aux [c] (a ++ c :: b) 0 cur = (rev cur ++ a) :: Py.split_aux [c] b 0 [].
Proof.
  induction a as [|y a IH]; intros cur H; cbn [app Py.split_aux].
  - rewrite startswith_single. unfold Py.ch_eqb. rewrite Ascii.eqb_refl.
    rewrite app_nil_r. reflexivity.
  - rewrite startswith_single. unfold Py.ch_eqb.
    destruct (Ascii.eqb_spec c y) as [->|Hne]; [exfalso; apply H; left; reflexivity|].
    rewrite IH by (intros Hin; apply H; right; exact Hin).
    cbn [rev]. rewrite <- app_assoc. reflexivity.
Qed.

Lemma split_pieces (c : ascii) (s : str) :
  (~ In c s /\ Py.split [c] s = [s])
  \/ (exists (a b x : str) (l : list str),
        s = a ++ c :: b /\ ~ In c a
        /\ Py.split [c] s = a :: x :: l
        /\ ((~ In c b /\ x = b /\ l = []) \/ (In c b /\ l <> []))).
Proof.
  unfold Py.split. destruct (in_dec ascii_dec c s) as [Hin|Hout].
  - right. destruct (first_occurrence Hin) as (a & b & -> & Ha).
    rewrite (split_at_sep b [] Ha). cbn [rev app].
    destruct (in_dec ascii_dec c b) as [Hb|Hb].
    + destruct (first_occurrence Hb) as (a' & b' & -> & Ha').
      rewrite (split_at_sep b' [] Ha'). cbn [rev app].
      assert (Hne : Py.split_aux [c] b' 0 [] <> []).
      { destruct (in_dec ascii_dec c b') as [Hb'|Hb'].
        - destruct (first_occurrence Hb') as (a2 & b2 & -> & Ha2).
          rewrite (split_at_sep b2 [] Ha2). discriminate.
        - rewrite (split_no_sep [] Hb'). discriminate. }
      exists a, (a' ++ c :: b'), a', (Py.split_aux [c] b' 0 []).
      repeat split; auto.
    + rewrite (split_no_sep [] Hb). cbn [rev app].
      exists a, b, b, []. repeat split; auto.
  - left. split; [exact Hout|]. rewrite (split_no_sep [] Hout). reflexivity.
Qed.

(** The e-mail validator accepts a candidate exactly when it holds one
    [@], 1 to 64 characters before it, and a dot somewhere after it; the
    test that the domain is not empty adds nothing to the last one. *)
Theorem email_validate_iff :
  forall text : str,
    EmailRedactor.validate text = true <-> EmailSpec.accepts text.
Proof.
  intros text. unfold EmailRedactor.validate, EmailSpec.accepts.
  change (s2l "@") with [EmailSpec.at_sign]. change (s2l ".") with [EmailSpec.dot].
  destruct (split_pieces EmailSpec.at_sign text)
    as [[Hout Hs]|(a & b & x & l & Ht & Ha & Hs & Hcase)].
  - assert (Hc : Py.contains [EmailSpec.at_sign] text = false).
    { destruct (Py.contains [EmailSpec.at_sign] text) eqn:E; [|reflexivity].
      apply contains_single in E. contradiction. }
    rewrite Hc. cbn [negb]. split; [discriminate|].
    intros (lp & dm & -> & _). exfalso. apply Hout. apply in_elt.
  - assert (Hc : Py.contains [EmailSpec.at_sign] text = true).
    { apply contains_single. rewrite Ht. apply in_elt. }
    rewrite Hc, Hs. cbn [negb].
    destruct Hcase as [(Hb & -> & ->)|[Hb Hl]].
    + split.
      * intros H.
        destruct ((length a =? 0) || (64 <? length a)) eqn:E1; [discriminate|].
        destruct ((length b =? 0) || negb (Py.contains [EmailSpec.dot] b)) eqn:E2;
          [discriminate|].
        apply orb_false_iff in E1 as [E1a E1b]. apply orb_false_iff in E2 as [_ E2b].
        apply Nat.eqb_neq in E1a. apply Nat.ltb_ge in E1b.
        apply negb_false_iff in E2b. apply contains_single in E2b.
        exists a, b. repeat split; auto; lia.
      * intros (lp & dm & Ht' & Hlp & Hdm & Hlen & Hdot).
        assert (lp = a).
        { rewrite Ht in Ht'. symmetry. exact (split_at_first Ha Hlp Ht'). }
        subst lp. rewrite Ht in Ht'. apply app_inv_head in Ht'.
        injection Ht' as <-.
        replace (length a =? 0) with false by (symmetry; apply Nat.eqb_neq; lia).
        replace (64 <? length a) with false by (symmetry; apply Nat.ltb_ge; lia).
        replace (length b =? 0) with false
          by (symmetry; apply Nat.eqb_neq; destruct b; [destruct Hdot | simpl; lia]).
        apply contains_single in Hdot. rewrite Hdot. reflexivity.
    + destruct l as [|y l]; [contradiction|]. split; [discriminate|].
      intros (lp & dm & Ht' & Hlp & Hdm & _).
      assert (lp = a).
      { rewrite Ht in Ht'. symmetry. exact (split_at_first Ha Hlp Ht'). }
      subst lp. rewrite Ht in Ht'. apply app_inv_head in Ht'.
      injection Ht' as <-. contradiction.
Qed.

Lemma len_set_one (s : str) :
  BankAccountRedactor.len_set s = 1
  <-> s <> [] /\ forall a b, In a s -> In b s -> a = b.
Proof.
  unfold BankAccountRedactor.len_set. split.
  - intros H. destruct (nodup ascii_dec s) as [|c [|c' l]] eqn:E; try discriminate.
    assert (Hall : forall a, In a s -> a = c).
    { intros a Ha. apply (nodup_In ascii_dec) in Ha. rewrite E in Ha.
      destruct Ha as [Ha|[]]. symmetry. exact Ha. }
    split.
    + intros ->. discriminate.
    + intros a b Ha Hb. rewrite (Hall a Ha), (Hall b Hb). reflexivity.
  - intros [Hne Hall].
    pose proof (NoDup_nodup ascii_dec s) as Hnd.
    destruct (nodup ascii_dec s) as [|c [|c' l]] eqn:E.
    + destruct s as [|x s]; [contradiction|].
      assert (Hx : In x (nodup ascii_dec (x :: s)))
        by (apply nodup_In; left; reflexivity).
      rewrite E in Hx. destruct Hx.
    + reflexivity.
    + exfalso. inversion Hnd as [|? ? Hnot _]. apply Hnot. left.
      apply Hall; apply (nodup_In ascii_dec); rewrite E;
        [right; left; reflexivity | left; reflexivity].
Qed.

Lemma same_or_other (c : ascii) (s : str) :
  (forall x, In x s -> x = c) \/ (exists b, In b s /\ b <> c).
Proof.
  induction s as [|y s IH]; [left; intros x []|].
  destruct (ascii_dec y c) as [->|Hne].
  - destruct IH as [IH|(b & Hb & Hbc)].
    + left. intros x [<-|Hx]; [reflexivity | apply IH; exact Hx].
    + right. exists b. split; [right; exact Hb | exact Hbc].
  - right. exists y. split; [left; reflexivity | exact Hne].
Qed.

(** The bank account validator accepts a candidate exactly when it holds
    8 to 17 decimal digits that are not all the same. *)
Theorem bank_validate_iff :
  forall text : str,
    BankAccountRedactor.validate text = true <-> BankSpec.accepts text.
Proof.
  intros text. unfold BankAccountRedactor.validate, BankSpec.accepts.
  set (digits := Py.strip_non_digits text).
  destruct (Nat.ltb_spec (length digits) 8) as [H8|H8]; cbn [orb].
  - split; [discriminate | intros [H _]; lia].
  - destruct (Nat.ltb_spec 17 (length digits)) as [H17|H17].
    + split; [discriminate | intros [H _]; lia].
    + destruct (Nat.eqb_spec (BankAccountRedactor.len_set digits) 1) as [H1|H1].
      * split; [discriminate|]. intros [_ (a & b & Ha & Hb & Hab)].
        apply len_set_one in H1 as [_ Hall]. exfalso. apply Hab.
        apply Hall; assumption.
      * split; [|reflexivity]. intros _. split; [lia|].
        destruct digits as [|c digits'] eqn:Ed; [simpl in H8; lia|].
        destruct (same_or_other c digits') as [Hsame|(b & Hb & Hbc)].
        -- exfalso. apply H1. apply len_set_one. split; [discriminate|].
           intros a b [<-|Ha] [<-|Hb]; auto.
           ++ symmetry. apply Hsame. exact Hb.
           ++ rewrite (Hsame a Ha), (Hsame b Hb). reflexivity.
        -- exists b, c. split; [right; exact Hb|]. split; [left; reflexivity | exact Hbc].
Qed.

(** ** The Azure detector *)

Lemma insert_desc_sorted (A : Type) (key : A -> nat) (x : A) (l : list A) :
  StronglySorted (fun a b => key b <= key a) l ->
  StronglySorted (fun a b => key b <= key a) (insert_desc key x l).
Proof.
  induction l as [|y l IH]; intros Hs; cbn [insert_desc].
  - constructor; constructor.
  - apply StronglySorted_inv in Hs as [Hs Hy].
    destruct (Nat.leb_spec (key y) (key x)) as [Hle|Hgt].
    + constructor; [constructor; assumption|].
      constructor; [exact Hle|].
      refine (Forall_impl _ _ Hy). intros b Hb. lia.
    + constructor; [apply IH; exact Hs|].
      apply Forall_forall. intros b Hb.
      apply (Permutation_in _ (insert_desc_perm key x l)) in Hb.
      destruct Hb as [<-|Hb]; [lia|].
      rewrite Forall_forall in Hy. apply Hy. exact Hb.
Qed.

Lemma sorted_reverse_sorted (A : Type) (key : A -> nat) (l : list A) :
  StronglySorted (fun a b => key b <= key a) (sorted_reverse key l).
Proof.
  unfold sorted_reverse. induction l as [|x l IH]; cbn [fold_right].
  - constructor.
  - apply insert_desc_sorted. exact IH.
Qed.

Lemma strongly_sorted_map (A B : Type) (f : A -> B) (R : A -> A -> Prop)
  (R' : B -> B -> Prop) (l : list A) :
  (forall a b, R a b -> R' (f a) (f b)) ->
  StronglySorted R l -> StronglySorted R' (map f l).
Proof.
  intros HR. induction 1 as [|a l Hs IH Ha]; cbn [map]; constructor; [exact IH|].
  apply Forall_map. refine (Forall_impl _ _ Ha). intros b Hb. apply HR. exact Hb.
Qed.

Section AzureTokens.
Variable md5_hexdigest : str -> str.

Lemma entity_fold_tokens (es : list AzureTextAnalyticsPIIDetector.entity) :
  forall (text : str) (toks : list RedactionToken),
  exists f : AzureTextAnalyticsPIIDetector.entity -> RedactionToken,
    (forall e, AzureSpec.token_data (f e) = AzureSpec.entity_data e)
    /\ snd (fold_left (AzureTextAnalyticsPIIDetector.entity_step md5_hexdigest)
                      es (text, toks))
       = toks ++ map f es.
Proof.
  intros text toks.
  exists (fun e =>
            hd {| token_id := []; original_value := []; redaction_type := CUSTOM;
                  start_pos := 0; end_pos := 0 |}
               (snd (AzureTextAnalyticsPIIDetector.entity_step md5_hexdigest ([], []) e))).
  split; [intros e; reflexivity|].
  revert text toks. induction es as [|e es IH]; intros text toks; cbn [fold_left map].
  - rewrite app_nil_r. reflexivity.
  - unfold AzureTextAnalyticsPIIDetector.entity_step at 2. cbv beta iota zeta.
    rewrite IH. rewrite <- app_assoc. reflexivity.
Qed.

(** The tokens of [_redact_with_entities]: one for each entity, with its
    text and its span, and in the order in which the entities are replaced,
    from the last position in the text to the first. *)
Theorem azure_tokens_descending :
  forall (text : str) (entities : list AzureTextAnalyticsPIIDetector.entity),
    Permutation
      (map AzureSpec.token_data
           (tokens (AzureTextAnalyticsPIIDetector._redact_with_entities
                      md5_hexdigest text entities)))
      (map AzureSpec.entity_data entities)
    /\ AzureSpec.descending
         (tokens (AzureTextAnalyticsPIIDetector._redact_with_entities
                    md5_hexdigest text entities)).
Proof.
  intros text entities. unfold AzureTextAnalyticsPIIDetector._redact_with_entities.
  destruct entities as [|e0 es0]; [split; constructor|].
  set (entities := e0 :: es0).
  destruct (entity_fold_tokens
              (sorted_reverse AzureTextAnalyticsPIIDetector.e_offset entities) text [])
    as (f & Hf & Hfold).
  destruct (fold_left (AzureTextAnalyticsPIIDetector.entity_step md5_hexdigest) _ _)
    as [text' toks].
  cbn [snd app] in Hfold. cbn [tokens]. subst toks. split.
  - rewrite map_map. rewrite (map_ext _ AzureSpec.entity_data Hf).
    apply Permutation_map. apply sorted_reverse_perm.
  - unfold AzureSpec.descending.
    refine (strongly_sorted_map _ (sorted_reverse_sorted _ _)).
    intros a b Hab.
    pose proof (Hf a) as Ha. pose proof (Hf b) as Hb.
    unfold AzureSpec.token_data, AzureSpec.entity_data in Ha, Hb.
    injection Ha as _ Ha _. injection Hb as _ Hb _. rewrite Ha, Hb. exact Hab.
Qed.

Lemma azure_redact_unusable (d : AzureTextAnalyticsPIIDetector.t) (text : str) :
  AzureSpec.unusable d -> text <> [] ->
  AzureTextAnalyticsPIIDetector.redact md5_hexdigest d text
  = Raise (AzureSpec.client_error d).
Proof.
  intros Hd Hne. destruct text as [|c text]; [contradiction|].
  unfold AzureTextAnalyticsPIIDetector.redact, AzureTextAnalyticsPIIDetector.detect_pii,
    AzureTextAnalyticsPIIDetector._get_client, AzureSpec.client_error.
  destruct (AzureTextAnalyticsPIIDetector.sdk_installed d) eqn:Es; cbn [negb];
    [|reflexivity].
  destruct Hd as [Hd|Hd]; [rewrite Hd in Es; discriminate|].
  rewrite Hd. reflexivity.
Qed.

(** A detector that cannot build its client (no SDK, or no credential)
    makes [redact] raise on every non-empty text, on the single-segment
    path as on the sequential chunked one: [ImportError] without the SDK,
    [ValueError] with it; the error is raised before the [try] that absorbs
    the failures of the remote call. *)
Theorem unusable_detector_raises :
  forall (d : AzureTextAnalyticsPIIDetector.t) (s : RedactionService.t)
         (store : RedactionService.token_store) (text : str) (store_tokens : bool),
    RedactionService.use_cloud_detection s = true ->
    RedactionService._cloud_detector s
    = Some (AzureTextAnalyticsPIIDetector.redact md5_hexdigest d) ->
    AzureSpec.unusable d ->
    0 < RedactionService.chunk_size s ->
    ServiceSpec.in_process s text ->
    text <> [] ->
    RedactionService.redact s store text store_tokens
    = Some (Raise (AzureSpec.client_error d)).
Proof.
  intros d s store text st Hu Hd Hun Hpos _ Hne.
  assert (Hsingle : forall chunk offset b,
             chunk <> [] ->
             RedactionService._redact_single s store chunk offset b
             = Raise (AzureSpec.client_error d)).
  { intros chunk offset b Hc. unfold RedactionService._redact_single.
    rewrite Hu, Hd, (azure_redact_unusable Hun Hc). reflexivity. }
  unfold RedactionService.redact. destruct text as [|c0 text0]; [contradiction|].
  set (text := c0 :: text0) in *.
  destruct (RedactionService.chunk_size s <? length text) eqn:Hlong.
  - unfold RedactionService._redact_chunked.
    destruct (chunk_text_total text Hpos) as (chunks & Hc & Hcat). rewrite Hc.
    destruct (chunk_text_sizes Hpos Hne Hc) as [_ Hsz].
    destruct chunks as [|[chunk offset] chunks]; [discriminate Hcat|].
    apply Forall_cons_iff in Hsz as [Hsz _]. cbn [fst] in Hsz.
    cbn [RedactionService.redact_chunks].
    rewrite Hsingle; [reflexivity|]. intros ->. simpl in Hsz. lia.
  - rewrite Hsingle by exact Hne. reflexivity.
Qed.
End AzureTokens.

Lemma unusable_detector_raises_witness :
  RedactionService.redact
    (cloud_service
       (AzureTextAnalyticsPIIDetector.redact (fun s : str => s)
          {| AzureTextAnalyticsPIIDetector.credential := false;
             AzureTextAnalyticsPIIDetector.sdk_installed := true;
             AzureTextAnalyticsPIIDetector.recognize_pii_entities := fun _ => Ok [] |}))
    [] (s2l "mail a@b.co") true
  = Some (Raise ValueError).
Proof.
  apply (@unusable_detector_raises (fun s : str => s)
           {| AzureTextAnalyticsPIIDetector.credential := false;
              AzureTextAnalyticsPIIDetector.sdk_installed := true;
              AzureTextAnalyticsPIIDetector.recognize_pii_entities := fun _ => Ok [] |}).
  - reflexivity.
  - reflexivity.
  - right. reflexivity.
  - simpl. lia.
  - right. simpl. lia.
  - discriminate.
Defined.
